(** * The dependency-tracking engine of the reactivity package

    A shallow embedding of [packages/reactivity/src]: the plain-object
    interceptors (baseHandlers.ts), the effect engine (effect.ts) and the
    proxy factory (reactive.ts).

    The engine is imperative JavaScript over a handful of module-level
    variables ([targetMap], [effectStack], [activeEffect], [trackOpBit], the
    four proxy maps, ...).  They are gathered in one [state] record and every
    engine function becomes a function in a state-and-exception monad.  User
    code (the function given to [effect], a scheduler, the top-level script)
    is a tree of engine calls whose continuations are Rocq functions, so that
    it can branch on the values it reads.  The production build is modelled:
    [__DEV__] is false, so warnings and the onTrack / onTrigger hooks are
    dead code.

    The helpers imported from @vue/shared that only name an operation of
    the language ([isObject], [isArray], [isMap], [isSymbol], [hasOwn],
    [toRawType], [extend], [makeMap]) are written as that operation. *)

From Stdlib Require Import Ascii String.
From stdpp Require Import base option list gmap strings.

Local Open Scope Z_scope.

(** ** Identities *)

(** Objects, Deps and effects are compared by identity in the source; each
    gets an address in the corresponding store. *)
Abbreviation addr := nat (only parsing).
Abbreviation depid := nat (only parsing).
Abbreviation eid := nat (only parsing).

(** ** Property keys *)

(** A property key is a string or a symbol.  [ITERATE_KEY] and
    [MAP_KEY_ITERATE_KEY] are the two symbols of effect.ts; [SymBuiltin]
    stands for the well-known symbols collected in [builtInSymbols]. *)
Inductive symbol : Type :=
| SymIterate
| SymMapKeyIterate
| SymBuiltin (n : nat)
| SymUser (n : nat).

Inductive Key : Type :=
| KStr (s : string)
| KSym (y : symbol).

#[global] Instance symbol_eq_dec : EqDecision symbol.
Proof. solve_decision. Defined.
#[global] Instance Key_eq_dec : EqDecision Key.
Proof. solve_decision. Defined.

Definition ITERATE_KEY : Key := KSym SymIterate.
Definition MAP_KEY_ITERATE_KEY : Key := KSym SymMapKeyIterate.

(** [ReactiveFlags] *)
Definition SKIP : Key := KStr "__v_skip".
Definition IS_REACTIVE : Key := KStr "__v_isReactive".
Definition IS_READONLY : Key := KStr "__v_isReadonly".
Definition RAW : Key := KStr "__v_raw".
Definition LENGTH : Key := KStr "length".
Definition VALUE : Key := KStr "value".
Definition IS_REF : Key := KStr "__v_isRef".

Definition flag_keys : list Key := [SKIP; IS_REACTIVE; IS_READONLY; RAW; IS_REF].

Definition isSymbol (k : Key) : bool :=
  match k with KSym _ => true | KStr _ => false end.

Definition builtInSymbols_has (k : Key) : bool :=
  match k with KSym (SymBuiltin _) => true | _ => false end.

(** [makeMap(`__proto__,__v_isRef,__isVue`)] *)
Definition isNonTrackableKeys (k : Key) : bool :=
  bool_decide (k = KStr "__proto__") || bool_decide (k = KStr "__v_isRef")
  || bool_decide (k = KStr "__isVue").

(** The array methods replaced by [createArrayInstrumentations]. *)
Definition arrayInstrumentations_hasOwn (k : Key) : bool :=
  bool_decide (k ∈ map KStr
    ["includes"; "indexOf"; "lastIndexOf"; "push"; "pop"; "shift"; "unshift"; "splice"]%string).

(** ** Values *)

(** Numbers are the integers (in the range where doubles are exact) and NaN.
    Every object, array, collection, Ref and proxy lives in the heap and is a
    [VObj]; [VFun] is a built-in function known by name. *)
Inductive value : Type :=
| VUndef
| VNull
| VBool (b : bool)
| VNum (z : Z)
| VNaN
| VStr (s : string)
| VObj (a : addr)
| VFun (name : string).

#[global] Instance value_eq_dec : EqDecision value.
Proof. solve_decision. Defined.

(** JavaScript truthiness, as used by [&&], [!!] and [if]. *)
Definition truthy (v : value) : bool :=
  match v with
  | VUndef | VNull | VNaN => false
  | VBool b => b
  | VNum z => negb (z =? 0)
  | VStr s => negb (bool_decide (s = EmptyString))
  | VObj _ | VFun _ => true
  end.

(** [isObject]: [val !== null && typeof val === 'object']. *)
Definition isObject (v : value) : bool :=
  match v with VObj _ => true | _ => false end.

(** Modelled from the spec: [hasChanged] of @vue/shared is not part of the
    sources; the spec calls it "identity equality, NaN-aware": two values are
    unchanged when they are the same primitive, the same object, or both
    NaN. *)
Definition hasChanged (v old : value) : bool := negb (bool_decide (v = old)).

(** ** Integer keys and numeric coercion of keys *)

Definition digit_of (c : ascii) : option nat :=
  let n := nat_of_ascii c in
  if ((48 <=? n) && (n <=? 57))%nat then Some (n - 48)%nat else None.

Fixpoint parse_digits (s : string) (acc : nat) : option nat :=
  match s with
  | EmptyString => Some acc
  | String c s' =>
      match digit_of c with
      | Some d => parse_digits s' (10 * acc + d)%nat
      | None => None
      end
  end.

(** Modelled from the spec: [isIntegerKey] of @vue/shared is not part of the
    sources; an "integer index" is a key that is the canonical decimal
    spelling of a natural number.  [index_of_key] returns that number. *)
Definition index_of_key (k : Key) : option nat :=
  match k with
  | KStr (String c s') =>
      if bool_decide (c = "0"%char)
      then (if bool_decide (s' = EmptyString) then Some 0%nat else None)
      else parse_digits (String c s') 0
  | _ => None
  end.

(** Modelled from the spec: [isIntegerKey] of @vue/shared is not part of the
    sources; it holds of the keys that are an "integer index". *)
Definition isIntegerKey (k : Key) : bool :=
  match index_of_key k with Some _ => true | None => false end.

(** What [ToNumber] makes of a string key: an integer, a quotient
    [m / 10 ^ p] that is not written as an integer (with its sign), an
    infinity, or NaN. *)
Inductive jsnum : Type :=
| JInt (z : Z)
| JFrac (neg : bool) (m : Z) (p : Z)
| JInf
| JNegInf
| JNaN.

(** [StrWhiteSpaceChar], among the ASCII characters: TAB, LF, VT, FF, CR
    and the space. *)
Definition is_ws (c : ascii) : bool :=
  let n := nat_of_ascii c in ((9 <=? n) && (n <=? 13) || (n =? 32))%nat.

Fixpoint drop_ws (l : list ascii) : list ascii :=
  match l with
  | c :: l' => if is_ws c then drop_ws l' else l
  | [] => []
  end.

Definition trim_ws (l : list ascii) : list ascii := rev (drop_ws (rev (drop_ws l))).

(** The value of a digit in a base up to 16. *)
Definition digit_in (base : nat) (c : ascii) : option nat :=
  let n := nat_of_ascii c in
  let d := if ((48 <=? n) && (n <=? 57))%nat then Some (n - 48)%nat
           else if ((97 <=? n) && (n <=? 102))%nat then Some (n - 87)%nat
           else if ((65 <=? n) && (n <=? 70))%nat then Some (n - 55)%nat
           else None in
  match d with
  | Some d => if (d <? base)%nat then Some d else None
  | None => None
  end.

(** The value of a list of digits, [None] when one of them is not a
    digit of the base. *)
Fixpoint digits_value (base : nat) (l : list ascii) (acc : Z) : option Z :=
  match l with
  | [] => Some acc
  | c :: l' =>
      match digit_in base c with
      | Some d => digits_value base l' (Z.of_nat base * acc + Z.of_nat d)
      | None => None
      end
  end.

(** The decimal digits a list starts with, and what follows them. *)
Fixpoint span_digits (l : list ascii) : list ascii * list ascii :=
  match l with
  | c :: l' =>
      match digit_of c with
      | Some _ => let '(ds, r) := span_digits l' in (c :: ds, r)
      | None => ([], l)
      end
  | [] => ([], [])
  end.

(** The exponent that follows the digits: 0 when nothing follows,
    otherwise an [ExponentPart], which is [e] or [E], an optional sign, and
    at least one digit up to the end.  [None]: malformed. *)
Definition exponent_part (l : list ascii) : option Z :=
  match l with
  | [] => Some 0
  | c :: l' =>
      if bool_decide (c = "e"%char) || bool_decide (c = "E"%char) then
        let '(neg, l2) :=
          match l' with
          | s :: l2 => if bool_decide (s = "-"%char) then (true, l2)
                       else if bool_decide (s = "+"%char) then (false, l2)
                       else (false, l')
          | [] => (false, l')
          end in
        match l2, digits_value 10 l2 0 with
        | _ :: _, Some e => Some (if neg : bool then - e else e)
        | _, _ => None
        end
      else None
  end.

(** [StrUnsignedDecimalLiteral] with the sign [neg] read before it:
    ["Infinity"], or digits with an optional fraction and exponent, where a
    digit stands on at least one side of the dot. *)
Definition decimal_literal (neg : bool) (l : list ascii) : jsnum :=
  if bool_decide (l = list_ascii_of_string "Infinity") then (if neg then JNegInf else JInf)
  else
    let '(ip, r1) := span_digits l in
    let '(fp, r2) :=
      match r1 with
      | c :: r => if bool_decide (c = "."%char) then span_digits r else ([], r1)
      | [] => ([], r1)
      end in
    match ip ++ fp, digits_value 10 (ip ++ fp) 0, exponent_part r2 with
    | _ :: _, Some m, Some e =>
        let q := e - Z.of_nat (length fp) in
        if 0 <=? q then JInt ((if neg then -1 else 1) * (m * 10 ^ q))
        else JFrac neg m (- q)
    | _, _, _ => JNaN
    end.

(** [StrNumericLiteral]: a binary, octal or hexadecimal integer (with no
    sign), or a decimal literal with an optional sign. *)
Definition numeric_literal (l : list ascii) : jsnum :=
  match l with
  | [] => JInt 0
  | c :: l' =>
      let radix :=
        match l' with
        | x :: ds =>
            if bool_decide (c = "0"%char) then
              if bool_decide (x = "x"%char) || bool_decide (x = "X"%char) then Some (16%nat, ds)
              else if bool_decide (x = "o"%char) || bool_decide (x = "O"%char) then Some (8%nat, ds)
              else if bool_decide (x = "b"%char) || bool_decide (x = "B"%char) then Some (2%nat, ds)
              else None
            else None
        | [] => None
        end in
      match radix with
      | Some (base, ds) =>
          match ds, digits_value base ds 0 with
          | _ :: _, Some z => JInt z
          | _, _ => JNaN
          end
      | None =>
          if bool_decide (c = "-"%char) then decimal_literal true l'
          else if bool_decide (c = "+"%char) then decimal_literal false l'
          else decimal_literal false l
      end
  end.

(** [ToNumber] of a string of ASCII characters, before the rounding to a
    double: white space around the literal is dropped, the empty string is 0,
    and what is not a numeric literal is NaN.  A string of digits is its
    value.  [None]: the string has a character that is not ASCII. *)
Definition StringToNumber (s : string) : option jsnum :=
  match parse_digits s 0 with
  | Some n => Some (JInt (Z.of_nat n))
  | None =>
      let l := list_ascii_of_string s in
      if forallb (fun c => (nat_of_ascii c <? 128)%nat) l
      then Some (numeric_literal (trim_ws l))
      else None
  end.

(** [x >= n] for the number [x] that a string converts to and an integer
    [n], as doubles.  An integer is compared as it is.  A quotient
    [m / 10 ^ p] is first rounded to the nearest double (ties to even):
    against [n] from 1 to [2 ^ 52] it rounds up to [n] when it is within half
    the gap between [n] and the double before it, [2 ^ - k] below; against 0
    a negative quotient rounds to -0, which is not below 0, when it is
    within [2 ^ - 1075].  [None]: a quotient against an [n] out of that
    range. *)
Definition num_ge (x : jsnum) (n : Z) : option bool :=
  match x with
  | JInt m => Some (n <=? m)
  | JInf => Some true
  | JNegInf | JNaN => Some false
  | JFrac neg m p =>
      if m =? 0 then Some (n <=? 0)
      else if neg then
        if 0 <? n then Some false
        else if n =? 0 then Some (m * 2 ^ 1075 <=? 10 ^ p)
        else None
      else
        if n <=? 0 then Some true
        else if n <? 2 ^ 52 then
          let e := Z.log2 n in
          let k := if n =? 2 ^ e then 54 - e else 53 - e in
          Some ((n * 2 ^ k - 1) * 10 ^ p <=? m * 2 ^ k)
        else None
  end.

(** ** Raw objects *)

(** [toRawType]: the class name printed by [Object.prototype.toString]. *)
Inductive rawType : Type :=
| TObject
| TArray
| TMap
| TSet
| TWeakMap
| TWeakSet
| TOther.

#[global] Instance rawType_eq_dec : EqDecision rawType.
Proof. solve_decision. Defined.

(** An ordinary object: its class, whether it is extensible, and its own
    properties in insertion order.  An array keeps its elements apart
    ([None] is a hole); its ["length"] is their number.  The own properties
    are data properties, writable and configurable, except the ["length"] of
    an array, which is writable and not configurable. *)
Record robj : Type := mkObj {
  o_type : rawType;
  o_ext : bool;
  o_elems : list (option value);
  o_props : list (Key * value)
}.

Definition obj_isArray (o : robj) : bool := bool_decide (o_type o = TArray).

(** An array index: an integer index below [2 ^ 32 - 1].  The elements of
    an array are its properties under these keys; any other key of an array
    is a property like those of an object. *)
Definition array_index (k : Key) : option nat :=
  match index_of_key k with
  | Some i => if Z.of_nat i <? 2 ^ 32 - 1 then Some i else None
  | None => None
  end.

Fixpoint assoc_get {A} (k : Key) (l : list (Key * A)) : option A :=
  match l with
  | [] => None
  | (k', v) :: l' => if bool_decide (k = k') then Some v else assoc_get k l'
  end.

Fixpoint assoc_set {A} (k : Key) (v : A) (l : list (Key * A)) : list (Key * A) :=
  match l with
  | [] => [(k, v)]
  | (k', v') :: l' =>
      if bool_decide (k = k') then (k, v) :: l' else (k', v') :: assoc_set k v l'
  end.

Fixpoint assoc_del {A} (k : Key) (l : list (Key * A)) : list (Key * A) :=
  match l with
  | [] => []
  | (k', v') :: l' =>
      if bool_decide (k = k') then l' else (k', v') :: assoc_del k l'
  end.

(** The value of the own property [key] of an ordinary object, [undefined]
    when it has none. *)
Definition raw_get (o : robj) (k : Key) : value :=
  if obj_isArray o then
    match array_index k with
    | Some i => match o_elems o !! i with Some (Some v) => v | _ => VUndef end
    | None =>
        if bool_decide (k = LENGTH) then VNum (Z.of_nat (length (o_elems o)))
        else default VUndef (assoc_get k (o_props o))
    end
  else default VUndef (assoc_get k (o_props o)).

(** [hasOwn(target, key)] *)
Definition raw_hasOwn (o : robj) (k : Key) : bool :=
  if obj_isArray o then
    match array_index k with
    | Some i => match o_elems o !! i with Some (Some _) => true | _ => false end
    | None =>
        bool_decide (k = LENGTH)
        || match assoc_get k (o_props o) with Some _ => true | None => false end
    end
  else match assoc_get k (o_props o) with Some _ => true | None => false end.

(** ** The built-in prototypes *)

(** The objects of the model are made by literals and by the constructors of
    their class, and nothing replaces or extends a prototype: an object
    inherits from the built-in prototype of its class and, through it, from
    [Object.prototype].  Of a prototype the engine observes which keys it
    has; the values (built-in functions, and the prototype itself under
    ["__proto__"]) are not modelled. *)

(** The keys of [Object.prototype]. *)
Definition object_prototype_keys : list string :=
  ["constructor"; "hasOwnProperty"; "isPrototypeOf"; "propertyIsEnumerable";
   "toLocaleString"; "toString"; "valueOf"; "__proto__";
   "__defineGetter__"; "__defineSetter__"; "__lookupGetter__"; "__lookupSetter__"]%string.

(** The string keys of [Array.prototype] since ECMAScript 2016 ... *)
Definition array_prototype_keys : list string :=
  ["concat"; "constructor"; "copyWithin"; "entries"; "every"; "fill"; "filter"; "find";
   "findIndex"; "forEach"; "includes"; "indexOf"; "join"; "keys"; "lastIndexOf"; "length";
   "map"; "pop"; "push"; "reduce"; "reduceRight"; "reverse"; "shift"; "slice"; "some";
   "sort"; "splice"; "toLocaleString"; "toString"; "unshift"]%string.

(** ... and those that an engine has or not, depending on its edition. *)
Definition array_prototype_later_keys : list string :=
  ["values"; "flat"; "flatMap"; "at"; "findLast"; "findLastIndex"; "toReversed"; "toSorted";
   "toSpliced"; "with"]%string.

(** Whether the prototype chain of an object has the key.  No prototype has
    one of the markers of the engine, or a symbol made by user code or by the
    engine.  [None]: the model does not say (a key of a later edition, a
    well-known symbol on an array, the prototype of a collection or of an
    object of another class). *)
Definition proto_has (o : robj) (k : Key) : option bool :=
  if bool_decide (k ∈ flag_keys) then Some false
  else
    match k with
    | KStr s =>
        if bool_decide (s ∈ object_prototype_keys) then Some true
        else
          match o_type o with
          | TObject => Some false
          | TArray =>
              if bool_decide (s ∈ array_prototype_keys) then Some true
              else if bool_decide (s ∈ array_prototype_later_keys) then None
              else Some false
          | _ => None
          end
    | KSym (SymBuiltin _) =>
        match o_type o with TObject => Some false | _ => None end
    | KSym _ => Some false
    end.

(** [Reflect.has(target, key)] on an ordinary object. *)
Definition raw_has (o : robj) (k : Key) : option bool :=
  if raw_hasOwn o k then Some true else proto_has o k.

(** [target[key]] on an ordinary object: the own property, or [undefined]
    when the key is nowhere on the prototype chain. *)
Definition raw_read (o : robj) (k : Key) : option value :=
  if raw_hasOwn o k || bool_decide (proto_has o k = Some false)
  then Some (raw_get o k) else None.

Definition with_elems (o : robj) (l : list (option value)) : robj :=
  mkObj (o_type o) (o_ext o) l (o_props o).
Definition with_props (o : robj) (l : list (Key * value)) : robj :=
  mkObj (o_type o) (o_ext o) (o_elems o) l.

(** Resize the elements of an array to [n] entries, filling with holes. *)
Definition resize_elems (n : nat) (l : list (option value)) : list (option value) :=
  take n l ++ replicate (n - length l) None.

(** The outcome of [Reflect.set] on an ordinary object: the updated object
    and [true], the object unchanged and [false] when a new property cannot
    be added, or a RangeError for an invalid length. *)
Inductive set_outcome : Type :=
| SetDone (o : robj) (ok : bool)
| SetRangeError
| SetUnmodelled.

(** The assignment to an own data property, or the creation of one, which
    an object that is not extensible refuses.  A new element of an array
    fills a hole, or lengthens the array.  An assignment to the ["length"]
    of an array cuts the elements or adds holes. *)
Definition raw_assign (o : robj) (k : Key) (v : value) : set_outcome :=
  if obj_isArray o then
    match array_index k with
    | Some i =>
        match o_elems o !! i with
        | Some (Some _) => SetDone (with_elems o (<[i := Some v]> (o_elems o))) true
        | _ =>
            if o_ext o
            then SetDone (with_elems o
                   (<[i := Some v]> (if (i <? length (o_elems o))%nat then o_elems o
                                     else resize_elems (S i) (o_elems o)))) true
            else SetDone o false
        end
    | None =>
        if bool_decide (k = LENGTH) then
          match v with
          | VNum n =>
              if (0 <=? n) && (n <? 2 ^ 32)
              then SetDone (with_elems o (resize_elems (Z.to_nat n) (o_elems o))) true
              else SetRangeError
          | VNaN | VUndef => SetRangeError
          | _ => SetUnmodelled
          end
        else
          match assoc_get k (o_props o) with
          | Some _ => SetDone (with_props o (assoc_set k v (o_props o))) true
          | None =>
              if o_ext o then SetDone (with_props o (assoc_set k v (o_props o))) true
              else SetDone o false
          end
    end
  else
    match assoc_get k (o_props o) with
    | Some _ => SetDone (with_props o (assoc_set k v (o_props o))) true
    | None =>
        if o_ext o then SetDone (with_props o (assoc_set k v (o_props o))) true
        else SetDone o false
    end.

(** [Reflect.set(target, key, value)] on an ordinary object.  A key that
    the object does not have is looked up on the prototype chain first.  The
    built-in methods are writable data properties: the assignment then makes
    an own property, as for a key that is nowhere.  ["__proto__"] is an
    accessor of [Object.prototype]: its setter ignores a value that is
    neither an object nor null, and otherwise replaces the prototype, which
    the model does not follow. *)
Definition raw_set (o : robj) (k : Key) (v : value) : set_outcome :=
  if raw_hasOwn o k then raw_assign o k v
  else if bool_decide (k = KStr "__proto__") then
    match v with
    | VObj _ | VNull | VFun _ => SetUnmodelled
    | _ => SetDone o true
    end
  else
    match proto_has o k with
    | Some _ => raw_assign o k v
    | None => if obj_isArray o && negb (isSymbol k) then raw_assign o k v else SetUnmodelled
    end.

(** [Reflect.deleteProperty] on an ordinary object: the ["length"] of an
    array is not configurable; deleting an element leaves a hole. *)
Definition raw_delete (o : robj) (k : Key) : robj * bool :=
  if obj_isArray o then
    match array_index k with
    | Some i =>
        if (i <? length (o_elems o))%nat
        then (with_elems o (<[i := None]> (o_elems o)), true)
        else (o, true)
    | None =>
        if bool_decide (k = LENGTH) then (o, false)
        else (with_props o (assoc_del k (o_props o)), true)
    end
  else (with_props o (assoc_del k (o_props o)), true).

(** ** User code *)

Inductive mode : Type :=
| MReactive
| MShallowReactive
| MReadonly
| MShallowReadonly.

#[global] Instance mode_eq_dec : EqDecision mode.
Proof. solve_decision. Defined.

Definition mode_isReadonly (m : mode) : bool :=
  match m with MReadonly | MShallowReadonly => true | _ => false end.
Definition mode_shallow (m : mode) : bool :=
  match m with MShallowReactive | MShallowReadonly => true | _ => false end.

(** The first argument of [effect]: a user function, or a runner returned by
    an earlier call (a function object with an [effect] property). *)
Inductive fnarg (P : Type) : Type :=
| FnUser (body : P)
| FnRunner (r : eid).
Arguments FnUser {P} body.
Arguments FnRunner {P} r.

(** [ReactiveEffectOptions], without the dev-only hooks and the scope. *)
Record options (P : Type) : Type := mkOptions {
  opt_lazy : bool;
  opt_scheduler : option P;
  opt_allowRecurse : bool;
  opt_onStop : option P
}.
Arguments mkOptions {P} _ _ _ _.
Arguments opt_lazy {P} _.
Arguments opt_scheduler {P} _.
Arguments opt_allowRecurse {P} _.
Arguments opt_onStop {P} _.

(** A piece of user code: each node is one call into the engine (or one
    operation on an object, which goes through a proxy trap when the object
    is a proxy), followed by what the code does with the result. *)
#[local] Unset Elimination Schemes.
Inductive prog : Type :=
| Done (v : value)
| Raise (x : value)
| NewObj (o : robj) (k : value -> prog)
| NewRef (v : value) (k : value -> prog)
| Get (o : value) (key : Key) (k : value -> prog)
| SetProp (o : value) (key : Key) (v : value) (k : bool -> prog)
| Delete (o : value) (key : Key) (k : bool -> prog)
| Has (o : value) (key : Key) (k : bool -> prog)
| OwnKeys (o : value) (k : prog)
| Wrap (m : mode) (v : value) (k : value -> prog)
| ToRaw (v : value) (k : value -> prog)
| Effect (fn : fnarg prog) (opts : option (options prog)) (k : eid -> prog)
| CallRunner (r : eid) (k : value -> prog)
| Stop (r : eid) (k : prog)
| PauseTracking (k : prog)
| EnableTracking (k : prog)
| ResetTracking (k : prog).
#[local] Set Elimination Schemes.

(** ** The engine's data *)

(** [class ReactiveEffect]; [e_lazy]... the options are copied onto the
    instance by [extend(_effect, options)]. *)
Record ReactiveEffect : Type := mkEffect {
  e_fn : prog;
  e_scheduler : option prog;
  e_active : bool;
  e_deps : list depid;
  e_allowRecurse : bool;
  e_onStop : option prog
}.

(** A [Dep]: a [Set] of effects (in insertion order) with the two marker
    words [w] and [n]. *)
Record Dep : Type := mkDep {
  d_subs : list eid;
  d_w : Z;
  d_n : Z
}.

(** What an address of the heap holds: an ordinary object, a proxy made by
    [createReactiveObject] (its target, its mode, and whether it got the
    collection handlers), or a Ref. *)
Inductive cell : Type :=
| CRaw (o : robj)
| CProxy (target : addr) (m : mode) (coll : bool)
| CRef (inner : value) (dep : option depid).

Inductive TriggerOpTypes : Type :=
| SET
| ADD
| DELETE
| CLEAR.

#[global] Instance TriggerOpTypes_eq_dec : EqDecision TriggerOpTypes.
Proof. solve_decision. Defined.

(** The trace of what the engine did, most recent first.  It is not part of
    the program; it records the calls the properties speak about. *)
Inductive event : Type :=
| EvFn (e : eid) (active : bool)
| EvScheduler (e : eid)
| EvTrack (target : addr) (key : Key)
| EvTrigger (target : addr) (ty : TriggerOpTypes) (key : option Key).

#[global] Instance event_eq_dec : EqDecision event.
Proof. solve_decision. Defined.

(** The module-level variables of effect.ts and reactive.ts, the heap of
    objects, and the stores of Deps and effects.  [effectStack] has its top
    first. *)
Record state : Type := mkState {
  heap : gmap addr cell;
  reactiveMap : gmap addr addr;
  shallowReactiveMap : gmap addr addr;
  readonlyMap : gmap addr addr;
  shallowReadonlyMap : gmap addr addr;
  targetMap : gmap addr (list (Key * depid));
  deps : gmap depid Dep;
  effects : gmap eid ReactiveEffect;
  effectStack : list eid;
  activeEffect : option eid;
  effectTrackDepth : nat;
  trackOpBit : Z;
  shouldTrack : bool;
  trackStack : list bool;
  log : list event
}.

Definition init : state :=
  mkState ∅ ∅ ∅ ∅ ∅ ∅ ∅ ∅ [] None 0 1 true [] [].

Definition set_heap (f : gmap addr cell -> gmap addr cell) (st : state) : state :=
  mkState (f (heap st)) (reactiveMap st) (shallowReactiveMap st) (readonlyMap st)
    (shallowReadonlyMap st) (targetMap st) (deps st) (effects st) (effectStack st)
    (activeEffect st) (effectTrackDepth st) (trackOpBit st) (shouldTrack st)
    (trackStack st) (log st).

Definition proxyMap (m : mode) (st : state) : gmap addr addr :=
  match m with
  | MReactive => reactiveMap st
  | MShallowReactive => shallowReactiveMap st
  | MReadonly => readonlyMap st
  | MShallowReadonly => shallowReadonlyMap st
  end.

Definition proxyMap_set (m : mode) (t p : addr) (st : state) : state :=
  mkState (heap st)
    (if bool_decide (m = MReactive) then <[t := p]> (reactiveMap st) else reactiveMap st)
    (if bool_decide (m = MShallowReactive) then <[t := p]> (shallowReactiveMap st)
     else shallowReactiveMap st)
    (if bool_decide (m = MReadonly) then <[t := p]> (readonlyMap st) else readonlyMap st)
    (if bool_decide (m = MShallowReadonly) then <[t := p]> (shallowReadonlyMap st)
     else shallowReadonlyMap st)
    (targetMap st) (deps st) (effects st) (effectStack st)
    (activeEffect st) (effectTrackDepth st) (trackOpBit st) (shouldTrack st)
    (trackStack st) (log st).

Definition set_targetMap (f : gmap addr (list (Key * depid)) -> gmap addr (list (Key * depid)))
    (st : state) : state :=
  mkState (heap st) (reactiveMap st) (shallowReactiveMap st) (readonlyMap st)
    (shallowReadonlyMap st) (f (targetMap st)) (deps st) (effects st) (effectStack st)
    (activeEffect st) (effectTrackDepth st) (trackOpBit st) (shouldTrack st)
    (trackStack st) (log st).

Definition set_deps (f : gmap depid Dep -> gmap depid Dep) (st : state) : state :=
  mkState (heap st) (reactiveMap st) (shallowReactiveMap st) (readonlyMap st)
    (shallowReadonlyMap st) (targetMap st) (f (deps st)) (effects st) (effectStack st)
    (activeEffect st) (effectTrackDepth st) (trackOpBit st) (shouldTrack st)
    (trackStack st) (log st).

Definition set_effects (f : gmap eid ReactiveEffect -> gmap eid ReactiveEffect)
    (st : state) : state :=
  mkState (heap st) (reactiveMap st) (shallowReactiveMap st) (readonlyMap st)
    (shallowReadonlyMap st) (targetMap st) (deps st) (f (effects st)) (effectStack st)
    (activeEffect st) (effectTrackDepth st) (trackOpBit st) (shouldTrack st)
    (trackStack st) (log st).

(** The stack, the active effect, the depth and the marker bit change
    together in [run]. *)
Definition set_stack (stk : list eid) (act : option eid) (depth : nat) (bit : Z)
    (st : state) : state :=
  mkState (heap st) (reactiveMap st) (shallowReactiveMap st) (readonlyMap st)
    (shallowReadonlyMap st) (targetMap st) (deps st) (effects st) stk
    act depth bit (shouldTrack st) (trackStack st) (log st).

Definition set_tracking (b : bool) (stk : list bool) (st : state) : state :=
  mkState (heap st) (reactiveMap st) (shallowReactiveMap st) (readonlyMap st)
    (shallowReadonlyMap st) (targetMap st) (deps st) (effects st) (effectStack st)
    (activeEffect st) (effectTrackDepth st) (trackOpBit st) b stk (log st).

Definition add_log (ev : event) (st : state) : state :=
  mkState (heap st) (reactiveMap st) (shallowReactiveMap st) (readonlyMap st)
    (shallowReadonlyMap st) (targetMap st) (deps st) (effects st) (effectStack st)
    (activeEffect st) (effectTrackDepth st) (trackOpBit st) (shouldTrack st)
    (trackStack st) (ev :: log st).

(** A fresh address: one more than every address in use. *)
Definition fresh {A} (m : gmap nat A) : nat :=
  map_fold (fun k _ acc => Nat.max (S k) acc) 0%nat m.

(** ** Results *)

(** A call returns, throws, or is cut off: by the fuel of the interpreter, or
    because it left the modelled part of the language. *)
Inductive abort : Type :=
| OutOfFuel
| Unmodelled.

Inductive result (A : Type) : Type :=
| Ok (a : A) (st : state)
| Exn (x : value) (st : state)
| Abort (w : abort).
Arguments Ok {A} a st.
Arguments Exn {A} x st.
Arguments Abort {A} w.

Definition M (A : Type) : Type := state -> result A.

Definition ret {A} (a : A) : M A := fun st => Ok a st.
Definition throw {A} (x : value) : M A := fun st => Exn x st.
Definition abort_with {A} (w : abort) : M A := fun _ => Abort w.

Definition bind {A B} (c : M A) (k : A -> M B) : M B :=
  fun st =>
    match c st with
    | Ok a st' => k a st'
    | Exn x st' => Exn x st'
    | Abort w => Abort w
    end.

Notation "'let*' x ':=' c 'in' k" := (bind c (fun x => k))
  (at level 10, x name, c at level 100, k at level 200).
Notation "c ';;' k" := (bind c (fun _ => k))
  (at level 100, k at level 200, right associativity).

Definition gets {A} (f : state -> A) : M A := fun st => Ok (f st) st.
Definition modify (f : state -> state) : M unit := fun st => Ok tt (f st).

(** [try { c } finally { f }] where the finalizer cannot itself throw. *)
Definition try_finally {A} (c : M A) (f : state -> state) : M A :=
  fun st =>
    match c st with
    | Ok a st' => Ok a (f st')
    | Exn x st' => Exn x (f st')
    | Abort w => Abort w
    end.

Definition TypeError : value := VStr "TypeError".
Definition RangeError : value := VStr "RangeError".

(** ** Tracking control (effect.ts) *)

Definition maxMarkerBits : nat := 30.

(** [1 << d] on 32-bit integers: the shift count is taken modulo 32 and the
    result is read as a signed word. *)
Definition shl1 (d : nat) : Z :=
  let r := 2 ^ (Z.of_nat d mod 32) in
  if r <? 2 ^ 31 then r else r - 2 ^ 32.

Definition pauseTracking : M unit :=
  modify (fun st => set_tracking false (trackStack st ++ [shouldTrack st]) st).

Definition enableTracking : M unit :=
  modify (fun st => set_tracking true (trackStack st ++ [shouldTrack st]) st).

(** [trackStack.pop()]: the last element, [undefined] on an empty stack. *)
Definition resetTracking_st (st : state) : state :=
  match last (trackStack st) with
  | Some b => set_tracking b (removelast (trackStack st)) st
  | None => set_tracking true [] st
  end.

Definition resetTracking : M unit := modify resetTracking_st.

Definition isTracking (st : state) : bool :=
  shouldTrack st && bool_decide (is_Some (activeEffect st)).

(** ** Deps and their markers *)

(** [Set.prototype.add] and [delete] on the subscribers. *)
Definition subs_add (e : eid) (l : list eid) : list eid :=
  if bool_decide (e ∈ l) then l else l ++ [e].
Definition subs_delete (e : eid) (l : list eid) : list eid :=
  filter (fun x => x ≠ e) l.

Definition dedup_subs (l : list eid) : list eid :=
  foldl (fun acc e => subs_add e acc) [] l.

(** Modelled from the spec: dep.ts is not part of the sources.  "A Dep is a
    set of subscribing effects plus tracking bitflags": [createDep] makes the
    set of the given effects with both words zero. *)
Definition createDep (es : list eid) : M depid :=
  fun st =>
    let di := fresh (deps st) in
    Ok di (set_deps (insert di (mkDep (dedup_subs es) 0 0)) st).

(** Modelled from the spec: dep.ts is not part of the sources.  [w] has the
    bit of a level when the Dep "was tracked before this run" at that
    level. *)
Definition wasTracked (d : Dep) (bit : Z) : bool := 0 <? Z.land (d_w d) bit.

(** Modelled from the spec: dep.ts is not part of the sources.  [n] has the
    bit of a level when the Dep was "newly tracked" in the run at that
    level. *)
Definition newTracked (d : Dep) (bit : Z) : bool := 0 <? Z.land (d_n d) bit.

Definition dep_update (di : depid) (f : Dep -> Dep) (st : state) : state :=
  set_deps (fun ds => match ds !! di with Some d => <[di := f d]> ds | None => ds end) st.

Definition effect_update (e : eid) (f : ReactiveEffect -> ReactiveEffect) (st : state) : state :=
  set_effects (fun es => match es !! e with Some x => <[e := f x]> es | None => es end) st.

Definition with_deps (l : list depid) (x : ReactiveEffect) : ReactiveEffect :=
  mkEffect (e_fn x) (e_scheduler x) (e_active x) l (e_allowRecurse x) (e_onStop x).
Definition with_active (b : bool) (x : ReactiveEffect) : ReactiveEffect :=
  mkEffect (e_fn x) (e_scheduler x) b (e_deps x) (e_allowRecurse x) (e_onStop x).

Definition effect_deps (e : eid) (st : state) : list depid :=
  match effects st !! e with Some x => e_deps x | None => [] end.

(** Modelled from the spec: dep.ts is not part of the sources.  Step 5 of
    [run]: "for each dep in e.deps, set dep.w |= trackBit". *)
Definition initDepMarkers (e : eid) (st : state) : state :=
  foldl (fun s di => dep_update di (fun d => mkDep (d_subs d) (Z.lor (d_w d) (trackOpBit s)) (d_n d)) s)
    st (effect_deps e st).

(** Modelled from the spec: dep.ts is not part of the sources.  Step 7 of
    [run]: "walk e.deps in place, compacting: drop any dep where w bit is set
    but n bit is not (unsubscribe e from it); clear both bits for
    survivors".  [finalize_walk] returns the deps that are kept. *)
Fixpoint finalize_walk (e : eid) (l : list depid) (st : state) : list depid * state :=
  match l with
  | [] => ([], st)
  | di :: l' =>
      match deps st !! di with
      | Some d =>
          if wasTracked d (trackOpBit st) && negb (newTracked d (trackOpBit st))
          then finalize_walk e l'
                 (dep_update di (fun d => mkDep (subs_delete e (d_subs d)) (d_w d) (d_n d)) st)
          else
            let bit := trackOpBit st in
            let '(kept, st') :=
              finalize_walk e l'
                (dep_update di (fun d => mkDep (d_subs d) (Z.land (d_w d) (Z.lnot bit))
                                           (Z.land (d_n d) (Z.lnot bit))) st) in
            (di :: kept, st')
      | None => finalize_walk e l' st
      end
  end.

(** Modelled from the spec: dep.ts is not part of the sources.  Step 7 of
    [run], for the effect [e]: the deps that are kept become [e.deps]. *)
Definition finalizeDepMarkers (e : eid) (st : state) : state :=
  let '(kept, st') := finalize_walk e (effect_deps e st) st in
  effect_update e (with_deps kept) st'.

(** [cleanupEffect]: remove the effect from each of its deps and empty its
    list. *)
Definition cleanupEffect (e : eid) (st : state) : state :=
  effect_update e (with_deps [])
    (foldl (fun s di => dep_update di (fun d => mkDep (subs_delete e (d_subs d)) (d_w d) (d_n d)) s)
       st (effect_deps e st)).

(** [trackEffects(dep)].  It is only called under [isTracking()], so there
    is an active effect. *)
Definition trackEffects (di : depid) : M unit :=
  fun st =>
    match deps st !! di, activeEffect st with
    | Some d, Some e =>
        let bit := trackOpBit st in
        let '(st1, should) :=
          if (effectTrackDepth st <=? maxMarkerBits)%nat then
            if negb (newTracked d bit)
            then (dep_update di (fun d => mkDep (d_subs d) (d_w d) (Z.lor (d_n d) bit)) st,
                  negb (wasTracked d bit))
            else (st, false)
          else (st, negb (bool_decide (e ∈ d_subs d))) in
        if should
        then Ok tt (effect_update e (fun x => with_deps (e_deps x ++ [di]) x)
                      (dep_update di (fun d => mkDep (subs_add e (d_subs d)) (d_w d) (d_n d)) st1))
        else Ok tt st1
    | _, _ => Abort Unmodelled
    end.

Definition depsMap_of (t : addr) (st : state) : list (Key * depid) :=
  default [] (targetMap st !! t).

(** [track(target, type, key)] *)
Definition track (t : addr) (key : Key) : M unit :=
  fun st =>
    if negb (isTracking st) then Ok tt st
    else
      let st := add_log (EvTrack t key) st in
      match assoc_get key (depsMap_of t st) with
      | Some di => trackEffects di st
      | None =>
          (let* di := createDep [] in
           modify (set_targetMap (fun tm => <[t := depsMap_of t st ++ [(key, di)]]> tm));;
           trackEffects di) st
      end.

(** Modelled from the spec: ref.ts is not part of the sources.  "Reading
    value calls track on its dep": the Ref's own Dep is made on first use. *)
Definition trackRefValue (a : addr) : M unit :=
  fun st =>
    if negb (isTracking st) then Ok tt st
    else
      match heap st !! a with
      | Some (CRef inner (Some di)) => trackEffects di st
      | Some (CRef inner None) =>
          (let* di := createDep [] in
           modify (set_heap (insert a (CRef inner (Some di))));;
           trackEffects di) st
      | _ => Abort Unmodelled
      end.

(** ** Reading properties and making proxies *)

(** The ordinary object at the end of a chain of proxies: what
    [Array.isArray], [Object.isExtensible] and [toRawType] look at. *)
Fixpoint underlying (n : nat) (st : state) (a : addr) : option robj :=
  match n with
  | O => None
  | S n' =>
      match heap st !! a with
      | Some (CRaw o) => Some o
      | Some (CProxy t _ _) => underlying n' st t
      | _ => None
      end
  end.

Inductive TargetType : Type :=
| INVALID
| COMMON
| COLLECTION.

Definition targetTypeMap (t : rawType) : TargetType :=
  match t with
  | TObject | TArray => COMMON
  | TMap | TSet | TWeakMap | TWeakSet => COLLECTION
  | TOther => INVALID
  end.

Definition alloc (c : cell) : M addr :=
  fun st => let a := fresh (heap st) in Ok a (set_heap (insert a c) st).

(** The mode whose handlers [createGetter(isReadonly, shallow)] belongs
    to, and whose proxy map it consults. *)
Definition mode_of (isReadonly shallow : bool) : mode :=
  if isReadonly then (if shallow then MShallowReadonly else MReadonly)
  else (if shallow then MShallowReactive else MReactive).

(** The [get] of [createGetter(isReadonly, shallow)].  [get] is the read of
    a property of any value and [wrap] the constructors of reactive.ts, both
    defined below with it. *)
Definition createGetter (n : nat) (get : value -> Key -> value -> M value)
    (wrap : mode -> value -> M value) (isReadonly shallow : bool)
    (target : addr) (key : Key) (receiver : value) : M value :=
  fun st =>
    if bool_decide (key = IS_REACTIVE) then Ok (VBool (negb isReadonly)) st
    else if bool_decide (key = IS_READONLY) then Ok (VBool isReadonly) st
    else if bool_decide (key = RAW)
            && bool_decide (Some receiver
                            = VObj <$> proxyMap (mode_of isReadonly shallow) st !! target)
    then Ok (VObj target) st
    else
      match underlying n st target with
      | None => Abort Unmodelled
      | Some u =>
          let targetIsArray := obj_isArray u in
          if negb isReadonly && targetIsArray && arrayInstrumentations_hasOwn key
          then Ok (match key with KStr s => VFun s | _ => VUndef end) st
          else
            (let* res := get (VObj target) key receiver in
             if (if isSymbol key then builtInSymbols_has key else isNonTrackableKeys key)
             then ret res
             else
               (if negb isReadonly then track target key else ret tt);;
               if shallow then ret res
               else
                 let* isref := (if truthy res then get res IS_REF res else ret VUndef) in
                 if bool_decide (isref = VBool true) then
                   if negb targetIsArray || negb (isIntegerKey key)
                   then get res VALUE res
                   else ret res
                 else if isObject res then
                   wrap (if isReadonly then MReadonly else MReactive) res
                 else ret res) st
      end.

(** Modelled from the spec: collectionHandlers.ts is not part of the
    sources.  "The proxy responds to these synthetic property reads without
    consulting the Target: IS_REACTIVE (true iff not readonly), IS_READONLY,
    RAW (returns the underlying Target, but only when the receiver equals
    the proxy stored for this mode)".  No other read of a proxy with the
    collection handlers is modelled. *)
Definition collection_get (m : mode) (target : addr) (key : Key) (receiver : value) : M value :=
  fun st =>
    if bool_decide (key = IS_REACTIVE) then Ok (VBool (negb (mode_isReadonly m))) st
    else if bool_decide (key = IS_READONLY) then Ok (VBool (mode_isReadonly m)) st
    else if bool_decide (key = RAW)
            && bool_decide (Some receiver = VObj <$> proxyMap m st !! target)
    then Ok (VObj target) st
    else Abort Unmodelled.

(** Modelled from the spec: ref.ts is not part of the sources.  A Ref is "a
    single-slot cell { value, dep }" that [isRef] recognises by its
    [__v_isRef] mark; "reading value calls track on its dep".  It has none
    of the markers of a proxy. *)
Definition ref_get (a : addr) (inner : value) (key : Key) : M value :=
  if bool_decide (key = VALUE) then trackRefValue a;; ret inner
  else if bool_decide (key = IS_REF) then ret (VBool true)
  else if bool_decide (key ∈ flag_keys) then ret VUndef
  else abort_with Unmodelled.

(** [o[key]] with receiver [recv], for any value [o]: [raw_read] on an
    ordinary object, the [get] trap on a proxy, [ref_get] on a Ref; a
    primitive has none of the marker properties (its other properties are
    not modelled).  With it, [createReactiveObject] and the four
    constructors of reactive.ts as [wrap]. *)
Fixpoint js_get (n : nat) (o : value) (key : Key) (recv : value) : M value :=
  match n with
  | O => abort_with OutOfFuel
  | S n' =>
      match o with
      | VObj a => fun st =>
          match heap st !! a with
          | Some (CRaw ob) =>
              match raw_read ob key with
              | Some v => Ok v st
              | None => Abort Unmodelled
              end
          | Some (CRef inner _) => ref_get a inner key st
          | Some (CProxy t m coll) =>
              if coll then collection_get m t key recv st
              else createGetter n' (js_get n') (wrap n')
                     (mode_isReadonly m) (mode_shallow m) t key recv st
          | None => Abort Unmodelled
          end
      | VUndef | VNull => throw TypeError
      | _ => if bool_decide (key ∈ flag_keys) then ret VUndef else abort_with Unmodelled
      end
  end

with createReactiveObject (n : nat) (target : value) (m : mode) : M value :=
  match n with
  | O => abort_with OutOfFuel
  | S n' =>
      match target with
      | VObj a =>
          let* raw := js_get n' target RAW target in
          let* already :=
            (if truthy raw then
               if mode_isReadonly m
               then (let* r := js_get n' target IS_REACTIVE target in ret (negb (truthy r)))
               else ret true
             else ret false) in
          if already : bool then ret target
          else fun st =>
            match proxyMap m st !! a with
            | Some p => Ok (VObj p) st
            | None =>
                (let* skip := js_get n' target SKIP target in
                 fun st =>
                   match underlying n' st a with
                   | None => Abort Unmodelled
                   | Some u =>
                       let targetType :=
                         if truthy skip || negb (o_ext u) then INVALID
                         else targetTypeMap (o_type u) in
                       match targetType with
                       | INVALID => Ok target st
                       | _ =>
                           (let* p := alloc (CProxy a m
                                               (match targetType with COLLECTION => true | _ => false end)) in
                            modify (proxyMap_set m a p);;
                            ret (VObj p)) st
                       end
                   end) st
            end
      | _ => ret target
      end
  end

with wrap (n : nat) (m : mode) (target : value) : M value :=
  match n with
  | O => abort_with OutOfFuel
  | S n' =>
      match m with
      | MReactive =>
          let* ro := (if truthy target then js_get n' target IS_READONLY target
                      else ret VUndef) in
          if truthy ro then ret target
          else createReactiveObject n' target MReactive
      | _ => createReactiveObject n' target m
      end
  end.

Definition reactive (n : nat) : value -> M value := wrap n MReactive.
Definition shallowReactive (n : nat) : value -> M value := wrap n MShallowReactive.
Definition readonly (n : nat) : value -> M value := wrap n MReadonly.
Definition shallowReadonly (n : nat) : value -> M value := wrap n MShallowReadonly.

(** [isReadonly(value)] *)
Definition isReadonly (n : nat) (v : value) : M bool :=
  if truthy v then (let* r := js_get n v IS_READONLY v in ret (truthy r)) else ret false.

(** Modelled from the spec: ref.ts is not part of the sources.  [isRef(v)]
    recognises a Ref by its [__v_isRef] mark, the key that the getter never
    tracks. *)
Definition isRef (n : nat) (v : value) : M bool :=
  if truthy v then (let* r := js_get n v IS_REF v in ret (bool_decide (r = VBool true)))
  else ret false.

(** [toRaw]: follow [__v_raw] as long as it is truthy. *)
Fixpoint toRaw (n : nat) (observed : value) : M value :=
  match n with
  | O => abort_with OutOfFuel
  | S n' =>
      let* raw := (if truthy observed then js_get n' observed RAW observed
                   else ret observed) in
      if truthy raw then toRaw n' raw else ret observed
  end.

(** [isArray(target)] for a target in the heap. *)
Definition isArray (n : nat) (t : addr) (st : state) : bool :=
  match underlying n st t with Some u => obj_isArray u | None => false end.

(** [isReactive(value)]: a readonly proxy is reactive when what it wraps
    is. *)
Fixpoint isReactive (n : nat) (v : value) : M bool :=
  match n with
  | O => abort_with OutOfFuel
  | S n' =>
      let* ro := isReadonly n' v in
      if ro : bool then (let* raw := js_get n' v RAW v in isReactive n' raw)
      else if truthy v then (let* r := js_get n' v IS_REACTIVE v in ret (truthy r))
      else ret false
  end.

(** [isProxy(value)] *)
Definition isProxy (n : nat) (v : value) : M bool :=
  let* r := isReactive n v in
  if r : bool then ret true else isReadonly n v.

(** Modelled from the spec: [def] of @vue/shared is not part of the
    sources; "markRaw(v) (sets skip flag in-place)".  [markRaw] defines the
    property [__v_skip] of an ordinary object as [true], which an object
    that is not extensible only allows when it has the property already; the
    attributes of the property are not modelled. *)
Definition markRaw (v : value) : M value :=
  match v with
  | VObj a => fun st =>
      match heap st !! a with
      | Some (CRaw o) =>
          if o_ext o || bool_decide (is_Some (assoc_get SKIP (o_props o)))
          then Ok v (set_heap (insert a (CRaw (with_props o (assoc_set SKIP (VBool true)
                                                               (o_props o))))) st)
          else Exn TypeError st
      | _ => Abort Unmodelled
      end
  | _ => throw TypeError
  end.

(** ** Running effects (effect.ts) *)

(** The engine calls back into user code: the function of an effect, its
    scheduler, its [onStop].  [rec] runs a piece of user code; the
    interpreter [exec] below ties the knot. *)
Section Engine.

Variable rec : prog -> M value.

(** The [try] block of [run] up to the call of [fn], and its [finally]
    block. *)
Definition run_enter (e : eid) : M unit :=
  modify (fun st => set_stack (e :: effectStack st) (Some e)
                      (effectTrackDepth st) (trackOpBit st) st);;
  enableTracking;;
  modify (fun st => set_stack (effectStack st) (activeEffect st)
                      (S (effectTrackDepth st)) (shl1 (S (effectTrackDepth st))) st);;
  modify (fun st => if (effectTrackDepth st <=? maxMarkerBits)%nat
                    then initDepMarkers e st else cleanupEffect e st).

Definition run_finally (e : eid) (st : state) : state :=
  let st := if (effectTrackDepth st <=? maxMarkerBits)%nat
            then finalizeDepMarkers e st else st in
  let st := set_stack (effectStack st) (activeEffect st)
              (pred (effectTrackDepth st)) (shl1 (pred (effectTrackDepth st))) st in
  let st := resetTracking_st st in
  let stk := tail (effectStack st) in
  set_stack stk (head stk) (effectTrackDepth st) (trackOpBit st) st.

(** [ReactiveEffect.prototype.run] *)
Definition run (e : eid) : M value :=
  fun st =>
    match effects st !! e with
    | None => Abort Unmodelled
    | Some x =>
        if negb (e_active x) then (modify (add_log (EvFn e false));; rec (e_fn x)) st
        else if bool_decide (e ∈ effectStack st) then Ok VUndef st
        else
          try_finally
            (run_enter e;; modify (add_log (EvFn e true));; rec (e_fn x))
            (run_finally e) st
    end.

(** [ReactiveEffect.prototype.stop] *)
Definition stop (e : eid) : M unit :=
  fun st =>
    match effects st !! e with
    | None => Abort Unmodelled
    | Some x =>
        if e_active x then
          (modify (cleanupEffect e);;
           (match e_onStop x with Some h => rec h;; ret tt | None => ret tt end);;
           modify (effect_update e (with_active false))) st
        else Ok tt st
    end.

(** [effect(fn, options)]; the runner it returns is known by the identity of
    its effect. *)
Definition effect (fn : fnarg prog) (opts : option (options prog)) : M eid :=
  fun st =>
    match (match fn with
           | FnUser body => Some body
           | FnRunner r => e_fn <$> effects st !! r
           end) with
    | None => Abort Unmodelled
    | Some fn =>
        let _effect :=
          match opts with
          | Some o => mkEffect fn (opt_scheduler o) true [] (opt_allowRecurse o) (opt_onStop o)
          | None => mkEffect fn None true [] false None
          end in
        let e := fresh (effects st) in
        ((modify (set_effects (insert e _effect)));;
         (if match opts with Some o => negb (opt_lazy o) | None => true end
          then run e;; ret tt else ret tt);;
         ret e) st
    end.

(** [triggerEffects(dep)] over the snapshot [[...dep]]. *)
Definition triggerEffect (e : eid) : M unit :=
  fun st =>
    match effects st !! e with
    | None => Abort Unmodelled
    | Some x =>
        if negb (bool_decide (Some e = activeEffect st)) || e_allowRecurse x then
          match e_scheduler x with
          | Some sch => (modify (add_log (EvScheduler e));; rec sch;; ret tt) st
          | None => (run e;; ret tt) st
          end
        else Ok tt st
    end.

Fixpoint triggerEffects (batch : list eid) : M unit :=
  match batch with
  | [] => ret tt
  | e :: rest => triggerEffect e;; triggerEffects rest
  end.

Definition dep_subs (di : depid) (st : state) : list eid :=
  match deps st !! di with Some d => d_subs d | None => [] end.

(** [key >= newValue] in the ["length"] branch of [trigger]: a symbol cannot
    be converted to a number. *)
Definition key_ge (k : Key) (newValue : value) : M bool :=
  match k, newValue with
  | KSym _, _ => throw TypeError
  | KStr s, VNum n =>
      match StringToNumber s with
      | Some x =>
          match num_ge x n with
          | Some b => ret b
          | None => abort_with Unmodelled
          end
      | None => abort_with Unmodelled
      end
  | KStr _, _ => abort_with Unmodelled
  end.

(** The [depsMap.forEach] of the ["length"] branch. *)
Fixpoint length_deps (depsMap : list (Key * depid)) (newValue : value) : M (list (option depid)) :=
  match depsMap with
  | [] => ret []
  | (key, dep) :: rest =>
      let* hit := (if bool_decide (key = LENGTH) then ret true else key_ge key newValue) in
      let* more := length_deps rest newValue in
      ret (if hit : bool then Some dep :: more else more)
  end.

(** [trigger(target, type, key, newValue, oldValue)].  The temporary Dep
    made by [createDep(effects)] is only iterated, so it is not stored. *)
Definition trigger (n : nat) (target : addr) (type : TriggerOpTypes) (key : option Key)
    (newValue : value) : M unit :=
  modify (add_log (EvTrigger target type key));;
  fun st =>
    match targetMap st !! target with
    | None => Ok tt st
    | Some depsMap =>
        let get k := assoc_get k depsMap in
        let tIsArray := isArray n target st in
        let tIsMap := match underlying n st target with
                      | Some u => bool_decide (o_type u = TMap) | None => false end in
        (let* deps :=
           (if bool_decide (type = CLEAR) then ret (map (fun kd => Some (snd kd)) depsMap)
            else if bool_decide (key = Some LENGTH) && tIsArray
            then length_deps depsMap newValue
            else
              ret ((match key with Some k => [get k] | None => [] end)
                   ++ match type with
                      | ADD =>
                          if negb tIsArray
                          then get ITERATE_KEY :: (if tIsMap then [get MAP_KEY_ITERATE_KEY] else [])
                          else if match key with Some k => isIntegerKey k | None => false end
                               then [get LENGTH] else []
                      | DELETE =>
                          if negb tIsArray
                          then get ITERATE_KEY :: (if tIsMap then [get MAP_KEY_ITERATE_KEY] else [])
                          else []
                      | SET => if tIsMap then [get ITERATE_KEY] else []
                      | CLEAR => []
                      end)) in
         fun st =>
           match deps with
           | [d] => match d with
                    | Some di => triggerEffects (dep_subs di st) st
                    | None => Ok tt st
                    end
           | _ => triggerEffects
                    (dedup_subs (concat (map (fun d => match d with
                                                       | Some di => dep_subs di st
                                                       | None => [] end) deps))) st
           end) st
    end.

(** Modelled from the spec: ref.ts is not part of the sources.  "Writing
    value (if changed by identity/NaN-aware comparison) calls trigger on its
    dep"; "object values inside a Ref are stored as reactive proxies". *)
Definition ref_set (n : nat) (a : addr) (nv : value) : M unit :=
  fun st =>
    match heap st !! a with
    | Some (CRef inner d) =>
        if hasChanged nv inner then
          (let* w := (if isObject nv then reactive n nv else ret nv) in
           modify (set_heap (insert a (CRef w d)));;
           match d with
           | Some di => fun st => triggerEffects (dep_subs di st) st
           | None => ret tt
           end) st
        else Ok tt st
    | _ => Abort Unmodelled
    end.

(** Modelled from the spec: ref.ts is not part of the sources.  [ref(v)]
    makes a cell with no Dep yet; "object values inside a Ref are stored as
    reactive proxies". *)
Definition ref (n : nat) (v : value) : M value :=
  let* w := (if isObject v then reactive n v else ret v) in
  let* a := alloc (CRef w None) in
  ret (VObj a).

(** ** The base handlers (baseHandlers.ts) *)

Definition store_raw (t : addr) (o : robj) : M unit :=
  modify (set_heap (insert t (CRaw o))).

(** [Reflect.set(target, key, value, receiver)] on an ordinary target. *)
Definition Reflect_set (t : addr) (key : Key) (v : value) : M bool :=
  fun st =>
    match heap st !! t with
    | Some (CRaw o) =>
        match raw_set o key v with
        | SetDone o' ok => Ok ok (set_heap (insert t (CRaw o')) st)
        | SetRangeError => Exn RangeError st
        | SetUnmodelled => Abort Unmodelled
        end
    | _ => Abort Unmodelled
    end.

(** [hadKey] in [set]: for an array and an integer key,
    [Number(key) < target.length]; [hasOwn(target, key)] otherwise. *)
Definition hadKey_of (o : robj) (key : Key) : bool :=
  if obj_isArray o && isIntegerKey key
  then match index_of_key key with
       | Some i => (i <? length (o_elems o))%nat
       | None => false
       end
  else raw_hasOwn o key.

(** The [set] of [createSetter(shallow)].  The target of a mutable proxy is
    an ordinary object. *)
Definition createSetter (n : nat) (shallow : bool) (target : addr) (key : Key) (val : value)
    (receiver : value) : M bool :=
  let* oldValue := js_get n (VObj target) key (VObj target) in
  let* ro := (if shallow then ret true else isReadonly n val) in
  let* early :=
    (if negb shallow && negb ro then
       let* val := toRaw n val in
       let* oldValue := toRaw n oldValue in
       let* viaRef :=
         (fun st =>
            if isArray n target st then Ok false st
            else (let* oldIsRef := isRef n oldValue in
                  if oldIsRef : bool
                  then (let* newIsRef := isRef n val in ret (negb newIsRef))
                  else ret false) st) in
       if viaRef : bool then
         match oldValue with
         | VObj r => ref_set n r val;; ret (Some true, val, oldValue)
         | _ => abort_with Unmodelled
         end
       else ret (None, val, oldValue)
     else ret (None, val, oldValue)) in
  match early with
  | (Some b, _, _) => ret b
  | (None, val, oldValue) =>
      let* hadKey :=
        (fun st =>
           match heap st !! target with
           | Some (CRaw o) => Ok (hadKey_of o key) st
           | _ => Abort Unmodelled
           end) in
      let* result := Reflect_set target key val in
      let* rawReceiver := toRaw n receiver in
      (if bool_decide (VObj target = rawReceiver) then
         if negb hadKey then trigger n target ADD (Some key) val
         else if hasChanged val oldValue then trigger n target SET (Some key) val
         else ret tt
       else ret tt);;
      ret result
  end.

(** [deleteProperty] of the mutable handlers. *)
Definition deleteProperty (n : nat) (target : addr) (key : Key) : M bool :=
  fun st =>
    match heap st !! target with
    | Some (CRaw o) =>
        let hadKey := raw_hasOwn o key in
        let '(o', result) := raw_delete o key in
        (store_raw target o';;
         (if result && hadKey then trigger n target DELETE (Some key) VUndef else ret tt);;
         ret result) st
    | _ => Abort Unmodelled
    end.

(** [has] and [ownKeys] of the mutable handlers. *)
Definition has (target : addr) (key : Key) : M bool :=
  fun st =>
    match heap st !! target with
    | Some (CRaw o) =>
        match raw_has o key with
        | Some result =>
            ((if negb (isSymbol key) || negb (builtInSymbols_has key)
              then track target key else ret tt);;
             ret result) st
        | None => Abort Unmodelled
        end
    | _ => Abort Unmodelled
    end.

Definition ownKeys (n : nat) (target : addr) : M unit :=
  fun st => track target (if isArray n target st then LENGTH else ITERATE_KEY) st.

(** ** Operations of user code on a value *)

(** [Reflect.set(o, key, v)]: through the [set] trap of the handlers of the
    proxy's mode when [o] is a proxy ([readonlyHandlers.set] only returns
    true, which the Proxy accepts for a writable property), the Ref's setter
    on a Ref, a plain write otherwise. *)
Definition js_set (n : nat) (o : value) (key : Key) (v : value) : M bool :=
  match o with
  | VObj a => fun st =>
      match heap st !! a with
      | Some (CProxy t m coll) =>
          if coll then Abort Unmodelled
          else if mode_isReadonly m then Ok true st
          else createSetter n (mode_shallow m) t key v o st
      | Some (CRaw _) => Reflect_set a key v st
      | Some (CRef _ _) =>
          if bool_decide (key = VALUE) then (ref_set n a v;; ret true) st
          else Abort Unmodelled
      | None => Abort Unmodelled
      end
  | _ => abort_with Unmodelled
  end.

(** What a Proxy does with the [true] that its [deleteProperty] trap
    returned without deleting: a TypeError when the key is still an own
    property of the target and is not configurable, or the target is not
    extensible.  The target of a readonly proxy can be a proxy itself, which
    then passes the two questions on to its own target. *)
Definition delete_reported (n : nat) (t : addr) (key : Key) : M bool :=
  fun st =>
    match underlying n st t with
    | Some u =>
        if raw_hasOwn u key && (negb (o_ext u) || obj_isArray u && bool_decide (key = LENGTH))
        then Exn TypeError st
        else Ok true st
    | None => Abort Unmodelled
    end.

(** [Reflect.deleteProperty(o, key)]: through the [deleteProperty] trap of
    the handlers of the proxy's mode when [o] is a proxy
    ([readonlyHandlers.deleteProperty] only returns true). *)
Definition js_delete (n : nat) (o : value) (key : Key) : M bool :=
  match o with
  | VObj a => fun st =>
      match heap st !! a with
      | Some (CProxy t m coll) =>
          if coll then Abort Unmodelled
          else if mode_isReadonly m then delete_reported n t key st
          else deleteProperty n t key st
      | Some (CRaw o) =>
          let '(o', result) := raw_delete o key in
          Ok result (set_heap (insert a (CRaw o')) st)
      | _ => Abort Unmodelled
      end
  | _ => abort_with Unmodelled
  end.

(** [key in o] and [Reflect.ownKeys(o)] (whose list of keys is not
    modelled).  The readonly handlers have neither trap, so the operation
    goes on to the target. *)
Fixpoint js_has (n : nat) (o : value) (key : Key) : M bool :=
  match n with
  | O => abort_with OutOfFuel
  | S n' =>
      match o with
      | VObj a => fun st =>
          match heap st !! a with
          | Some (CProxy t m false) =>
              if mode_isReadonly m then js_has n' (VObj t) key st else has t key st
          | Some (CRaw o) =>
              match raw_has o key with
              | Some b => Ok b st
              | None => Abort Unmodelled
              end
          | _ => Abort Unmodelled
          end
      | _ => abort_with Unmodelled
      end
  end.

Fixpoint js_ownKeys (n : nat) (o : value) : M unit :=
  match n with
  | O => abort_with OutOfFuel
  | S n' =>
      match o with
      | VObj a => fun st =>
          match heap st !! a with
          | Some (CProxy t m false) =>
              if mode_isReadonly m then js_ownKeys n' (VObj t) st else ownKeys n' t st
          | Some (CRaw o) => Ok tt st
          | _ => Abort Unmodelled
          end
      | _ => abort_with Unmodelled
      end
  end.

(** One node of user code. *)
Definition step (n : nat) (p : prog) : M value :=
  match p with
  | Done v => ret v
  | Raise x => throw x
  | NewObj o k => let* a := alloc (CRaw o) in rec (k (VObj a))
  | NewRef v k => let* r := ref n v in rec (k r)
  | Get o key k => let* v := js_get n o key o in rec (k v)
  | SetProp o key v k => let* b := js_set n o key v in rec (k b)
  | Delete o key k => let* b := js_delete n o key in rec (k b)
  | Has o key k => let* b := js_has n o key in rec (k b)
  | OwnKeys o k => js_ownKeys n o;; rec k
  | Wrap m v k => let* p := wrap n m v in rec (k p)
  | ToRaw v k => let* r := toRaw n v in rec (k r)
  | Effect fn opts k => let* e := effect fn opts in rec (k e)
  | CallRunner r k => let* v := run r in rec (k v)
  | Stop r k => stop r;; rec k
  | PauseTracking k => pauseTracking;; rec k
  | EnableTracking k => enableTracking;; rec k
  | ResetTracking k => resetTracking;; rec k
  end.

End Engine.

(** The interpreter: [fuel] bounds the depth of the calls. *)
Fixpoint exec (fuel : nat) (p : prog) : M value :=
  match fuel with
  | O => abort_with OutOfFuel
  | S f => step (exec f) f p
  end.

(** * The vocabulary of the statements *)

(** ** Traces and the stack *)

(** An event respects the stack [S] when it is not the entry, as an active
    effect, of the function of an effect that is on [S]. *)
Definition fn_entry_ok (S : list eid) (ev : event) : Prop :=
  match ev with EvFn e true => e ∉ S | _ => True end.

(** [st'] comes after [st] in a computation that respects the stack of
    [st]: the stack is the same, and the trace has grown by events that
    respect it. *)
Definition extends (st st' : state) : Prop :=
  effectStack st' = effectStack st ∧
  ∃ evs, log st' = evs ++ log st ∧ Forall (fn_entry_ok (effectStack st)) evs.

(** A computation preserves the stack discipline when every state it
    returns or throws in comes after the state it started in. *)
Definition post {A} (st : state) (r : result A) : Prop :=
  match r with Ok _ st' | Exn _ st' => extends st st' | Abort _ => True end.

Definition pres {A} (c : M A) : Prop := ∀ st, post st (c st).

(** A state update that touches neither the stack nor the trace. *)
Definition silent (f : state -> state) : Prop :=
  ∀ st, effectStack (f st) = effectStack st ∧ log (f st) = log st.

(** The entries of the function of [e] as an active effect, in a trace. *)
Definition entries (e : eid) (evs : list event) : nat :=
  length (filter (fun ev => ev = EvFn e true) evs).

(** ** Well-formed states *)

(** A target that [createReactiveObject] accepts: an extensible object of an
    observable class that carries none of the markers. *)
Definition wrappable (st : state) (x : addr) (o : robj) : Prop :=
  heap st !! x = Some (CRaw o)
  ∧ o_ext o = true ∧ targetTypeMap (o_type o) ≠ INVALID
  ∧ truthy (raw_get o RAW) = false
  ∧ truthy (raw_get o SKIP) = false
  ∧ truthy (raw_get o IS_READONLY) = false.

(** [wraps st k v x]: [v] is [x] under [k] layers of proxies, each the one
    its map holds for its target. *)
Inductive wraps (st : state) : nat -> value -> addr -> Prop :=
| wraps_raw x o :
    heap st !! x = Some (CRaw o) → truthy (raw_get o RAW) = false →
    wraps st 0 (VObj x) x
| wraps_proxy k p t m coll x :
    heap st !! p = Some (CProxy t m coll) → proxyMap m st !! t = Some p →
    wraps st k (VObj t) x →
    wraps st (S k) (VObj p) x.

(** Whether [createReactiveObject] gives the proxy of [o] the collection
    handlers. *)
Definition is_collection (o : robj) : bool :=
  match targetTypeMap (o_type o) with COLLECTION => true | _ => false end.

(** Every entry of a proxy map is a proxy of its key in the mode of the
    map, with the handlers of the class of the key: [proxyMap.set(target,
    proxy)] is the only write to the maps. *)
Definition maps_wf (st : state) : Prop :=
  ∀ m t p, proxyMap m st !! t = Some p →
    ∃ coll, heap st !! p = Some (CProxy t m coll)
            ∧ ∀ o, heap st !! t = Some (CRaw o) → coll = is_collection o.

(** Every Dep named by [targetMap] is in the store. *)
Definition deps_wf (st : state) : Prop :=
  ∀ t depsMap key di,
    targetMap st !! t = Some depsMap → assoc_get key depsMap = Some di →
    is_Some (deps st !! di).

(** ** The test of the ["length"] branch *)

(** [s >= n] for a string key [s] and a number [n], where the model has
    it. *)
Definition numeric_ge (s : string) (n : Z) : option bool :=
  match StringToNumber s with
  | Some x => num_ge x n
  | None => None
  end.

(** The test of the [forEach]: [key === 'length' || key >= newValue]. *)
Definition length_fires (n : Z) (key : Key) : bool :=
  bool_decide (key = LENGTH)
  || match key with
     | KStr s => default false (numeric_ge s n)
     | KSym _ => false
     end.

(** The keys the test is modelled on: ["length"], and the strings whose
    conversion to a number is modelled. *)
Definition modelled_key (n : Z) (key : Key) : Prop :=
  key = LENGTH ∨ ∃ s, key = KStr s ∧ is_Some (numeric_ge s n).

(** A string key all of whose characters are ASCII. *)
Definition ascii_key (key : Key) : bool :=
  match key with
  | KStr s => forallb (fun c => (nat_of_ascii c <? 128)%nat) (list_ascii_of_string s)
  | KSym _ => false
  end.

(** The effects [trigger] hands to [triggerEffects] for a list of Deps. *)
Definition batch_of (dl : list depid) (st : state) : list eid :=
  match dl with
  | [di] => dep_subs di st
  | _ => dedup_subs (concat (map (fun di => dep_subs di st) dl))
  end.

(** ** States and scripts the statements are instantiated on *)

(** The object literal [{k1: v1, ...}] and the array literal [[v1, ...]]. *)
Definition obj (l : list (Key * value)) : robj := mkObj TObject true [] l.
Definition arr (l : list value) : robj := mkObj TArray true (map Some l) [].

(** The state a top-level script leaves. *)
Definition after (fuel : nat) (p : prog) : state :=
  match exec fuel p init with
  | Ok _ st | Exn _ st => st
  | Abort _ => init
  end.

(** A state with one ordinary object. *)
Definition sample_object : robj :=
  mkObj TObject true [] [(KStr "a", VNum 1)].

Definition one_object : state := set_heap (insert 0%nat (CRaw sample_object)) init.

(** A state with an object and a readonly proxy of it. *)
Definition readonly_view : state :=
  proxyMap_set MReadonly 0%nat 1%nat
    (set_heap (insert 1%nat (CProxy 0%nat MReadonly false)) one_object).

(** [x = [1, 2, 3]; r = readonly(x)] *)
Definition readonly_list_script (k : value -> prog) : prog :=
  NewObj (arr [VNum 1; VNum 2; VNum 3]) (fun x =>
  Wrap MReadonly x (fun r =>
  k r)).

Definition readonly_list : state := after 20 (readonly_list_script (fun _ => Done VUndef)).

(** A state with an object and a reactive proxy of it. *)
Definition reactive_view : state :=
  proxyMap_set MReactive 0%nat 1%nat
    (set_heap (insert 1%nat (CProxy 0%nat MReactive false)) one_object).

(** [x = {a: 1}; s = reactive(x)]; a first effect reads [s.a] and throws
    when it is 2; a second effect reads [s.a]. *)
Definition throwing_reader_script : prog :=
  NewObj (obj [(KStr "a", VNum 1)]) (fun x =>
  Wrap MReactive x (fun s =>
  Effect (FnUser (Get s (KStr "a") (fun v =>
            if bool_decide (v = VNum 2) then Raise (VStr "boom") else Done VUndef)))
         None (fun _ =>
  Effect (FnUser (Get s (KStr "a") (fun _ => Done VUndef))) None (fun _ =>
  Done VUndef)))).

Definition throwing_reader : state := after 20 throwing_reader_script.

(** ... after [x.a] has been set to 2, when [triggerEffects] starts. *)
Definition throwing_reader_written : state :=
  set_heap (insert 0%nat (CRaw (obj [(KStr "a", VNum 2)]))) throwing_reader.

(** ... after the first effect of the batch has thrown. *)
Definition throwing_reader_thrown : state :=
  match triggerEffect (exec 20) 0%nat throwing_reader_written with
  | Exn _ st => st
  | _ => init
  end.

(** [u = {}; x = {a: u}; s = reactive(x); ru = readonly(u)]; an effect
    reads [s.a]. *)
Definition deep_holder_script : prog :=
  NewObj (obj []) (fun u =>
  NewObj (obj [(KStr "a", u)]) (fun x =>
  Wrap MReactive x (fun s =>
  Wrap MReadonly u (fun ru =>
  Effect (FnUser (Get s (KStr "a") (fun _ => Done VUndef))) None (fun _ =>
  Done VUndef))))).

Definition deep_holder : state := after 20 deep_holder_script.



(** [rf = ref(1); x = {r: rf}; u = {}; s = reactive(x); ru = readonly(u)];
    an effect reads [s.r]. *)
Definition ref_holder_script : prog :=
  NewRef (VNum 1) (fun rf =>
  NewObj (obj [(KStr "r", rf)]) (fun x =>
  NewObj (obj []) (fun u =>
  Wrap MReactive x (fun s =>
  Wrap MReadonly u (fun ru =>
  Effect (FnUser (Get s (KStr "r") (fun _ => Done VUndef))) None (fun _ =>
  Done VUndef)))))).

Definition ref_holder : state := after 20 ref_holder_script.

(** [x = [1, 2, 3, 4]; s = reactive(x)]; three effects read [s[3]],
    [s["Infinity"]] and [s[1]]. *)
Definition array_readers_script : prog :=
  NewObj (arr [VNum 1; VNum 2; VNum 3; VNum 4]) (fun x =>
  Wrap MReactive x (fun s =>
  Effect (FnUser (Get s (KStr "3") (fun _ => Done VUndef))) None (fun _ =>
  Effect (FnUser (Get s (KStr "Infinity") (fun _ => Done VUndef))) None (fun _ =>
  Effect (FnUser (Get s (KStr "1") (fun _ => Done VUndef))) None (fun _ =>
  Done VUndef))))).

Definition array_readers : state := after 20 array_readers_script.

(** The [depsMap] of the array after the three effects have run. *)
Definition array_readers_depsMap : list (Key * depid) :=
  [(KStr "3", 0%nat); (KStr "Infinity", 1%nat); (KStr "1", 2%nat)].

(** [x = [1, 2, 3]; s = reactive(x)]; one effect reads [s.length], one
    reads [s[sym]] for a symbol [sym] of the user. *)
Definition symbol_reader_script : prog :=
  NewObj (arr [VNum 1; VNum 2; VNum 3]) (fun x =>
  Wrap MReactive x (fun s =>
  Effect (FnUser (Get s LENGTH (fun _ => Done VUndef))) None (fun _ =>
  Effect (FnUser (Get s (KSym (SymUser 0)) (fun _ => Done VUndef))) None (fun _ =>
  Done VUndef)))).

Definition symbol_reader : state := after 20 symbol_reader_script.

(** [s = reactive([1, 2, 3, 4])]; an effect stores [s[3]] in [out.read];
    then [s.length = 2].  The script returns what [out.read] holds at the
    end (and [null] if the first run of the effect had not stored 4). *)
Definition shrink_scenario : prog :=
  NewObj (arr [VNum 1; VNum 2; VNum 3; VNum 4]) (fun x =>
  NewObj (obj []) (fun out =>
  Wrap MReactive x (fun s =>
  Effect (FnUser (Get s (KStr "3") (fun v =>
            SetProp out (KStr "read") v (fun _ => Done VUndef)))) None (fun _ =>
  Get out (KStr "read") (fun before =>
  SetProp s LENGTH (VNum 2) (fun _ =>
  Get out (KStr "read") (fun read =>
  Done (if bool_decide (before = VNum 4) then read else VNull)))))))).

(** An effect made lazily, with no options set. *)
Definition lazy_options : options prog := mkOptions true None false None.

(** [x = {a: 1}; s = reactive(x); r = effect(() => { s.a }, {lazy: true})] *)
Definition lazy_reader_script : prog :=
  NewObj (obj [(KStr "a", VNum 1)]) (fun x =>
  Wrap MReactive x (fun s =>
  Effect (FnUser (Get s (KStr "a") (fun _ => Done VUndef))) (Some lazy_options) (fun _ =>
  Done VUndef))).

Definition lazy_reader : state := after 20 lazy_reader_script.

(** The effect the script makes. *)
Definition lazy_reader_effect : ReactiveEffect :=
  mkEffect (Get (VObj 1%nat) (KStr "a") (fun _ => Done VUndef)) None true [] false None.

(** ... while that effect runs: it is the stack, and the active effect. *)
Definition lazy_reader_running : state := set_stack [0%nat] (Some 0%nat) 1 2 lazy_reader.

(** [x = {b: 1}; s = reactive(x)]; a lazy effect [0] whose function stops
    the effect, reads [s.b] and calls the runner of the effect [1]; a lazy
    effect [1] whose function sets [s.b = 5]. *)
Definition self_stopping_script (k : prog) : prog :=
  NewObj (obj [(KStr "b", VNum 1)]) (fun x =>
  Wrap MReactive x (fun s =>
  Effect (FnUser (Stop 0%nat (Get s (KStr "b") (fun _ =>
                  CallRunner 1%nat (fun _ => Done VUndef)))))
         (Some lazy_options) (fun _ =>
  Effect (FnUser (SetProp s (KStr "b") (VNum 5) (fun _ => Done VUndef)))
         (Some lazy_options) (fun _ =>
  k)))).

Definition self_stopping : state := after 20 (self_stopping_script (Done VUndef)).

(** The same two effects, where the function of the effect [0] reads [s.b]
    and calls the runner of the effect [1], and the effect [0] has a
    scheduler (that does nothing) and is not stopped. *)
Definition scheduled_script (k : prog) : prog :=
  NewObj (obj [(KStr "b", VNum 1)]) (fun x =>
  Wrap MReactive x (fun s =>
  Effect (FnUser (Get s (KStr "b") (fun _ => CallRunner 1%nat (fun _ => Done VUndef))))
         (Some (mkOptions true (Some (Done VUndef)) false None)) (fun _ =>
  Effect (FnUser (SetProp s (KStr "b") (VNum 5) (fun _ => Done VUndef)))
         (Some lazy_options) (fun _ =>
  k)))).

(** ... in the run of the effect [0], inside the function of the effect
    [1], before its write. *)
Definition self_stopping_inside : state :=
  match (run_enter 0%nat;; modify (add_log (EvFn 0%nat true));;
         stop (exec 0) 0%nat;;
         js_get 5 (VObj 1%nat) (KStr "b") (VObj 1%nat);;
         run_enter 1%nat;; modify (add_log (EvFn 1%nat true))) self_stopping with
  | Ok _ st => st
  | _ => init
  end.

(** [s = reactive({n: 0}); effect(() => { s.n = s.n + 1 }); s.n] *)
Definition self_increment : prog :=
  NewObj (obj [(KStr "n", VNum 0)]) (fun x =>
  Wrap MReactive x (fun s =>
  Effect (FnUser (Get s (KStr "n") (fun v =>
            match v with
            | VNum z => SetProp s (KStr "n") (VNum (z + 1)) (fun _ => Done VUndef)
            | _ => Raise VUndef
            end))) None (fun _ =>
  Get s (KStr "n") (fun v => Done v)))).

(** [x = {a: 1, go: false}; s = reactive(x)]; the effect [0] reads [s.a]
    and [s.go] and stops itself when [s.go] is true; [s.go = true]; then a
    second effect [1] reads [s.a]; then [s.a = 2]. *)
Definition stop_then_read_script : prog :=
  NewObj (obj [(KStr "a", VNum 1); (KStr "go", VBool false)]) (fun x =>
  Wrap MReactive x (fun s =>
  Effect (FnUser (Get s (KStr "a") (fun _ =>
                  Get s (KStr "go") (fun go =>
                  if truthy go then Stop 0%nat (Done VUndef) else Done VUndef))))
         None (fun _ =>
  SetProp s (KStr "go") (VBool true) (fun _ =>
  Effect (FnUser (Get s (KStr "a") (fun _ => Done VUndef))) None (fun _ =>
  SetProp s (KStr "a") (VNum 2) (fun _ =>
  Done VUndef)))))).

(** [x = {a: 1}; s = reactive(x)]; an effect lists the keys of [s]. *)
Definition key_lister_script : prog :=
  NewObj (obj [(KStr "a", VNum 1)]) (fun x =>
  Wrap MReactive x (fun s =>
  Effect (FnUser (OwnKeys s (Done VUndef))) None (fun _ =>
  Done VUndef))).

Definition key_lister : state := after 20 key_lister_script.

(** [u = {}; x = {a: 1}; s = reactive(x); pu = reactive(u)] *)
Definition two_views_script : prog :=
  NewObj (obj []) (fun u =>
  NewObj (obj [(KStr "a", VNum 1)]) (fun x =>
  Wrap MReactive x (fun s =>
  Wrap MReactive u (fun pu =>
  Done VUndef)))).

Definition two_views : state := after 20 two_views_script.

(** ** The frame of [run] *)

(** The bookkeeping of [run]: the stack of effects, the active effect, the
    depth of the nesting and the marker bit of the level. *)
Definition frame (st : state) : list eid * option eid * nat * Z :=
  (effectStack st, activeEffect st, effectTrackDepth st, trackOpBit st).

(** The active effect is the top of the stack, the depth is the height of
    the stack, and the marker bit is [1 << depth]. *)
Definition frame_ok (st : state) : Prop :=
  activeEffect st = head (effectStack st)
  ∧ effectTrackDepth st = length (effectStack st)
  ∧ trackOpBit st = shl1 (effectTrackDepth st).

(** A computation keeps the frame when, started in a state whose frame is
    consistent, it returns or throws in a state with the same frame. *)
Definition frame_post {A} (st : state) (r : result A) : Prop :=
  match r with Ok _ st' | Exn _ st' => frame st' = frame st | Abort _ => True end.

Definition keeps_frame {A} (c : M A) : Prop := ∀ st, frame_ok st → frame_post st (c st).

(** A state update that does not touch the frame. *)
Definition quiet (f : state -> state) : Prop := ∀ st, frame (f st) = frame st.

(** ** The states of the engine *)

(** The class of a cell: what it is a proxy of, or the class of the
    ordinary object. *)
Inductive kind : Type :=
| KRaw (ty : rawType)
| KProxy (t : addr) (m : mode) (coll : bool)
| KRef.

Definition kind_of (c : cell) : kind :=
  match c with
  | CRaw o => KRaw (o_type o)
  | CProxy t m coll => KProxy t m coll
  | CRef _ _ => KRef
  end.

(** [st'] has every cell of [st], of the same class, and every Dep. *)
Definition grows (st st' : state) : Prop :=
  (∀ a c, heap st !! a = Some c → ∃ c', heap st' !! a = Some c' ∧ kind_of c' = kind_of c)
  ∧ (∀ di, is_Some (deps st !! di) → is_Some (deps st' !! di)).

(** The states of the engine: every entry of a proxy map is a proxy of its
    key, which is in the heap, in the mode of the map and with the handlers
    of the class of the key; every Dep that [targetMap] or a Ref names is in
    the store. *)
Definition well_formed (st : state) : Prop :=
  (∀ m t p, proxyMap m st !! t = Some p →
     is_Some (heap st !! t)
     ∧ ∃ coll, heap st !! p = Some (CProxy t m coll)
               ∧ ∀ o, heap st !! t = Some (CRaw o) → coll = is_collection o)
  ∧ deps_wf st
  ∧ (∀ a inner di, heap st !! a = Some (CRef inner (Some di)) → is_Some (deps st !! di)).

(** A computation keeps the states well formed. *)
Definition wf_post {A} (st : state) (r : result A) : Prop :=
  match r with
  | Ok _ st' | Exn _ st' => well_formed st' ∧ grows st st'
  | Abort _ => True
  end.

Definition keeps_wf {A} (c : M A) : Prop := ∀ st, well_formed st → wf_post st (c st).

(** Two states with the same heap, proxy maps, [targetMap] and Deps in the
    store. *)
Definition same_shape (st st' : state) : Prop :=
  heap st' = heap st
  ∧ (∀ m, proxyMap m st' = proxyMap m st)
  ∧ targetMap st' = targetMap st
  ∧ (∀ di, is_Some (deps st' !! di) ↔ is_Some (deps st !! di)).

Definition steady (f : state -> state) : Prop := ∀ st, same_shape st (f st).

(** * Properties *)

(** ** Fresh addresses *)

Lemma fresh_above {A} (m : gmap nat A) (k : nat) : is_Some (m !! k) → (k < fresh m)%nat.
Proof.
  unfold fresh.
  induction m as [|i x m Hi Hfold IH] using map_first_key_ind.
  - rewrite lookup_empty. intros [? ?]; done.
  - rewrite map_fold_insert_first_key by done.
    destruct (decide (i = k)) as [->|Hne].
    + intros _. lia.
    + rewrite lookup_insert_ne by done. intros H. apply IH in H. lia.
Qed.

Lemma fresh_None {A} (m : gmap nat A) : m !! fresh m = None.
Proof.
  destruct (m !! fresh m) eqn:E; [|done].
  assert (fresh m < fresh m)%nat by (apply fresh_above; eauto). lia.
Qed.

(** ** The stack discipline of [run]

    Whatever user code does, the engine leaves [effectStack] as it found it,
    and it only enters the function of an active effect (the event
    [EvFn e true]) when that effect is not on the stack. *)

Lemma extends_refl st : extends st st.
Proof. split; [done|]. exists []. split; [done|constructor]. Qed.

Lemma extends_trans st1 st2 st3 : extends st1 st2 → extends st2 st3 → extends st1 st3.
Proof.
  intros [Hs1 (evs1 & Hl1 & Hf1)] [Hs2 (evs2 & Hl2 & Hf2)].
  split; [congruence|].
  exists (evs2 ++ evs1). split.
  - rewrite Hl2, Hl1. by rewrite app_assoc.
  - apply Forall_app. split; [|done]. by rewrite <- Hs1.
Qed.

Lemma extends_silent f st : silent f → extends st (f st).
Proof.
  intros H. destruct (H st) as [Hs Hl]. split; [done|].
  exists []. split; [done|constructor].
Qed.

Lemma post_bind {A B} (c : M A) (k : A -> M B) st :
  post st (c st) → (∀ a st1, c st = Ok a st1 → post st1 (k a st1)) → post st (bind c k st).
Proof.
  unfold bind. destruct (c st) as [a st1|x st1|w]; simpl; intros H1 H2; [|done|done].
  specialize (H2 a st1 eq_refl).
  destruct (k a st1); simpl in *; [| |done]; by eapply extends_trans.
Qed.

Lemma post_mono {A} (st0 st : state) (r : result A) : extends st0 st → post st r → post st0 r.
Proof. intros H. destruct r; simpl; [| |done]; by apply extends_trans. Qed.

Lemma post_pres {A} (c : M A) st : pres c → post st (c st).
Proof. intros H. apply H. Qed.

Lemma pres_bind {A B} (c : M A) (k : A -> M B) : pres c → (∀ a, pres (k a)) → pres (bind c k).
Proof. intros Hc Hk st. apply post_bind; [apply Hc|]. intros. apply Hk. Qed.

Lemma pres_ret {A} (a : A) : pres (ret a).
Proof. intros st. apply extends_refl. Qed.

Lemma pres_throw {A} x : pres (@throw A x).
Proof. intros st. apply extends_refl. Qed.

Lemma pres_abort {A} w : pres (@abort_with A w).
Proof. intros st. exact I. Qed.

Lemma pres_modify f : silent f → pres (modify f).
Proof. intros H st. by apply extends_silent. Qed.

Lemma pres_log ev : (∀ S, fn_entry_ok S ev) → pres (modify (add_log ev)).
Proof.
  intros H st. split; [done|]. exists [ev]. split; [done|].
  constructor; [apply H|constructor].
Qed.

Lemma silent_set_heap f : silent (set_heap f).
Proof. done. Qed.
Lemma silent_set_deps f : silent (set_deps f).
Proof. done. Qed.
Lemma silent_set_effects f : silent (set_effects f).
Proof. done. Qed.
Lemma silent_set_targetMap f : silent (set_targetMap f).
Proof. done. Qed.
Lemma silent_set_tracking b l : silent (set_tracking b l).
Proof. done. Qed.
Lemma silent_proxyMap_set m t p : silent (proxyMap_set m t p).
Proof. done. Qed.
Lemma silent_dep_update di f : silent (dep_update di f).
Proof. done. Qed.
Lemma silent_effect_update e f : silent (effect_update e f).
Proof. done. Qed.

Lemma silent_foldl {A} (f : state -> A -> state) (l : list A) :
  (∀ a, silent (fun st => f st a)) → silent (fun st => foldl f st l).
Proof.
  intros H. induction l as [|a l IH]; simpl; [done|].
  intros st. destruct (IH (f st a)) as [-> ->]. apply (H a st).
Qed.

Lemma silent_initDepMarkers e : silent (initDepMarkers e).
Proof.
  intros st. unfold initDepMarkers.
  by apply (silent_foldl (fun s di => dep_update di _ s)).
Qed.

Lemma silent_cleanupEffect e : silent (cleanupEffect e).
Proof.
  intros st. unfold cleanupEffect.
  destruct (silent_effect_update e (with_deps [])
    (foldl (fun s di => dep_update di (fun d => mkDep (subs_delete e (d_subs d)) (d_w d) (d_n d)) s)
       st (effect_deps e st))) as [-> ->].
  by apply (silent_foldl (fun s di => dep_update di _ s)).
Qed.

Lemma finalize_walk_silent e l st :
  effectStack (finalize_walk e l st).2 = effectStack st
  ∧ log (finalize_walk e l st).2 = log st.
Proof.
  revert st. induction l as [|di l IH]; intros st; simpl; [done|].
  destruct (deps st !! di) as [d|]; [|apply IH].
  destruct (wasTracked d (trackOpBit st) && negb (newTracked d (trackOpBit st))).
  - destruct (IH (dep_update di (fun d => mkDep (subs_delete e (d_subs d)) (d_w d) (d_n d)) st))
      as [-> ->]. done.
  - match goal with |- context [finalize_walk e l ?s] =>
      specialize (IH s); destruct (finalize_walk e l s) as [kept st'] end.
    simpl in *. destruct IH as [-> ->]. done.
Qed.

Lemma silent_finalizeDepMarkers e : silent (finalizeDepMarkers e).
Proof.
  intros st. unfold finalizeDepMarkers.
  pose proof (finalize_walk_silent e (effect_deps e st) st) as H.
  destruct (finalize_walk e (effect_deps e st) st) as [kept st']. simpl in *.
  destruct H as [<- <-]. done.
Qed.

Lemma silent_resetTracking_st : silent resetTracking_st.
Proof. intros st. unfold resetTracking_st. by destruct (last (trackStack st)). Qed.

Create HintDb pres discriminated.
#[local] Hint Resolve pres_ret pres_throw pres_abort pres_modify pres_log : pres.
#[local] Hint Resolve silent_set_heap silent_set_deps silent_set_effects silent_set_targetMap
  silent_set_tracking silent_proxyMap_set silent_dep_update silent_effect_update
  silent_initDepMarkers silent_cleanupEffect silent_finalizeDepMarkers
  silent_resetTracking_st extends_refl : pres.

Lemma pres_pauseTracking : pres pauseTracking.
Proof. apply pres_modify. done. Qed.

Lemma pres_enableTracking : pres enableTracking.
Proof. apply pres_modify. done. Qed.

Lemma pres_resetTracking : pres resetTracking.
Proof. apply pres_modify, silent_resetTracking_st. Qed.

Lemma pres_createDep es : pres (createDep es).
Proof. intros st. unfold createDep. by apply (extends_silent (set_deps _)). Qed.

Lemma pres_alloc c : pres (alloc c).
Proof. intros st. unfold alloc. by apply (extends_silent (set_heap _)). Qed.

Lemma pres_trackEffects di : pres (trackEffects di).
Proof.
  intros st. unfold trackEffects.
  destruct (deps st !! di) as [d|]; [|exact I].
  destruct (activeEffect st) as [e|]; [|exact I].
  destruct (effectTrackDepth st <=? maxMarkerBits)%nat;
    [destruct (negb (newTracked d (trackOpBit st))); [destruct (negb (wasTracked d (trackOpBit st)))|]
    |destruct (negb (bool_decide (e ∈ d_subs d)))]; simpl;
    first [ apply extends_refl
          | apply (extends_silent (fun s => effect_update _ _ (dep_update _ _ (dep_update _ _ s)))); done
          | apply (extends_silent (fun s => effect_update _ _ (dep_update _ _ s))); done
          | apply (extends_silent (dep_update _ _)); done ].
Qed.

#[local] Hint Resolve pres_pauseTracking pres_enableTracking pres_resetTracking pres_createDep
  pres_alloc pres_trackEffects : pres.

Lemma pres_track t key : pres (track t key).
Proof.
  intros st. unfold track.
  destruct (negb (isTracking st)); [apply extends_refl|].
  eapply (post_mono _ (add_log (EvTrack t key) st)).
  { split; [done|]. exists [EvTrack t key]. split; [done|]. by repeat constructor. }
  destruct (assoc_get key _); [apply pres_trackEffects|].
  apply post_pres. apply pres_bind; [auto with pres|]. intros di.
  apply pres_bind; auto with pres.
Qed.

Lemma pres_trackRefValue a : pres (trackRefValue a).
Proof.
  intros st. unfold trackRefValue.
  destruct (negb (isTracking st)); [apply extends_refl|].
  destruct (heap st !! a) as [[| |inner [di|]]|]; try exact I; [apply pres_trackEffects|].
  apply post_pres. apply pres_bind; [auto with pres|]. intros di.
  apply pres_bind; auto with pres.
Qed.

#[local] Hint Resolve pres_track pres_trackRefValue : pres.

Lemma pres_createGetter n get wrap isReadonly shallow target key receiver :
  (∀ o k r, pres (get o k r)) → (∀ m v, pres (wrap m v)) →
  pres (createGetter n get wrap isReadonly shallow target key receiver).
Proof.
  intros Hg Hw st. unfold createGetter.
  repeat (destruct (bool_decide _ && bool_decide _) || destruct (bool_decide _));
    try apply extends_refl.
  destruct (underlying n st target) as [u|]; [|exact I].
  destruct (negb _ && _ && _); [apply extends_refl|].
  apply post_pres. apply pres_bind; [apply Hg|]. intros res.
  destruct (if isSymbol key then _ else _); [apply pres_ret|].
  apply pres_bind. { destruct (negb _); auto with pres. }
  intros _. destruct shallow; [apply pres_ret|].
  apply pres_bind. { destruct (truthy res); [apply Hg|apply pres_ret]. }
  intros isref. destruct (bool_decide (isref = _)).
  - destruct (_ || _); [apply Hg|apply pres_ret].
  - destruct (isObject res); [apply Hw|apply pres_ret].
Qed.

Lemma pres_collection_get m target key receiver : pres (collection_get m target key receiver).
Proof.
  intros st. unfold collection_get.
  repeat (destruct (bool_decide _ && bool_decide _) || destruct (bool_decide _));
    try apply extends_refl.
  exact I.
Qed.

Lemma pres_ref_get a inner key : pres (ref_get a inner key).
Proof.
  unfold ref_get. destruct (bool_decide (key = VALUE)).
  { apply pres_bind; auto with pres. }
  repeat (destruct (bool_decide _)); auto with pres.
Qed.

Lemma pres_js_get_all n :
  (∀ o key recv, pres (js_get n o key recv))
  ∧ (∀ target m, pres (createReactiveObject n target m))
  ∧ (∀ m target, pres (wrap n m target)).
Proof.
  induction n as [|n (IHg & IHc & IHw)].
  { repeat split; intros; intros st; exact I. }
  repeat split.
  - intros o key recv st. simpl.
    destruct o as [| | | | | |a|];
      try solve [apply post_pres; destruct (bool_decide _); auto with pres
                | apply post_pres; auto with pres ].
    destruct (heap st !! a) as [[ob|t m coll|inner d]|]; try exact I.
    + destruct (raw_read ob key); [apply extends_refl|exact I].
    + destruct coll; [apply pres_collection_get|].
      apply pres_createGetter; [apply IHg|apply IHw].
    + apply pres_ref_get.
  - intros target m. simpl. destruct target as [| | | | | |a|]; try apply pres_ret.
    apply pres_bind; [apply IHg|]. intros raw.
    apply pres_bind.
    { destruct (truthy raw); [|apply pres_ret].
      destruct (mode_isReadonly m); [|apply pres_ret].
      apply pres_bind; [apply IHg|]. intros; apply pres_ret. }
    intros [|]; [apply pres_ret|].
    intros st. destruct (proxyMap m st !! a); [apply extends_refl|].
    apply post_pres. apply pres_bind; [apply IHg|]. intros skip st'.
    destruct (underlying n st' a) as [u|]; [|exact I].
    destruct (if _ || _ then _ else _); [apply extends_refl| |];
      (apply post_pres; apply pres_bind; [auto with pres|]; intros p;
       apply pres_bind; auto with pres).
  - intros m target. simpl. destruct m; try apply IHc.
    apply pres_bind. { destruct (truthy target); [apply IHg|apply pres_ret]. }
    intros ro. destruct (truthy ro); [apply pres_ret|apply IHc].
Qed.

Lemma pres_js_get n o key recv : pres (js_get n o key recv).
Proof. apply pres_js_get_all. Qed.

Lemma pres_createReactiveObject n target m : pres (createReactiveObject n target m).
Proof. apply pres_js_get_all. Qed.

Lemma pres_wrap n m target : pres (wrap n m target).
Proof. apply pres_js_get_all. Qed.

#[local] Hint Resolve pres_js_get pres_createReactiveObject pres_wrap : pres.

Lemma pres_isReadonly n v : pres (isReadonly n v).
Proof.
  unfold isReadonly. destruct (truthy v); [|apply pres_ret].
  apply pres_bind; auto with pres.
Qed.

Lemma pres_isRef n v : pres (isRef n v).
Proof.
  unfold isRef. destruct (truthy v); [|apply pres_ret].
  apply pres_bind; auto with pres.
Qed.

Lemma pres_toRaw n v : pres (toRaw n v).
Proof.
  revert v. induction n as [|n IH]; intros v; simpl; [apply pres_abort|].
  apply pres_bind. { destruct (truthy v); auto with pres. }
  intros raw. destruct (truthy raw); auto with pres.
Qed.

#[local] Hint Resolve pres_isReadonly pres_isRef pres_toRaw : pres.

Lemma fn_entry_ok_weaken e S ev : fn_entry_ok (e :: S) ev → fn_entry_ok S ev.
Proof.
  destruct ev as [e' [|]| | |]; simpl; try done.
  intros H Hin. apply H. by right.
Qed.

Lemma run_enter_spec e st :
  ∃ st1, run_enter e st = Ok tt st1
         ∧ effectStack st1 = e :: effectStack st ∧ log st1 = log st.
Proof.
  unfold run_enter, bind, modify, enableTracking. eexists. split; [reflexivity|].
  destruct (_ <=? _)%nat.
  - match goal with |- context [initDepMarkers e ?s] =>
      by destruct (silent_initDepMarkers e s) as [-> ->] end.
  - match goal with |- context [cleanupEffect e ?s] =>
      by destruct (silent_cleanupEffect e s) as [-> ->] end.
Qed.

Lemma run_finally_spec e st :
  effectStack (run_finally e st) = tail (effectStack st) ∧ log (run_finally e st) = log st.
Proof.
  unfold run_finally. simpl.
  match goal with |- context [resetTracking_st ?s] =>
    destruct (silent_resetTracking_st s) as [-> ->] end. simpl.
  destruct (_ <=? _)%nat; [|done].
  by destruct (silent_finalizeDepMarkers e st) as [-> ->].
Qed.

Section EnginePreserves.

Variable rec : prog -> M value.
Hypothesis Hrec : ∀ p, pres (rec p).

Lemma pres_run e : pres (run rec e).
Proof.
  intros st. unfold run. destruct (effects st !! e) as [x|]; [|exact I].
  destruct (negb (e_active x)).
  { apply post_pres, pres_bind; [by apply pres_log|auto]. }
  destruct (bool_decide (e ∈ effectStack st)) eqn:Hin; [apply extends_refl|].
  apply bool_decide_eq_false in Hin.
  unfold try_finally.
  destruct (run_enter_spec e st) as (st1 & Hen & Hs1 & Hl1).
  unfold bind at 1. rewrite Hen. unfold bind at 1, modify at 1.
  pose proof (Hrec (e_fn x) (add_log (EvFn e true) st1)) as H.
  destruct (rec (e_fn x) (add_log (EvFn e true) st1)) as [v st2|ex st2|w];
    [| |exact I]; simpl in H.
  all: destruct H as [Hs (evs & Hl & Hf)]; simpl in Hs, Hl, Hf.
  all: destruct (run_finally_spec e st2) as [Hs' Hl'].
  all: split; [rewrite Hs', Hs, Hs1; done|].
  all: exists (evs ++ [EvFn e true]); split;
         [ rewrite Hl', Hl, Hl1; by rewrite <- app_assoc | ].
  all: apply Forall_app; split;
         [ eapply Forall_impl; [exact Hf|]; intros ev; rewrite Hs1; apply fn_entry_ok_weaken
         | by repeat constructor ].
Qed.

Lemma pres_stop e : pres (stop rec e).
Proof.
  intros st. unfold stop. destruct (effects st !! e) as [x|]; [|exact I].
  destruct (e_active x); [|apply extends_refl].
  apply post_pres. apply pres_bind; [auto with pres|]. intros _.
  apply pres_bind; [|auto with pres].
  destruct (e_onStop x); [|apply pres_ret].
  apply pres_bind; auto with pres.
Qed.

Lemma pres_effect fn opts : pres (effect rec fn opts).
Proof.
  intros st. unfold effect.
  destruct (match fn with FnUser body => _ | FnRunner r => _ end) as [f|]; [|exact I].
  apply post_pres. apply pres_bind; [auto with pres|]. intros _.
  apply pres_bind; [|auto with pres].
  destruct (match opts with Some o => _ | None => _ end); [|apply pres_ret].
  apply pres_bind; [apply pres_run|auto with pres].
Qed.

Lemma pres_triggerEffect e : pres (triggerEffect rec e).
Proof.
  intros st. unfold triggerEffect. destruct (effects st !! e) as [x|]; [|exact I].
  destruct (_ || _); [|apply extends_refl].
  destruct (e_scheduler x).
  - apply post_pres. apply pres_bind; [by apply pres_log|]. intros _.
    apply pres_bind; auto with pres.
  - apply post_pres. apply pres_bind; [apply pres_run|auto with pres].
Qed.

Lemma pres_triggerEffects batch : pres (triggerEffects rec batch).
Proof.
  induction batch as [|e rest IH]; simpl; [apply pres_ret|].
  apply pres_bind; [apply pres_triggerEffect|auto].
Qed.

Lemma pres_key_ge k nv : pres (key_ge k nv).
Proof.
  unfold key_ge. destruct k; [|apply pres_throw].
  destruct nv; auto with pres.
  destruct (StringToNumber s) as [x|]; auto with pres.
  destruct (num_ge x z); auto with pres.
Qed.

Lemma pres_length_deps depsMap nv : pres (length_deps depsMap nv).
Proof.
  induction depsMap as [|[key dep] rest IH]; simpl; [apply pres_ret|].
  apply pres_bind. { destruct (bool_decide _); [apply pres_ret|apply pres_key_ge]. }
  intros hit. apply pres_bind; [apply IH|]. intros; apply pres_ret.
Qed.

Lemma pres_trigger n target type key newValue : pres (trigger rec n target type key newValue).
Proof.
  unfold trigger. apply pres_bind; [by apply pres_log|]. intros _ st.
  destruct (targetMap st !! target) as [depsMap|]; [|apply extends_refl].
  apply post_pres. apply pres_bind.
  { destruct (bool_decide (type = CLEAR)); [apply pres_ret|].
    destruct (_ && _); [apply pres_length_deps|apply pres_ret]. }
  intros deps st'. destruct deps as [|[di|] [|d' deps]]; try apply pres_triggerEffects.
  apply extends_refl.
Qed.

Lemma pres_ref_set n a nv : pres (ref_set rec n a nv).
Proof.
  intros st. unfold ref_set.
  destruct (heap st !! a) as [[| |inner d]|]; try exact I.
  destruct (hasChanged nv inner); [|apply extends_refl].
  apply post_pres. apply pres_bind.
  { destruct (isObject nv); [apply pres_wrap|apply pres_ret]. }
  intros w. apply pres_bind; [auto with pres|]. intros _.
  destruct d; [|apply pres_ret]. intros st'. apply pres_triggerEffects.
Qed.

Lemma pres_ref n v : pres (ref n v).
Proof.
  unfold ref. apply pres_bind.
  { destruct (isObject v); [apply pres_wrap|apply pres_ret]. }
  intros w. apply pres_bind; auto with pres.
Qed.

Lemma pres_store_raw t o : pres (store_raw t o).
Proof. apply pres_modify. done. Qed.

Lemma pres_Reflect_set t key v : pres (Reflect_set t key v).
Proof.
  intros st. unfold Reflect_set.
  destruct (heap st !! t) as [[o| |]|]; try exact I.
  destruct (raw_set o key v); try exact I; [|apply extends_refl].
  by apply (extends_silent (set_heap _)).
Qed.

Lemma pres_createSetter n shallow target key val receiver :
  pres (createSetter rec n shallow target key val receiver).
Proof.
  unfold createSetter. apply pres_bind; [auto with pres|]. intros oldValue.
  apply pres_bind. { destruct shallow; auto with pres. }
  intros ro. apply pres_bind.
  { destruct (negb shallow && negb ro); [|apply pres_ret].
    apply pres_bind; [auto with pres|]. intros val'.
    apply pres_bind; [auto with pres|]. intros old'.
    apply pres_bind.
    { intros st. destruct (isArray n target st); [apply extends_refl|].
      apply post_pres. apply pres_bind; [auto with pres|].
      intros [|]; [|apply pres_ret]. apply pres_bind; auto with pres. }
    intros [|]; [|apply pres_ret].
    destruct old'; auto with pres.
    apply pres_bind; [apply pres_ref_set|auto with pres]. }
  intros [[[b|] val'] old']; [apply pres_ret|].
  apply pres_bind.
  { intros st. destruct (heap st !! target) as [[o| |]|]; try exact I. apply extends_refl. }
  intros hadKey. apply pres_bind; [apply pres_Reflect_set|]. intros result.
  apply pres_bind; [auto with pres|]. intros rawReceiver.
  apply pres_bind; [|auto with pres].
  destruct (bool_decide _); [|apply pres_ret].
  destruct (negb hadKey); [apply pres_trigger|].
  destruct (hasChanged val' old'); [apply pres_trigger|apply pres_ret].
Qed.

Lemma pres_deleteProperty n target key : pres (deleteProperty rec n target key).
Proof.
  intros st. unfold deleteProperty.
  destruct (heap st !! target) as [[o| |]|]; try exact I.
  destruct (raw_delete o key) as [o' result].
  apply post_pres. apply pres_bind; [apply pres_store_raw|]. intros _.
  apply pres_bind; [|auto with pres].
  destruct (_ && _); [apply pres_trigger|apply pres_ret].
Qed.

Lemma pres_has target key : pres (has target key).
Proof.
  intros st. unfold has.
  destruct (heap st !! target) as [[o| |]|]; try exact I.
  destruct (raw_has o key) as [result|]; [|exact I].
  apply post_pres. apply pres_bind; [|auto with pres].
  destruct (_ || _); auto with pres.
Qed.

Lemma pres_ownKeys n target : pres (ownKeys n target).
Proof. intros st. unfold ownKeys. apply pres_track. Qed.

Lemma pres_delete_reported n t key : pres (delete_reported n t key).
Proof.
  intros st. unfold delete_reported. destruct (underlying n st t) as [u|]; [|exact I].
  destruct (_ && _); apply extends_refl.
Qed.

Lemma pres_js_set n o key v : pres (js_set rec n o key v).
Proof.
  unfold js_set. destruct o as [| | | | | |a|]; try apply pres_abort.
  intros st. destruct (heap st !! a) as [[ob|t m coll|inner d]|]; try exact I.
  - apply pres_Reflect_set.
  - destruct coll; [exact I|]. destruct (mode_isReadonly m); [apply extends_refl|].
    apply pres_createSetter.
  - destruct (bool_decide _); [|exact I].
    apply post_pres. apply pres_bind; [apply pres_ref_set|auto with pres].
Qed.

Lemma pres_js_delete n o key : pres (js_delete rec n o key).
Proof.
  unfold js_delete. destruct o as [| | | | | |a|]; try apply pres_abort.
  intros st. destruct (heap st !! a) as [[ob|t m coll|inner d]|]; try exact I.
  - destruct (raw_delete ob key). by apply (extends_silent (set_heap _)).
  - destruct coll; [exact I|]. destruct (mode_isReadonly m); [|apply pres_deleteProperty].
    apply pres_delete_reported.
Qed.

Lemma pres_js_has n o key : pres (js_has n o key).
Proof.
  revert o. induction n as [|n IH]; intros o; simpl; [apply pres_abort|].
  destruct o as [| | | | | |a|]; try apply pres_abort.
  intros st. destruct (heap st !! a) as [[ob|t m [|]|inner d]|]; try exact I.
  - destruct (raw_has ob key); [apply extends_refl|exact I].
  - destruct (mode_isReadonly m); [apply IH|apply pres_has].
Qed.

Lemma pres_js_ownKeys n o : pres (js_ownKeys n o).
Proof.
  revert o. induction n as [|n IH]; intros o; simpl; [apply pres_abort|].
  destruct o as [| | | | | |a|]; try apply pres_abort.
  intros st. destruct (heap st !! a) as [[ob|t m [|]|inner d]|]; try exact I.
  - apply extends_refl.
  - destruct (mode_isReadonly m); [apply IH|apply pres_ownKeys].
Qed.

Lemma pres_step n p : pres (step rec n p).
Proof.
  destruct p; simpl; auto with pres;
    (apply pres_bind; [|intros; apply Hrec]).
  - apply pres_alloc.
  - apply pres_ref.
  - apply pres_js_get.
  - apply pres_js_set.
  - apply pres_js_delete.
  - apply pres_js_has.
  - apply pres_js_ownKeys.
  - apply pres_wrap.
  - apply pres_toRaw.
  - apply pres_effect.
  - apply pres_run.
  - apply pres_stop.
  - apply pres_pauseTracking.
  - apply pres_enableTracking.
  - apply pres_resetTracking.
Qed.

End EnginePreserves.

Lemma pres_exec fuel p : pres (exec fuel p).
Proof.
  revert p. induction fuel as [|f IH]; intros p; simpl; [apply pres_abort|].
  by apply pres_step.
Qed.

(** ** Reading the markers *)

(** A key the object has, and a key no prototype has, are read off the
    object; the markers are of the second kind. *)
Lemma raw_read_own o key : raw_hasOwn o key = true → raw_read o key = Some (raw_get o key).
Proof. intros H. unfold raw_read. by rewrite H. Qed.

Lemma raw_read_nowhere o key : proto_has o key = Some false → raw_read o key = Some (raw_get o key).
Proof.
  intros H. unfold raw_read. rewrite H, bool_decide_eq_true_2 by done. by rewrite orb_true_r.
Qed.

Lemma raw_read_flag o key : key ∈ flag_keys → raw_read o key = Some (raw_get o key).
Proof.
  intros H. apply raw_read_nowhere. unfold proto_has. by rewrite bool_decide_eq_true_2.
Qed.

Lemma array_index_None k : index_of_key k = None → array_index k = None.
Proof. intros H. unfold array_index. by rewrite H. Qed.

Lemma array_index_Some k i : array_index k = Some i → index_of_key k = Some i.
Proof.
  unfold array_index. destruct (index_of_key k) as [j|]; [|done].
  destruct (Z.of_nat j <? 2 ^ 32 - 1); [done|done].
Qed.

Lemma raw_get_own o key : raw_get o key ≠ VUndef → raw_hasOwn o key = true.
Proof.
  unfold raw_get, raw_hasOwn. destruct (obj_isArray o).
  - destruct (array_index key) as [i|].
    + by destruct (o_elems o !! i) as [[v|]|].
    + destruct (bool_decide (key = LENGTH)); [done|].
      by destruct (assoc_get key (o_props o)).
  - by destruct (assoc_get key (o_props o)).
Qed.




Ltac not_in_list :=
  repeat (apply not_elem_of_cons; split; [discriminate|]); apply not_elem_of_nil.

Ltac flag_key :=
  solve [ unfold flag_keys;
          repeat first [ apply list_elem_of_here | apply list_elem_of_further ] ].

Lemma js_get_raw n a o key v recv st :
  heap st !! a = Some (CRaw o) → raw_read o key = Some v →
  js_get (S n) (VObj a) key recv st = Ok v st.
Proof. intros H Hv. simpl. by rewrite H, Hv. Qed.

Lemma js_get_flag n a o key recv st :
  heap st !! a = Some (CRaw o) → key ∈ flag_keys →
  js_get (S n) (VObj a) key recv st = Ok (raw_get o key) st.
Proof. intros H Hk. apply (js_get_raw _ _ o); [done|by apply raw_read_flag]. Qed.

Lemma mode_of_mode m : mode_of (mode_isReadonly m) (mode_shallow m) = m.
Proof. by destruct m. Qed.

Lemma js_get_IS_REACTIVE n p t m coll recv st :
  heap st !! p = Some (CProxy t m coll) →
  js_get (S n) (VObj p) IS_REACTIVE recv st = Ok (VBool (negb (mode_isReadonly m))) st.
Proof. intros H. cbn [js_get]. rewrite H. by destruct coll. Qed.

Lemma js_get_IS_READONLY n p t m coll recv st :
  heap st !! p = Some (CProxy t m coll) →
  js_get (S n) (VObj p) IS_READONLY recv st = Ok (VBool (mode_isReadonly m)) st.
Proof. intros H. cbn [js_get]. rewrite H. by destruct coll. Qed.

Lemma js_get_RAW n p t m coll st :
  heap st !! p = Some (CProxy t m coll) → proxyMap m st !! t = Some p →
  js_get (S n) (VObj p) RAW (VObj p) st = Ok (VObj t) st.
Proof.
  intros H Hm. cbn [js_get]. rewrite H.
  destruct coll; unfold collection_get, createGetter; rewrite ?mode_of_mode, Hm; simpl;
    by rewrite bool_decide_eq_true_2.
Qed.

(** ** Well-formed states *)

Lemma proxyMap_set_lookup m t p st : proxyMap m (proxyMap_set m t p st) !! t = Some p.
Proof. destruct m; simpl; apply lookup_insert_eq. Qed.

Lemma proxyMap_set_heap m t p st : heap (proxyMap_set m t p st) = heap st.
Proof. done. Qed.

Lemma proxyMap_set_lookup_ne m m' t t' p st :
  ¬ (m' = m ∧ t' = t) → proxyMap m' (proxyMap_set m t p st) !! t' = proxyMap m' st !! t'.
Proof.
  intros Hne. destruct m, m'; simpl; try done;
    (destruct (decide (t' = t)) as [->|]; [by destruct Hne|]);
    by rewrite lookup_insert_ne.
Qed.

Lemma proxyMap_set_heap_map m f st : proxyMap m (set_heap f st) = proxyMap m st.
Proof. by destruct m. Qed.

(** [track] always returns on a well-formed state, and leaves the heap and
    the proxy maps alone. *)
Lemma trackEffects_total di st :
  is_Some (deps st !! di) → is_Some (activeEffect st) →
  ∃ st', trackEffects di st = Ok tt st'
         ∧ heap st' = heap st ∧ ∀ m, proxyMap m st' = proxyMap m st.
Proof.
  intros [d Hd] [e He]. unfold trackEffects. rewrite Hd, He.
  destruct (effectTrackDepth st <=? maxMarkerBits)%nat;
    [destruct (negb (newTracked d (trackOpBit st))); [destruct (negb (wasTracked d (trackOpBit st)))|]
    |destruct (negb (bool_decide (e ∈ d_subs d)))];
    eexists; (split; [reflexivity|]); split; try done; by intros [].
Qed.

Lemma track_total t key st :
  deps_wf st →
  ∃ st', track t key st = Ok tt st'
         ∧ heap st' = heap st ∧ ∀ m, proxyMap m st' = proxyMap m st.
Proof.
  intros Hwf. unfold track.
  destruct (isTracking st) eqn:Htr; simpl.
  2: { exists st. done. }
  assert (is_Some (activeEffect st)) as Hact.
  { unfold isTracking in Htr. apply andb_true_iff in Htr as [_ Htr].
    by apply bool_decide_eq_true in Htr. }
  destruct (assoc_get key (depsMap_of t (add_log (EvTrack t key) st))) as [di|] eqn:Hk.
  - destruct (trackEffects_total di (add_log (EvTrack t key) st)) as (st' & H1 & H2 & H3).
    + unfold depsMap_of in Hk. simpl in Hk.
      destruct (targetMap st !! t) as [dm|] eqn:Htm; [|done].
      simpl. eapply Hwf; eauto.
    + done.
    + exists st'. done.
  - unfold bind, createDep, modify.
    match goal with |- context [trackEffects ?d ?s] =>
      destruct (trackEffects_total d s) as (st' & H1 & H2 & H3) end.
    + simpl. rewrite lookup_insert_eq. eauto.
    + done.
    + exists st'. split; [done|]. split; [rewrite H2; done|].
      intros m. rewrite H3. by destruct m.
Qed.

Lemma underlying_raw n a o st :
  heap st !! a = Some (CRaw o) → underlying (S n) st a = Some o.
Proof. intros H. simpl. by rewrite H. Qed.

Lemma underlying_proxy n p t m coll st :
  heap st !! p = Some (CProxy t m coll) → underlying (S n) st p = underlying n st t.
Proof. intros H. simpl. by rewrite H. Qed.

(** ** Wrapping a target *)

(** What the first call of a constructor on a wrappable target does: it
    hands out the proxy already in the map of the mode, or makes one. *)
Lemma wrap_target_eq n m x o st :
  wrappable st x o →
  wrap (S (S (S n))) m (VObj x) st =
  match proxyMap m st !! x with
  | Some p => Ok (VObj p) st
  | None =>
      let p := fresh (heap st) in
      Ok (VObj p) (proxyMap_set m x p
                     (set_heap (insert p (CProxy x m (is_collection o))) st))
  end.
Proof.
  intros (Hx & Hext & Hty & Hraw & Hskip & Hro).
  assert (wrap (S (S (S n))) m (VObj x) st = createReactiveObject (S (S n)) (VObj x) m st) as ->.
  { destruct m; try done. cbn [wrap]. unfold bind at 1. cbn [truthy].
    rewrite (js_get_flag _ _ _ _ _ _ Hx) by flag_key. rewrite Hro. done. }
  cbn [createReactiveObject]. unfold bind at 1.
  rewrite (js_get_flag _ _ _ _ _ _ Hx) by flag_key. rewrite Hraw. unfold bind at 1, ret at 1.
  destruct (proxyMap m st !! x) as [p|] eqn:Hp; [done|].
  unfold bind at 1. rewrite (js_get_flag _ _ _ _ _ _ Hx) by flag_key. rewrite Hskip.
  rewrite (underlying_raw _ _ _ _ Hx), Hext. simpl. unfold is_collection.
  destruct (targetTypeMap (o_type o)); done.
Qed.

Lemma wrap_target n m x o st :
  wrappable st x o → maps_wf st →
  ∃ p st1,
    wrap (S (S (S n))) m (VObj x) st = Ok (VObj p) st1
    ∧ heap st1 !! p = Some (CProxy x m (is_collection o))
    ∧ proxyMap m st1 !! x = Some p
    ∧ maps_wf st1
    ∧ (∀ a c, heap st !! a = Some c → heap st1 !! a = Some c)
    ∧ targetMap st1 = targetMap st ∧ deps st1 = deps st.
Proof.
  intros Hw Hwf. rewrite (wrap_target_eq n m x o st Hw).
  destruct Hw as (Hx & Hext & Hty & Hraw & Hskip & Hro).
  destruct (proxyMap m st !! x) as [p|] eqn:Hp.
  - destruct (Hwf _ _ _ Hp) as (coll & Hc & Hcoll). rewrite (Hcoll _ Hx) in Hc.
    exists p, st. done.
  - eexists (fresh (heap st)), _. split; [reflexivity|].
    assert (heap st !! fresh (heap st) = None) as Hfresh by apply fresh_None.
    split; [rewrite proxyMap_set_heap; simpl; apply lookup_insert_eq|].
    split; [apply proxyMap_set_lookup|].
    split.
    { intros m' t p'.
      destruct (decide (m' = m ∧ t = x)) as [[-> ->]|Hne].
      - rewrite proxyMap_set_lookup. intros [= <-]. eexists. simpl.
        split; [apply lookup_insert_eq|].
        intros o'. rewrite lookup_insert_ne; [|intros Heq; by rewrite Heq, Hx in Hfresh].
        rewrite Hx. by intros [= <-].
      - intros Hl.
        assert (proxyMap m' st !! t = Some p') as Hl'.
        { by rewrite proxyMap_set_lookup_ne, proxyMap_set_heap_map in Hl. }
        destruct (Hwf _ _ _ Hl') as (coll & Hc & Hcoll). exists coll. simpl.
        split.
        + rewrite lookup_insert_ne; [done|]. intros Heq. rewrite <- Heq in Hc.
          by rewrite Hfresh in Hc.
        + intros o'. destruct (decide (fresh (heap st) = t)) as [<-|Hn].
          * by rewrite lookup_insert_eq.
          * rewrite lookup_insert_ne by done. apply Hcoll. }
    split.
    { intros a c Ha. simpl. rewrite lookup_insert_ne; [done|]. intros Heq.
      rewrite <- Heq in Ha. by rewrite Hfresh in Ha. }
    done.
Qed.

Lemma falsy_not_object v : truthy v = false → isObject v = false.
Proof. by destruct v. Qed.

(** Reading [__v_skip] through a proxy with the base handlers: the read
    reaches the target, and is tracked when the proxy is not readonly. *)
Lemma js_get_SKIP_through n p x m o st :
  heap st !! p = Some (CProxy x m false) → heap st !! x = Some (CRaw o) →
  truthy (raw_get o SKIP) = false → deps_wf st →
  ∃ st', js_get (S (S n)) (VObj p) SKIP (VObj p) st = Ok (raw_get o SKIP) st'
         ∧ heap st' = heap st ∧ ∀ m', proxyMap m' st' = proxyMap m' st.
Proof.
  intros Hp Hx Hskip Hwf.
  cbn [js_get]. rewrite Hp. unfold createGetter.
  change (bool_decide (SKIP = IS_REACTIVE)) with false.
  change (bool_decide (SKIP = IS_READONLY)) with false.
  change (bool_decide (SKIP = RAW)) with false.
  cbn [andb]. rewrite (underlying_raw _ _ _ _ Hx).
  change (arrayInstrumentations_hasOwn SKIP) with false.
  rewrite andb_false_r.
  unfold bind at 1. rewrite Hx. rewrite (raw_read_flag o SKIP) by flag_key.
  change (isSymbol SKIP) with false. change (isNonTrackableKeys SKIP) with false.
  cbn iota.
  assert (∃ st', (if negb (mode_isReadonly m) then track x SKIP else ret tt) st = Ok tt st'
                 ∧ heap st' = heap st ∧ ∀ m', proxyMap m' st' = proxyMap m' st)
    as (st' & Ht & Hh & Hm).
  { destruct (negb (mode_isReadonly m)); [by apply track_total|]. by exists st. }
  unfold bind at 1. rewrite Ht.
  exists st'. split; [|done].
  destruct (mode_shallow m); [done|].
  rewrite Hskip. unfold bind at 1, ret at 1.
  change (bool_decide (VUndef = VBool true)) with false. cbn iota.
  by rewrite (falsy_not_object _ Hskip).
Qed.

(** A constructor applied to a proxy returns the proxy, and changes nothing,
    unless it is a readonly constructor applied to a proxy that is not
    readonly. *)
Lemma wrap_proxy_returned n m2 p x m1 coll st :
  heap st !! p = Some (CProxy x m1 coll) → proxyMap m1 st !! x = Some p →
  mode_isReadonly m2 = false ∨ mode_isReadonly m1 = true →
  wrap (S (S (S n))) m2 (VObj p) st = Ok (VObj p) st.
Proof.
  intros Hp Hm Hmode.
  assert (createReactiveObject (S (S n)) (VObj p) m2 st = Ok (VObj p) st) as Hc.
  { cbn [createReactiveObject]. unfold bind at 1.
    rewrite (js_get_RAW _ _ _ _ _ _ Hp Hm). cbn [truthy].
    destruct (mode_isReadonly m2) eqn:Hro.
    - destruct Hmode as [|Hro1]; [done|].
      unfold bind at 1. unfold bind at 1.
      rewrite (js_get_IS_REACTIVE _ _ _ _ _ _ _ Hp), Hro1. done.
    - done. }
  destruct m2; try done.
  cbn [wrap]. unfold bind at 1. cbn [truthy].
  rewrite (js_get_IS_READONLY _ _ _ _ _ _ _ Hp).
  destruct (mode_isReadonly m1); [done|]. exact Hc.
Qed.

(** A readonly constructor applied to a proxy that is not readonly makes (or
    finds in its map) a second proxy, whose target is the first. *)
Lemma wrap_readonly_over n m2 p x m1 o st :
  heap st !! p = Some (CProxy x m1 false) → proxyMap m1 st !! x = Some p →
  mode_isReadonly m1 = false → mode_isReadonly m2 = true →
  heap st !! x = Some (CRaw o) → o_ext o = true → targetTypeMap (o_type o) = COMMON →
  truthy (raw_get o SKIP) = false →
  maps_wf st → deps_wf st →
  ∃ q st2 coll,
    wrap (S (S (S (S n)))) m2 (VObj p) st = Ok (VObj q) st2
    ∧ heap st2 !! q = Some (CProxy p m2 coll)
    ∧ proxyMap m2 st2 !! p = Some q
    ∧ q ≠ p
    ∧ (∀ a c, heap st !! a = Some c → heap st2 !! a = Some c)
    ∧ (∀ m t p', proxyMap m st !! t = Some p' → proxyMap m st2 !! t = Some p').
Proof.
  intros Hp Hm Hro1 Hro2 Hx Hext Hty Hskip Hwf Hdwf.
  assert (wrap (S (S (S (S n)))) m2 (VObj p) st
          = createReactiveObject (S (S (S n))) (VObj p) m2 st) as ->.
  { by destruct m2. }
  cbn [createReactiveObject]. unfold bind at 1.
  rewrite (js_get_RAW _ _ _ _ _ _ Hp Hm). cbn [truthy]. rewrite Hro2.
  unfold bind at 1. unfold bind at 1.
  rewrite (js_get_IS_REACTIVE _ _ _ _ _ _ _ Hp), Hro1.
  unfold ret at 1. cbn [negb truthy]. unfold ret at 1. cbn iota.
  destruct (proxyMap m2 st !! p) as [q|] eqn:Hq.
  - destruct (Hwf _ _ _ Hq) as (coll & Hc & _). exists q, st, coll.
    repeat split; try done. intros ->. rewrite Hp in Hc. injection Hc as <- <- <-.
    congruence.
  - destruct (js_get_SKIP_through n p x m1 o st Hp Hx Hskip Hdwf) as (st' & Hg & Hh & Hmaps).
    unfold bind at 1. rewrite Hg. rewrite Hskip.
    assert (underlying (S (S n)) st' p = Some o) as ->.
    { cbn [underlying]. rewrite Hh, Hp, Hx. done. }
    rewrite Hext, Hty. cbn [orb negb].
    unfold bind, alloc, modify, ret.
    assert (heap st' !! fresh (heap st') = None) as Hfresh by apply fresh_None.
    eexists (fresh (heap st')), _, false. split; [reflexivity|].
    split; [rewrite proxyMap_set_heap; simpl; apply lookup_insert_eq|].
    split; [apply proxyMap_set_lookup|].
    split. { intros Heq. rewrite Heq, Hh, Hp in Hfresh. done. }
    split.
    { intros a c Ha. simpl. rewrite lookup_insert_ne; [by rewrite Hh|].
      intros Heq. rewrite Heq, Hh, Ha in Hfresh. done. }
    intros m t p' Hl. rewrite proxyMap_set_lookup_ne.
    + rewrite proxyMap_set_heap_map, Hmaps. done.
    + intros [-> ->]. rewrite Hq in Hl. done.
Qed.

Lemma toRaw_wraps st k v x n :
  wraps st k v x → toRaw (S (S (k + n))) v st = Ok (VObj x) st.
Proof.
  induction 1 as [x o Hx Hraw|k p t m coll x Hp Hm _ IH].
  - cbn [toRaw truthy]. unfold bind at 1.
    rewrite (js_get_flag _ _ _ _ _ _ Hx) by flag_key. rewrite Hraw. done.
  - change (S (S (S k + n))) with (S (S (S (k + n)))).
    cbn [toRaw truthy]. unfold bind at 1.
    rewrite (js_get_RAW _ _ _ _ _ _ Hp Hm). cbn [truthy]. exact IH.
Qed.

Lemma wraps_mono st st' k v x :
  (∀ a c, heap st !! a = Some c → heap st' !! a = Some c) →
  (∀ m t p, proxyMap m st !! t = Some p → proxyMap m st' !! t = Some p) →
  wraps st k v x → wraps st' k v x.
Proof.
  intros Hh Hm. induction 1; econstructor; eauto.
Qed.

(** ** The constructors of reactive.ts are idempotent *)

(** C5. Wrapping twice equals wrapping once: for a wrappable target [x] and
    a mode [m], the constructor of [m] returns a proxy [p], and applied to
    [p] it returns [p] and changes nothing.  More generally every
    constructor returns [p] unchanged, except a readonly constructor when
    [m] is not readonly: on an object or an array that one returns a
    distinct proxy [q] whose target is [p], and is idempotent on [q]. *)
Theorem wrapping_is_idempotent n m x o st :
  wrappable st x o → maps_wf st → deps_wf st →
  ∃ p st1,
    wrap (4 + n) m (VObj x) st = Ok (VObj p) st1
    ∧ wrap (4 + n) m (VObj p) st1 = Ok (VObj p) st1
    ∧ wrap (4 + n) m (VObj x) st1 = Ok (VObj p) st1
    ∧ (∀ m2, mode_isReadonly m2 = false ∨ mode_isReadonly m = true →
         wrap (4 + n) m2 (VObj p) st1 = Ok (VObj p) st1)
    ∧ (∀ m2, mode_isReadonly m2 = true → mode_isReadonly m = false →
         targetTypeMap (o_type o) = COMMON →
         ∃ q st2 coll,
           wrap (4 + n) m2 (VObj p) st1 = Ok (VObj q) st2
           ∧ q ≠ p
           ∧ heap st2 !! q = Some (CProxy p m2 coll)
           ∧ wrap (4 + n) m2 (VObj q) st2 = Ok (VObj q) st2).
Proof.
  intros Hw Hwf Hdwf.
  destruct (wrap_target (S n) m x o st Hw Hwf)
    as (p & st1 & Hwrap & Hp & Hm & Hwf1 & Hheap & Htm & Hdeps).
  exists p, st1. split; [exact Hwrap|].
  split.
  { apply (wrap_proxy_returned (S n) m p x m _ st1 Hp Hm). destruct (mode_isReadonly m); auto. }
  split.
  { change (4 + n)%nat with (S (S (S (S n)))).
    rewrite (wrap_target_eq (S n) m x o st1), Hm; [done|].
    destruct Hw as (Hx & Hw). split; [by apply Hheap|exact Hw]. }
  split. { intros m2 Hmode. by apply (wrap_proxy_returned (S n) m2 p x m _ st1 Hp Hm). }
  intros m2 Hro2 Hro1 Hty.
  destruct Hw as (Hx & Hext & _ & _ & Hskip & _).
  assert (is_collection o = false) as Hcoll by (unfold is_collection; by rewrite Hty).
  rewrite Hcoll in Hp.
  destruct (wrap_readonly_over n m2 p x m o st1 Hp Hm Hro1 Hro2 (Hheap _ _ Hx) Hext Hty Hskip Hwf1)
    as (q & st2 & coll & Hwrap2 & Hq & Hmq & Hne & _ & _).
  { intros t depsMap key di. rewrite Htm, Hdeps. apply Hdwf. }
  exists q, st2, coll. repeat split; try done.
  apply (wrap_proxy_returned (S n) m2 q p m2 _ st2 Hq Hmq). by right.
Qed.

(** [reactive] on the object of [one_object]. *)
Lemma wrapping_is_idempotent_witness :
  ∃ p st1,
    wrap 4 MReactive (VObj 0%nat) one_object = Ok (VObj p) st1
    ∧ wrap 4 MReactive (VObj p) st1 = Ok (VObj p) st1
    ∧ wrap 4 MReactive (VObj 0%nat) st1 = Ok (VObj p) st1
    ∧ (∀ m2, mode_isReadonly m2 = false ∨ mode_isReadonly MReactive = true →
         wrap 4 m2 (VObj p) st1 = Ok (VObj p) st1)
    ∧ (∀ m2, mode_isReadonly m2 = true → mode_isReadonly MReactive = false →
         targetTypeMap (o_type sample_object) = COMMON →
         ∃ q st2 coll,
           wrap 4 m2 (VObj p) st1 = Ok (VObj q) st2
           ∧ q ≠ p
           ∧ heap st2 !! q = Some (CProxy p m2 coll)
           ∧ wrap 4 m2 (VObj q) st2 = Ok (VObj q) st2).
Proof.
  apply (wrapping_is_idempotent 0 MReactive 0%nat sample_object one_object).
  - by repeat split.
  - intros [] t p; simpl; by rewrite lookup_empty.
  - intros t depsMap key di. simpl. by rewrite lookup_empty.
Defined.

(** ** [toRaw] *)

(** C6. For a wrappable object [x], [toRaw] of the proxy a constructor
    returns for [x] is [x] itself; [toRaw] of the readonly proxy made over
    a proxy that is not readonly is [x] too; and [toRaw] takes any number
    [k] of proxy layers off, back to the object underneath. *)
Theorem toRaw_unwraps_every_layer n m x o st :
  wrappable st x o → maps_wf st → deps_wf st →
  (∃ p st1,
     wrap (4 + n) m (VObj x) st = Ok (VObj p) st1
     ∧ toRaw (4 + n) (VObj p) st1 = Ok (VObj x) st1
     ∧ (∀ m2, mode_isReadonly m2 = true → mode_isReadonly m = false →
          targetTypeMap (o_type o) = COMMON →
          ∃ q st2,
            wrap (4 + n) m2 (VObj p) st1 = Ok (VObj q) st2
            ∧ toRaw (4 + n) (VObj q) st2 = Ok (VObj x) st2))
  ∧ (∀ k v, wraps st k v x → toRaw (2 + k + n) v st = Ok (VObj x) st).
Proof.
  intros Hw Hwf Hdwf. split; [|intros k v Hk; by apply toRaw_wraps].
  destruct (wrap_target (S n) m x o st Hw Hwf)
    as (p & st1 & Hwrap & Hp & Hm & Hwf1 & Hheap & Htm & Hdeps).
  destruct Hw as (Hx & Hext & _ & Hraw & Hskip & _).
  assert (wraps st1 1 (VObj p) x) as Hwraps.
  { eapply wraps_proxy; eauto. eapply wraps_raw; eauto. }
  exists p, st1. split; [exact Hwrap|].
  split. { apply (toRaw_wraps st1 1 (VObj p) x (S n) Hwraps). }
  intros m2 Hro2 Hro1 Hty.
  assert (is_collection o = false) as Hcoll by (unfold is_collection; by rewrite Hty).
  rewrite Hcoll in Hp.
  destruct (wrap_readonly_over n m2 p x m o st1 Hp Hm Hro1 Hro2 (Hheap _ _ Hx) Hext Hty Hskip Hwf1)
    as (q & st2 & coll & Hwrap2 & Hq & Hmq & Hne & Hheap2 & Hmaps2).
  { intros t depsMap key di. rewrite Htm, Hdeps. apply Hdwf. }
  exists q, st2. split; [exact Hwrap2|].
  apply (toRaw_wraps st2 2 (VObj q) x n).
  eapply wraps_proxy; eauto. eapply wraps_mono; eauto.
Qed.

(** [toRaw] on the proxies of the object of [one_object]. *)
Lemma toRaw_unwraps_every_layer_witness :
  (∃ p st1,
     wrap 4 MReactive (VObj 0%nat) one_object = Ok (VObj p) st1
     ∧ toRaw 4 (VObj p) st1 = Ok (VObj 0%nat) st1
     ∧ (∀ m2, mode_isReadonly m2 = true → mode_isReadonly MReactive = false →
          targetTypeMap (o_type sample_object) = COMMON →
          ∃ q st2,
            wrap 4 m2 (VObj p) st1 = Ok (VObj q) st2
            ∧ toRaw 4 (VObj q) st2 = Ok (VObj 0%nat) st2))
  ∧ (∀ k v, wraps one_object k v 0%nat → toRaw (2 + k + 0) v one_object = Ok (VObj 0%nat) one_object).
Proof.
  apply (toRaw_unwraps_every_layer 0 MReactive 0%nat sample_object one_object).
  - by repeat split.
  - intros [] t p; simpl; by rewrite lookup_empty.
  - intros t depsMap key di. simpl. by rewrite lookup_empty.
Defined.

(** ** The readonly handlers *)

(** C7, as amended. On a readonly proxy of an object or an array (plain
    or shallow, also over another proxy), a set and a delete leave the whole
    state as it was: the target is unchanged, no Dep is made, no trigger is
    issued, and no user code runs (the result does not depend on [rec]).
    The set returns true, for every key and value.  The delete returns true
    unless the key is an own property of the underlying object [u] that
    cannot be reported as deleted while it is still there, the ["length"] of
    an array or any own key of an object that is not extensible: the Proxy
    then throws a TypeError. *)
Theorem readonly_write_is_a_noop rec n p t m u key v st :
  heap st !! p = Some (CProxy t m false) → mode_isReadonly m = true →
  underlying n st t = Some u →
  js_set rec n (VObj p) key v st = Ok true st
  ∧ js_delete rec n (VObj p) key st
    = (if raw_hasOwn u key && (negb (o_ext u) || obj_isArray u && bool_decide (key = LENGTH))
       then Exn TypeError st else Ok true st)
  ∧ (raw_hasOwn u key = false ∨ (o_ext u = true ∧ ¬ (obj_isArray u = true ∧ key = LENGTH)) →
     js_delete rec n (VObj p) key st = Ok true st).
Proof.
  intros Hp Hro Hu.
  assert (js_delete rec n (VObj p) key st
          = (if raw_hasOwn u key && (negb (o_ext u) || obj_isArray u && bool_decide (key = LENGTH))
             then Exn TypeError st else Ok true st)) as Hdel.
  { unfold js_delete. rewrite Hp, Hro. unfold delete_reported. by rewrite Hu. }
  split; [unfold js_set; by rewrite Hp, Hro|].
  split; [exact Hdel|].
  rewrite Hdel. intros [->|[-> Hlen]]; [done|].
  destruct (raw_hasOwn u key); [|done]. cbn [negb andb orb].
  destruct (obj_isArray u); [|done].
  rewrite bool_decide_eq_false_2; [done|]. intros ->. by apply Hlen.
Qed.

(** Writing and deleting [a] through the readonly proxy of [readonly_view]. *)
Lemma readonly_write_is_a_noop_witness :
  js_set (exec 0) 3 (VObj 1%nat) (KStr "a") (VNum 2) readonly_view = Ok true readonly_view
  ∧ js_delete (exec 0) 3 (VObj 1%nat) (KStr "a") readonly_view
    = (if raw_hasOwn sample_object (KStr "a")
          && (negb (o_ext sample_object)
              || obj_isArray sample_object && bool_decide (KStr "a" = LENGTH))
       then Exn TypeError readonly_view else Ok true readonly_view)
  ∧ (raw_hasOwn sample_object (KStr "a") = false
     ∨ (o_ext sample_object = true ∧ ¬ (obj_isArray sample_object = true ∧ KStr "a" = LENGTH)) →
     js_delete (exec 0) 3 (VObj 1%nat) (KStr "a") readonly_view = Ok true readonly_view).
Proof.
  apply (readonly_write_is_a_noop (exec 0) 3 1%nat 0%nat MReadonly sample_object); reflexivity.
Defined.

(** C7 as stated fails: the proxy [1] is the readonly proxy of the array
    [[1, 2, 3]], and the delete of its ["length"] does not return true: the
    trap of the readonly handlers returns true for a property that is not
    configurable, and the Proxy throws a TypeError.  The state is as it
    was. *)
Lemma readonly_delete_of_length_throws :
  heap readonly_list !! 0%nat = Some (CRaw (arr [VNum 1; VNum 2; VNum 3]))
  ∧ heap readonly_list !! 1%nat = Some (CProxy 0%nat MReadonly false)
  ∧ js_delete (exec 20) 10 (VObj 1%nat) LENGTH readonly_list = Exn TypeError readonly_list
  ∧ ∃ st', exec 20 (readonly_list_script (fun r => Delete r LENGTH (fun b => Done (VBool b)))) init
             = Exn TypeError st'
           ∧ st' = readonly_list.
Proof.
  do 3 (split; [vm_compute; reflexivity|]).
  eexists; split; vm_compute; reflexivity.
Qed.

(** ** The setter, and the batch of a trigger *)

Section Setter.

Variable rec : prog -> M value.


(** C9, as amended. A deep set on a mutable proxy whose target is not an
    array, where the new value is not readonly, the old value (unwrapped)
    is a Ref [r] and the new value (unwrapped) is not a Ref, is exactly the
    assignment of the new value to the [value] of [r], and returns true:
    the target is not written and [trigger] is not called for the key; what
    fires is what the Ref's own setter fires.  In particular, when nothing
    subscribes to the Ref the trace is unchanged. *)
Theorem set_on_ref_assigns_through n target key val receiver o v' r st :
  heap st !! target = Some (CRaw o) →
  obj_isArray o = false →
  isReadonly (S n) val st = Ok false st →
  toRaw (S n) val st = Ok v' st →
  toRaw (S n) (raw_get o key) st = Ok (VObj r) st →
  isRef (S n) (VObj r) st = Ok true st →
  isRef (S n) v' st = Ok false st →
  createSetter rec (S n) false target key val receiver st
    = (ref_set rec (S n) r v';; ret true) st
  ∧ (∀ inner, heap st !! r = Some (CRef inner None) → isObject v' = false →
       createSetter rec (S n) false target key val receiver st
         = Ok true (if hasChanged v' inner
                    then set_heap (insert r (CRef v' None)) st else st)).
Proof.
  intros Ht Harr Hro Hv Hold Href Hnref.
  assert (raw_read o key = Some (raw_get o key)) as Hread.
  { apply raw_read_own, raw_get_own. intros Hu. by rewrite Hu in Hold. }
  assert (createSetter rec (S n) false target key val receiver st
          = (ref_set rec (S n) r v';; ret true) st) as Heq.
  { unfold createSetter. unfold bind at 1. rewrite (js_get_raw _ _ _ _ _ _ _ Ht Hread).
    unfold bind at 1. rewrite Hro. cbn [negb andb].
    unfold bind at 1. unfold bind at 1. rewrite Hv.
    unfold bind at 1. rewrite Hold.
    unfold bind at 1.
    assert (isArray (S n) target st = false) as ->.
    { unfold isArray. by rewrite (underlying_raw _ _ _ _ Ht). }
    unfold bind at 1. rewrite Href. unfold bind at 1. rewrite Hnref.
    unfold ret at 1. cbn [negb].
    unfold bind. by destruct (ref_set rec (S n) r v' st). }
  split; [exact Heq|].
  intros inner Hr Hobj. rewrite Heq. unfold bind, ref_set. rewrite Hr.
  destruct (hasChanged v' inner); [|done].
  by rewrite Hobj.
Qed.

(** C3, as amended. [triggerEffects] has no handler around the call of an
    effect: when the effects before [e] in the batch return and the call of
    [e] throws, the exception leaves [triggerEffects] at once, in the state
    the throw left, and the effects after [e] are not called. *)
Theorem throwing_effect_ends_the_batch pre e rest x st st1 st2 :
  triggerEffects rec pre st = Ok tt st1 →
  triggerEffect rec e st1 = Exn x st2 →
  triggerEffects rec (pre ++ e :: rest) st = Exn x st2.
Proof.
  revert st. induction pre as [|e0 pre IH]; intros st Hpre He.
  - simpl in Hpre. injection Hpre as <-. simpl. unfold bind. by rewrite He.
  - simpl in *. unfold bind in *.
    destruct (triggerEffect rec e0 st) as [[] st0|x0 st0|w]; try done.
    by apply IH.
Qed.

End Setter.

(** ** The setter and the batch on sample states *)



(** Setting [s.r = 5] where [s.r] holds the Ref [0]. *)
Lemma set_on_ref_assigns_through_witness :
  createSetter (exec 20) 11 false 1%nat (KStr "r") (VNum 5) (VObj 3%nat) ref_holder
    = (ref_set (exec 20) 11 0%nat (VNum 5);; ret true) ref_holder
  ∧ (∀ inner, heap ref_holder !! 0%nat = Some (CRef inner None) → isObject (VNum 5) = false →
       createSetter (exec 20) 11 false 1%nat (KStr "r") (VNum 5) (VObj 3%nat) ref_holder
         = Ok true (if hasChanged (VNum 5) inner
                    then set_heap (insert 0%nat (CRef (VNum 5) None)) ref_holder
                    else ref_holder)).
Proof.
  apply (set_on_ref_assigns_through (exec 20) 10 1%nat (KStr "r") (VNum 5) (VObj 3%nat)
           (obj [(KStr "r", VObj 0%nat)]) (VNum 5) 0%nat ref_holder);
    vm_compute; reflexivity.
Defined.

(** C9 as stated fails: the proxy [3] is deep and mutable, its target is
    not an array, the old value is the Ref [0], and the new raw value (the
    object [2]) is not a Ref; but the new value is the readonly proxy [4],
    so the setter overwrites the key with it, leaves the Ref as it was, and
    triggers for the key. *)
Lemma readonly_value_replaces_the_ref :
  heap ref_holder !! 1%nat = Some (CRaw (obj [(KStr "r", VObj 0%nat)]))
  ∧ heap ref_holder !! 3%nat = Some (CProxy 1%nat MReactive false)
  ∧ isRef 10 (VObj 0%nat) ref_holder = Ok true ref_holder
  ∧ toRaw 10 (VObj 4%nat) ref_holder = Ok (VObj 2%nat) ref_holder
  ∧ isRef 10 (VObj 2%nat) ref_holder = Ok false ref_holder
  ∧ ∃ st', js_set (exec 20) 10 (VObj 3%nat) (KStr "r") (VObj 4%nat) ref_holder = Ok true st'
           ∧ heap st' !! 0%nat = heap ref_holder !! 0%nat
           ∧ heap st' !! 1%nat = Some (CRaw (obj [(KStr "r", VObj 4%nat)]))
           ∧ log st' = [EvTrack 1%nat (KStr "r"); EvFn 0%nat true;
                        EvTrigger 1%nat SET (Some (KStr "r"))] ++ log ref_holder.
Proof.
  do 5 (split; [vm_compute; reflexivity|]).
  eexists. do 3 (split; [vm_compute; reflexivity|]). vm_compute; reflexivity.
Qed.

(** The batch of the two readers of [s.a], after [x.a] has become 2. *)
Lemma throwing_effect_ends_the_batch_witness :
  triggerEffects (exec 20) ([] ++ 0%nat :: [1%nat]) throwing_reader_written = Exn (VStr "boom") throwing_reader_thrown.
Proof.
  apply (throwing_effect_ends_the_batch (exec 20) [] 0%nat [1%nat] (VStr "boom")
           throwing_reader_written throwing_reader_written throwing_reader_thrown); vm_compute; reflexivity.
Defined.

(** C3 as stated fails: both effects subscribe to [(x, "a")], the set of
    [s.a] to 2 throws out of the first, and the second is not run: after
    the trigger the trace has the entry of effect [0] only. *)
Lemma throwing_effect_starves_the_batch :
  dep_subs 0%nat throwing_reader = [0%nat; 1%nat]
  ∧ ∃ st', js_set (exec 20) 10 (VObj 1%nat) (KStr "a") (VNum 2) throwing_reader
             = Exn (VStr "boom") st'
           ∧ log st' = [EvTrack 0%nat (KStr "a"); EvFn 0%nat true;
                        EvTrigger 0%nat SET (Some (KStr "a"))] ++ log throwing_reader.
Proof.
  split; [vm_compute; reflexivity|].
  eexists; split; vm_compute; reflexivity.
Qed.

(** ** The ["length"] branch of [trigger] *)

Lemma length_deps_filter n depsMap st :
  Forall (fun kd => modelled_key n kd.1) depsMap →
  length_deps depsMap (VNum n) st
  = Ok (map (fun kd => Some kd.2) (filter (fun kd => length_fires n kd.1 = true) depsMap)) st.
Proof.
  induction 1 as [|[key di] rest Hk _ IH]; [done|]. simpl in Hk.
  cbn [length_deps]. unfold bind at 1.
  assert ((if bool_decide (key = LENGTH) then ret true else key_ge key (VNum n)) st
          = Ok (length_fires n key) st) as ->.
  { unfold length_fires. destruct (bool_decide (key = LENGTH)) eqn:Hl; [done|].
    destruct Hk as [->|(s & -> & [b Hb])]; [done|].
    simpl. unfold numeric_ge in *. unfold key_ge.
    destruct (StringToNumber s) as [x|]; [|done].
    rewrite Hb. done. }
  unfold bind at 1. rewrite IH. unfold ret.
  rewrite filter_cons. simpl. destruct (length_fires n key); done.
Qed.

Lemma index_key_numeric s i :
  index_of_key (KStr s) = Some i → StringToNumber s = Some (JInt (Z.of_nat i)).
Proof.
  intros Hi. assert (parse_digits s 0 = Some i) as Hd.
  { destruct s as [|c s']; [done|]. unfold index_of_key in Hi.
    destruct (bool_decide (c = "0"%char)) eqn:Hc; [|done].
    apply bool_decide_eq_true in Hc as ->.
    destruct (bool_decide (s' = EmptyString)) eqn:Hs; [|done].
    apply bool_decide_eq_true in Hs as ->. by injection Hi as <-. }
  unfold StringToNumber. by rewrite Hd.
Qed.

Lemma index_key_fires n key i :
  index_of_key key = Some i → length_fires n key = (n <=? Z.of_nat i).
Proof.
  intros Hi. destruct key as [s|]; [|done].
  unfold length_fires, numeric_ge. rewrite (index_key_numeric _ _ Hi). simpl.
  destruct (bool_decide (KStr s = LENGTH)) eqn:Hl; [|done].
  apply bool_decide_eq_true in Hl. injection Hl as ->. done.
Qed.

Lemma elem_of_dedup_subs e l : e ∈ dedup_subs l ↔ e ∈ l.
Proof.
  unfold dedup_subs.
  assert (∀ acc, e ∈ foldl (fun acc e => subs_add e acc) acc l ↔ e ∈ acc ∨ e ∈ l) as H.
  { induction l as [|x l IH]; intros acc; simpl.
    - split; [by left|]. intros [|H]; [done|]. by apply elem_of_nil in H.
    - rewrite IH. unfold subs_add. destruct (bool_decide (x ∈ acc)) eqn:Hx.
      + apply bool_decide_eq_true in Hx. rewrite elem_of_cons. split.
        * intros [|]; auto.
        * intros [|[->|]]; auto.
      + rewrite elem_of_app, !elem_of_cons. pose proof (not_elem_of_nil e). tauto. }
  rewrite H. split; [intros [Hn|]; [by apply elem_of_nil in Hn|done]|by right].
Qed.

Lemma elem_of_batch_of e di dl st :
  di ∈ dl → e ∈ dep_subs di st → e ∈ batch_of dl st.
Proof.
  intros Hdi He.
  assert (e ∈ dedup_subs (concat (map (fun di => dep_subs di st) dl))) as Hd.
  { apply elem_of_dedup_subs. apply list_elem_of_In, in_concat.
    exists (dep_subs di st). split; [|by apply list_elem_of_In].
    apply in_map_iff. exists di. split; [done|by apply list_elem_of_In]. }
  unfold batch_of. destruct dl as [|d1 [|d2 dl]]; try done.
  apply list_elem_of_singleton in Hdi as ->. done.
Qed.

(** The comparison is modelled on every ASCII string key when the new
    length is a length. *)
Lemma ascii_key_modelled n key :
  ascii_key key = true → 0 <= n < 2 ^ 32 → modelled_key n key.
Proof.
  intros Hk Hn. destruct key as [s|]; [|done]. right. exists s. split; [done|].
  unfold numeric_ge, StringToNumber. destruct (parse_digits s 0); [by eexists|].
  simpl in Hk. rewrite Hk.
  destruct (numeric_literal _) as [z|neg m p| | |]; try (by eexists).
  unfold num_ge. destruct (m =? 0); [by eexists|].
  destruct neg.
  - destruct (0 <? n) eqn:Hpos; [by eexists|].
    apply Z.ltb_ge in Hpos. assert (n = 0) as -> by lia. by eexists.
  - destruct (n <=? 0); [by eexists|].
    assert ((n <? 2 ^ 52) = true) as ->; [|by eexists].
    apply Z.ltb_lt. change (2 ^ 52) with 4503599627370496.
    change (2 ^ 32) with 4294967296 in Hn. lia.
Qed.

(** C8 as stated fails: ["Infinity"] is neither ["length"] nor an integer
    index, but [trigger] compares keys as numbers, so setting the length to
    2 runs the effect [1] that read [s["Infinity"]] (after the effect [0]
    that read [s[3]]; the effect [2] that read [s[1]] is not run). *)
Lemma non_index_key_fires_on_length :
  isIntegerKey (KStr "Infinity") = false
  ∧ bool_decide (KStr "Infinity" = LENGTH) = false
  ∧ depsMap_of 0%nat array_readers = array_readers_depsMap
  ∧ dep_subs 1%nat array_readers = [1%nat]
  ∧ ∃ st', js_set (exec 20) 10 (VObj 1%nat) LENGTH (VNum 2) array_readers = Ok true st'
           ∧ log st' = [EvTrack 0%nat (KStr "Infinity"); EvFn 1%nat true;
                        EvTrack 0%nat (KStr "3"); EvFn 0%nat true;
                        EvTrigger 0%nat SET (Some LENGTH)] ++ log array_readers.
Proof.
  do 4 (split; [vm_compute; reflexivity|]).
  eexists; split; vm_compute; reflexivity.
Qed.

(** When a symbol key is tracked on the array, the comparison of the
    ["length"] branch throws a TypeError: the set leaves the new length
    written and no effect is run, not even the one that read the length. *)
Lemma symbol_key_breaks_length_trigger :
  depsMap_of 0%nat symbol_reader = [(LENGTH, 0%nat); (KSym (SymUser 0), 1%nat)]
  ∧ dep_subs 0%nat symbol_reader = [0%nat]
  ∧ ∃ st', js_set (exec 20) 10 (VObj 1%nat) LENGTH (VNum 1) symbol_reader
             = Exn TypeError st'
           ∧ heap st' !! 0%nat = Some (CRaw (arr [VNum 1]))
           ∧ log st' = [EvTrigger 0%nat SET (Some LENGTH)] ++ log symbol_reader.
Proof.
  do 2 (split; [vm_compute; reflexivity|]).
  eexists. do 2 (split; [vm_compute; reflexivity|]). vm_compute; reflexivity.
Qed.

Lemma shrink_reruns_the_reader :
  ∃ st', exec 20 shrink_scenario init = Ok VUndef st'
         ∧ log st' = [EvTrack 0%nat (KStr "3"); EvFn 0%nat true;
                      EvTrigger 0%nat SET (Some LENGTH);
                      EvTrack 0%nat (KStr "3"); EvFn 0%nat true].
Proof. eexists; split; vm_compute; reflexivity. Qed.

(** ** Entering the function of an effect *)

Lemma entries_none e S evs :
  e ∈ S → Forall (fn_entry_ok S) evs → entries e evs = 0%nat.
Proof.
  intros He. unfold entries. induction 1 as [|ev evs Hev _ IH]; [done|].
  rewrite filter_cons. destruct (decide (ev = EvFn e true)) as [->|]; [|done].
  by destruct Hev.
Qed.

Lemma entries_app e evs1 evs2 : entries e (evs1 ++ evs2) = (entries e evs1 + entries e evs2)%nat.
Proof. unfold entries. by rewrite filter_app, length_app. Qed.

(** A run of an active effect that is not on the stack enters its function
    once, with the effect on the stack; nothing that happens before the run
    returns enters the function of an active effect of the stack. *)
Lemma run_enters_once fuel e y st :
  effects st !! e = Some y → e_active y = true → e ∉ effectStack st →
  run (exec fuel) e st
    = try_finally (run_enter e;; modify (add_log (EvFn e true));; exec fuel (e_fn y))
        (run_finally e) st
  ∧ match run (exec fuel) e st with
    | Ok _ st' | Exn _ st' =>
        ∃ evs, log st' = evs ++ EvFn e true :: log st
               ∧ Forall (fn_entry_ok (e :: effectStack st)) evs
    | Abort _ => True
    end.
Proof.
  intros He Hact Hstk.
  assert (run (exec fuel) e st
          = try_finally (run_enter e;; modify (add_log (EvFn e true));; exec fuel (e_fn y))
              (run_finally e) st) as Heq.
  { unfold run. rewrite He, Hact. cbn [negb]. by rewrite bool_decide_eq_false_2. }
  split; [exact Heq|]. rewrite Heq. unfold try_finally.
  destruct (run_enter_spec e st) as (st1 & Hen & Hs1 & Hl1).
  unfold bind at 1. rewrite Hen. unfold bind at 1, modify at 1.
  pose proof (pres_exec fuel (e_fn y) (add_log (EvFn e true) st1)) as H.
  destruct (exec fuel (e_fn y) (add_log (EvFn e true) st1)) as [v st2|ex st2|w];
    [| |exact I]; simpl in H.
  all: destruct H as [Hs (evs & Hl & Hf)]; simpl in Hs, Hl, Hf.
  all: destruct (run_finally_spec e st2) as [_ Hl'].
  all: exists evs; split; [by rewrite Hl', Hl, Hl1|by rewrite Hs1 in Hf].
Qed.

(** C10. [effect(r, options)] for a runner [r] is [effect(r.effect.fn,
    options)]: the new effect is built around the user function of the
    effect of [r], not around [r].  Made lazily, the new effect [e] is
    distinct from that of [r]; a run of its runner is the [run] of [e] on
    the user function, and between the start and the end of that run the
    function is entered once as that of [e] (the entry [EvFn e true] that
    [run] makes; there is no other). *)
Theorem effect_of_runner_wraps_the_user_fn fuel r x opts st :
  effects st !! r = Some x →
  effect (exec fuel) (FnRunner r) opts st = effect (exec fuel) (FnUser (e_fn x)) opts st
  ∧ ∀ o, opts = Some o → opt_lazy o = true →
      let e := fresh (effects st) in
      let y := mkEffect (e_fn x) (opt_scheduler o) true [] (opt_allowRecurse o) (opt_onStop o) in
      let st1 := set_effects (insert e y) st in
      effect (exec fuel) (FnRunner r) opts st = Ok e st1
      ∧ e ≠ r
      ∧ (e ∉ effectStack st →
         run (exec fuel) e st1
           = try_finally (run_enter e;; modify (add_log (EvFn e true));; exec fuel (e_fn x))
               (run_finally e) st1
         ∧ match run (exec fuel) e st1 with
           | Ok _ st2 | Exn _ st2 =>
               ∃ evs, log st2 = evs ++ EvFn e true :: log st1 ∧ entries e evs = 0%nat
           | Abort _ => True
           end).
Proof.
  intros Hr.
  assert (effect (exec fuel) (FnRunner r) opts st
          = effect (exec fuel) (FnUser (e_fn x)) opts st) as Heq.
  { unfold effect. by rewrite Hr. }
  split; [exact Heq|]. intros o -> Hlazy e y st1.
  split. { rewrite Heq. unfold effect. rewrite Hlazy. done. }
  split. { intros Her. pose proof (fresh_None (effects st)) as Hf. fold e in Hf.
           rewrite Her, Hr in Hf. done. }
  intros Hstk.
  assert (effects st1 !! e = Some y) as He by apply lookup_insert_eq.
  destruct (run_enters_once fuel e y st1 He eq_refl Hstk) as [Hrun Hlog].
  split; [exact Hrun|].
  destruct (run (exec fuel) e st1) as [v st2|ex st2|w]; [| |exact I].
  all: destruct Hlog as (evs & Hl & Hf); exists evs; split; [done|].
  all: eapply entries_none; [|exact Hf]; by left.
Qed.

(** [effect(r, {lazy: true})] on the runner [r] of [lazy_reader]. *)
Lemma effect_of_runner_wraps_the_user_fn_witness :
  effect (exec 20) (FnRunner 0%nat) (Some lazy_options) lazy_reader
    = effect (exec 20) (FnUser (e_fn lazy_reader_effect)) (Some lazy_options) lazy_reader
  ∧ ∀ o, Some lazy_options = Some o → opt_lazy o = true →
      let e := fresh (effects lazy_reader) in
      let y := mkEffect (e_fn lazy_reader_effect) (opt_scheduler o) true [] (opt_allowRecurse o)
                 (opt_onStop o) in
      let st1 := set_effects (insert e y) lazy_reader in
      effect (exec 20) (FnRunner 0%nat) (Some lazy_options) lazy_reader = Ok e st1
      ∧ e ≠ 0%nat
      ∧ (e ∉ effectStack lazy_reader →
         run (exec 20) e st1
           = try_finally (run_enter e;; modify (add_log (EvFn e true));;
                          exec 20 (e_fn lazy_reader_effect))
               (run_finally e) st1
         ∧ match run (exec 20) e st1 with
           | Ok _ st2 | Exn _ st2 =>
               ∃ evs, log st2 = evs ++ EvFn e true :: log st1 ∧ entries e evs = 0%nat
           | Abort _ => True
           end).
Proof.
  apply (effect_of_runner_wraps_the_user_fn 20 0%nat lazy_reader_effect (Some lazy_options) lazy_reader).
  vm_compute; reflexivity.
Defined.

(** ** Triggers inside a running effect *)

(** C2, as amended. Whatever a trigger runs, it never enters the function
    of an effect of the active-effect stack as an active effect: of the
    events the trigger adds to the trace none is [EvFn e true] for [e] on
    the stack, with or without [allowRecurse] (the entries it can make for
    such an [e] are [EvFn e false], the direct call that [run] makes when
    [e] has been stopped), and the stack is as before.  A batch that holds
    the running effect only, without [allowRecurse], is skipped whole, so an
    effect that writes what it reads does not loop: the script
    [effect(() => { s.n = s.n + 1 })] ends with [s.n] at 1 and one entry
    of the function. *)
Theorem trigger_never_reenters_an_active_effect fuel n target type key newValue st :
  match trigger (exec fuel) n target type key newValue st with
  | Ok _ st' | Exn _ st' =>
      effectStack st' = effectStack st
      ∧ ∃ evs, log st' = evs ++ log st
               ∧ ∀ e, e ∈ effectStack st → entries e evs = 0%nat
  | Abort _ => True
  end
  ∧ (∀ rec e x, activeEffect st = Some e → effects st !! e = Some x →
       e_allowRecurse x = false → triggerEffects rec [e] st = Ok tt st)
  ∧ ∃ st', exec 20 self_increment init = Ok (VNum 1) st'
           ∧ log st' = [EvTrigger 0%nat SET (Some (KStr "n"));
                        EvTrack 0%nat (KStr "n"); EvFn 0%nat true].
Proof.
  split; [|split].
  - pose proof (pres_trigger (exec fuel) (pres_exec fuel) n target type key newValue st) as H.
    destruct (trigger (exec fuel) n target type key newValue st) as [v st'|x st'|w];
      [| |exact I]; simpl in H.
    all: destruct H as [Hs (evs & Hl & Hf)]; split; [exact Hs|].
    all: exists evs; split; [exact Hl|]; intros e He; by eapply entries_none.
  - intros rec e x Hact He Hrec. simpl. unfold bind, triggerEffect.
    rewrite He, Hact, Hrec. by rewrite bool_decide_eq_true_2.
  - eexists; split; vm_compute; reflexivity.
Qed.

(** A trigger for [(x, "a")] while the reader of [s.a] runs. *)
Lemma trigger_never_reenters_an_active_effect_witness :
  triggerEffects (exec 0) [0%nat] lazy_reader_running = Ok tt lazy_reader_running.
Proof.
  apply (proj1 (proj2 (trigger_never_reenters_an_active_effect
                         0 0 0%nat SET None VUndef lazy_reader_running))
           (exec 0) 0%nat lazy_reader_effect); reflexivity.
Defined.

(** C2 as stated fails. In [self_stopping_inside] the stack holds the effects [1] and
    [0], the effect [0] has no [allowRecurse], and it has been stopped in
    its own run and has read [s.b] since; the write of [s.b] by the effect
    [1] triggers it, and [run] calls its function without looking at the
    stack.  The whole script shows the same from the start.  In the script
    with a scheduler, the effect [0] is on the stack (not on top) and is
    not stopped: the trigger of the write by the effect [1] does not skip
    it, it calls its scheduler. *)
Lemma stopped_effect_is_reentered :
  effectStack self_stopping_inside = [1%nat; 0%nat]
  ∧ (e_allowRecurse <$> effects self_stopping_inside !! 0%nat) = Some false
  ∧ (∃ st', js_set (exec 20) 10 (VObj 1%nat) (KStr "b") (VNum 5) self_stopping_inside = Ok true st'
            ∧ log st' = [EvTrack 0%nat (KStr "b"); EvFn 0%nat false;
                         EvTrigger 0%nat SET (Some (KStr "b"))] ++ log self_stopping_inside)
  ∧ (∃ st', exec 30 (self_stopping_script (CallRunner 0%nat (fun _ => Done VUndef))) init = Ok VUndef st'
            ∧ log st' = [EvTrack 0%nat (KStr "b"); EvFn 0%nat false;
                         EvTrigger 0%nat SET (Some (KStr "b")); EvFn 1%nat true;
                         EvTrack 0%nat (KStr "b"); EvFn 0%nat true])
  ∧ ∃ st', exec 30 (scheduled_script (CallRunner 0%nat (fun _ => Done VUndef))) init
             = Ok VUndef st'
           ∧ log st' = [EvScheduler 0%nat;
                        EvTrigger 0%nat SET (Some (KStr "b")); EvFn 1%nat true;
                        EvTrack 0%nat (KStr "b"); EvFn 0%nat true].
Proof.
  do 2 (split; [vm_compute; reflexivity|]).
  split; [|split]; eexists; split; vm_compute; reflexivity.
Qed.

(** ** Markers left by an effect stopped in its own run *)

(** The end of a run clears the markers of the Deps that are in the list of
    the effect at that time: none when the list has been emptied. *)
Lemma finalizeDepMarkers_empty e st :
  effect_deps e st = [] → finalizeDepMarkers e st = effect_update e (with_deps []) st.
Proof. intros H. unfold finalizeDepMarkers. by rewrite H. Qed.

(** C1 fails on this script. The effect [0] is stopped inside its second
    run: [cleanupEffect] empties its list, so the end of the run clears no
    marker, and the Dep of [(x, "a")] keeps the bits of level 1 in [w] and
    [n].  The effect [1], active, then runs at level 1 and reads [s.a]
    (the [EvTrack] after [EvFn 1 true]), but [trackEffects] takes the Dep
    for already tracked: after the run the list of the effect [1] is empty
    and the Dep does not hold it, and the last write of [s.a] runs
    nothing. *)
Lemma stale_markers_hide_a_read :
  ∃ st', exec 30 stop_then_read_script init = Ok VUndef st'
         ∧ log st' = [EvTrigger 0%nat SET (Some (KStr "a"));
                      EvTrack 0%nat (KStr "a"); EvFn 1%nat true;
                      EvTrack 0%nat (KStr "go"); EvTrack 0%nat (KStr "a"); EvFn 0%nat true;
                      EvTrigger 0%nat SET (Some (KStr "go"));
                      EvTrack 0%nat (KStr "go"); EvTrack 0%nat (KStr "a"); EvFn 0%nat true]
         ∧ (e_active <$> effects st' !! 1%nat) = Some true
         ∧ effect_deps 1%nat st' = []
         ∧ depsMap_of 0%nat st' = [(KStr "a", 0%nat); (KStr "go", 1%nat)]
         ∧ deps st' !! 0%nat = Some (mkDep [] 2 2).
Proof.
  eexists. do 5 (split; [vm_compute; reflexivity|]). vm_compute; reflexivity.
Qed.

(** * Further properties of the engine *)

(** ** The predicates and the constructors of reactive.ts *)

Lemma js_get_primitive_flag n v key recv st :
  isObject v = false → truthy v = true → key ∈ flag_keys →
  js_get (S n) v key recv st = Ok VUndef st.
Proof.
  intros Hobj Htr Hk. destruct v; try done; cbn [js_get];
    by rewrite bool_decide_eq_true_2.
Qed.

Lemma isReadonly_raw n a o st :
  heap st !! a = Some (CRaw o) →
  isReadonly (S n) (VObj a) st = Ok (truthy (raw_get o IS_READONLY)) st.
Proof.
  intros H. unfold isReadonly. cbn [truthy]. unfold bind.
  rewrite (js_get_flag _ _ _ _ _ _ H) by flag_key. done.
Qed.

Lemma isReadonly_proxy n p t m coll st :
  heap st !! p = Some (CProxy t m coll) →
  isReadonly (S n) (VObj p) st = Ok (mode_isReadonly m) st.
Proof.
  intros H. unfold isReadonly. cbn [truthy]. unfold bind.
  rewrite (js_get_IS_READONLY _ _ _ _ _ _ _ H). by destruct (mode_isReadonly m).
Qed.

Lemma isReadonly_primitive n v st :
  isObject v = false → isReadonly (S n) v st = Ok false st.
Proof.
  intros Hobj. unfold isReadonly. destruct (truthy v) eqn:Htr; [|done].
  unfold bind. rewrite js_get_primitive_flag; try done.
  unfold flag_keys. set_solver.
Qed.

Lemma isReactive_raw n a o st :
  heap st !! a = Some (CRaw o) → truthy (raw_get o IS_READONLY) = false →
  isReactive (S (S n)) (VObj a) st = Ok (truthy (raw_get o IS_REACTIVE)) st.
Proof.
  intros H Hro. cbn [isReactive]. unfold bind at 1.
  rewrite (isReadonly_raw _ _ _ _ H), Hro. cbn [truthy]. unfold bind.
  rewrite (js_get_flag _ _ _ _ _ _ H) by flag_key. done.
Qed.

Lemma isReactive_mutable_proxy n p t m coll st :
  heap st !! p = Some (CProxy t m coll) → mode_isReadonly m = false →
  isReactive (S (S n)) (VObj p) st = Ok true st.
Proof.
  intros H Hro. cbn [isReactive]. unfold bind at 1.
  rewrite (isReadonly_proxy _ _ _ _ _ _ H), Hro. cbn [truthy]. unfold bind.
  rewrite (js_get_IS_REACTIVE _ _ _ _ _ _ _ H), Hro. done.
Qed.

Lemma isReactive_readonly_proxy n p t m coll st :
  heap st !! p = Some (CProxy t m coll) → proxyMap m st !! t = Some p →
  mode_isReadonly m = true →
  isReactive (S (S n)) (VObj p) st = isReactive (S n) (VObj t) st.
Proof.
  intros H Hm Hro. cbn [isReactive]. unfold bind at 1.
  rewrite (isReadonly_proxy _ _ _ _ _ _ H), Hro. unfold bind at 1.
  by rewrite (js_get_RAW _ _ _ _ _ _ H Hm).
Qed.

(** X1. The predicates read the mode off a proxy: for the proxy [p] that
    the constructor of a mode [m] returns for a wrappable object [x],
    [isReadonly(p)] holds exactly when [m] is a readonly mode; [isReactive(p)]
    holds when [m] is not readonly, and for a readonly mode it is
    [isReactive(x)]; [isProxy(p)] always holds.  Of [x] itself [isReadonly]
    is false, and [isReactive] and [isProxy] answer the [__v_isReactive] that
    [x] carries: false for an object without that property. *)
Theorem predicates_read_the_mode n m x o st :
  wrappable st x o → maps_wf st →
  ∃ p st1,
    wrap (4 + n) m (VObj x) st = Ok (VObj p) st1
    ∧ isReadonly (4 + n) (VObj p) st1 = Ok (mode_isReadonly m) st1
    ∧ isReactive (4 + n) (VObj p) st1
      = Ok (negb (mode_isReadonly m) || truthy (raw_get o IS_REACTIVE)) st1
    ∧ isProxy (4 + n) (VObj p) st1 = Ok true st1
    ∧ isReadonly (4 + n) (VObj x) st1 = Ok false st1
    ∧ isReactive (4 + n) (VObj x) st1 = Ok (truthy (raw_get o IS_REACTIVE)) st1
    ∧ isProxy (4 + n) (VObj x) st1 = Ok (truthy (raw_get o IS_REACTIVE)) st1.
Proof.
  intros Hw Hwf.
  destruct (wrap_target (S n) m x o st Hw Hwf)
    as (p & st1 & Hwrap & Hp & Hm & Hwf1 & Hheap & _).
  destruct Hw as (Hx & _ & _ & _ & _ & Hro). apply Hheap in Hx.
  exists p, st1. split; [exact Hwrap|].
  change (4 + n)%nat with (S (S (S (S n)))).
  assert (isReadonly (S (S (S (S n)))) (VObj x) st1 = Ok false st1) as Hrx.
  { by rewrite (isReadonly_raw _ _ _ _ Hx), Hro. }
  assert (isReactive (S (S (S (S n)))) (VObj x) st1
          = Ok (truthy (raw_get o IS_REACTIVE)) st1) as Hax.
  { by rewrite (isReactive_raw _ _ _ _ Hx Hro). }
  assert (isReactive (S (S (S (S n)))) (VObj p) st1
          = Ok (negb (mode_isReadonly m) || truthy (raw_get o IS_REACTIVE)) st1) as Hap.
  { destruct (mode_isReadonly m) eqn:Hmode.
    - rewrite (isReactive_readonly_proxy _ _ _ _ _ _ Hp Hm Hmode).
      by rewrite (isReactive_raw _ _ _ _ Hx Hro).
    - by rewrite (isReactive_mutable_proxy _ _ _ _ _ _ Hp Hmode). }
  split; [apply (isReadonly_proxy _ _ _ _ _ _ Hp)|].
  split; [exact Hap|].
  split.
  { unfold isProxy, bind. rewrite Hap.
    destruct (mode_isReadonly m) eqn:Hmode; [|done]. cbn [negb orb].
    destruct (truthy (raw_get o IS_REACTIVE)); [done|].
    by rewrite (isReadonly_proxy _ _ _ _ _ _ Hp), Hmode. }
  split; [exact Hrx|]. split; [exact Hax|].
  unfold isProxy, bind. rewrite Hax.
  destruct (truthy (raw_get o IS_REACTIVE)); [done|exact Hrx].
Qed.

(** [shallowReadonly] on the object of [one_object]. *)
Lemma predicates_read_the_mode_witness :
  ∃ p st1,
    wrap 4 MShallowReadonly (VObj 0%nat) one_object = Ok (VObj p) st1
    ∧ isReadonly 4 (VObj p) st1 = Ok true st1
    ∧ isReactive 4 (VObj p) st1 = Ok false st1
    ∧ isProxy 4 (VObj p) st1 = Ok true st1
    ∧ isReadonly 4 (VObj 0%nat) st1 = Ok false st1
    ∧ isReactive 4 (VObj 0%nat) st1 = Ok false st1
    ∧ isProxy 4 (VObj 0%nat) st1 = Ok false st1.
Proof.
  apply (predicates_read_the_mode 0 MShallowReadonly 0%nat sample_object one_object).
  - by repeat split.
  - intros [] t p; simpl; by rewrite lookup_empty.
Defined.

(** X2. A readonly proxy made over a mutable proxy is both: for the proxy
    [q] that a readonly constructor returns for the proxy [p] that a
    mutable constructor made of an object or array [x], [isReadonly(q)],
    [isReactive(q)] and [isProxy(q)] all hold. *)
Theorem readonly_over_reactive_is_both n m m2 x o st :
  wrappable st x o → maps_wf st → deps_wf st →
  mode_isReadonly m = false → mode_isReadonly m2 = true →
  targetTypeMap (o_type o) = COMMON →
  ∃ p st1 q st2,
    wrap (4 + n) m (VObj x) st = Ok (VObj p) st1
    ∧ wrap (4 + n) m2 (VObj p) st1 = Ok (VObj q) st2
    ∧ isReadonly (4 + n) (VObj q) st2 = Ok true st2
    ∧ isReactive (4 + n) (VObj q) st2 = Ok true st2
    ∧ isProxy (4 + n) (VObj q) st2 = Ok true st2.
Proof.
  intros Hw Hwf Hdwf Hro1 Hro2 Hty.
  destruct (wrap_target (S n) m x o st Hw Hwf)
    as (p & st1 & Hwrap & Hp & Hm & Hwf1 & Hheap & Htm & Hdeps).
  destruct Hw as (Hx & Hext & _ & _ & Hskip & _).
  assert (is_collection o = false) as Hcoll by (unfold is_collection; by rewrite Hty).
  rewrite Hcoll in Hp.
  destruct (wrap_readonly_over n m2 p x m o st1 Hp Hm Hro1 Hro2 (Hheap _ _ Hx) Hext Hty Hskip Hwf1)
    as (q & st2 & coll & Hwrap2 & Hq & Hmq & Hne & Hheap2 & Hmaps2).
  { intros t depsMap key di. rewrite Htm, Hdeps. apply Hdwf. }
  exists p, st1, q, st2. split; [exact Hwrap|]. split; [exact Hwrap2|].
  change (4 + n)%nat with (S (S (S (S n)))).
  assert (isReadonly (S (S (S (S n)))) (VObj q) st2 = Ok true st2) as Hrq.
  { by rewrite (isReadonly_proxy _ _ _ _ _ _ Hq), Hro2. }
  assert (isReactive (S (S (S (S n)))) (VObj q) st2 = Ok true st2) as Haq.
  { rewrite (isReactive_readonly_proxy _ _ _ _ _ _ Hq Hmq Hro2).
    apply (isReactive_mutable_proxy _ _ _ _ _ _ (Hheap2 _ _ Hp) Hro1). }
  split; [exact Hrq|]. split; [exact Haq|].
  unfold isProxy, bind. by rewrite Haq.
Qed.

Lemma readonly_over_reactive_is_both_witness :
  ∃ p st1 q st2,
    wrap 4 MReactive (VObj 0%nat) one_object = Ok (VObj p) st1
    ∧ wrap 4 MReadonly (VObj p) st1 = Ok (VObj q) st2
    ∧ isReadonly 4 (VObj q) st2 = Ok true st2
    ∧ isReactive 4 (VObj q) st2 = Ok true st2
    ∧ isProxy 4 (VObj q) st2 = Ok true st2.
Proof.
  apply (readonly_over_reactive_is_both 0 MReactive MReadonly 0%nat sample_object one_object).
  - by repeat split.
  - intros [] t p; simpl; by rewrite lookup_empty.
  - intros t depsMap key di. simpl. by rewrite lookup_empty.
  - reflexivity.
  - reflexivity.
  - reflexivity.
Defined.

Lemma wrap_primitive n m v st :
  isObject v = false → wrap (S (S (S n))) m v st = Ok v st.
Proof.
  intros Hobj.
  assert (createReactiveObject (S (S n)) v m st = Ok v st) as Hc by (by destruct v).
  destruct m; try exact Hc.
  cbn [wrap]. unfold bind. destruct (truthy v) eqn:Htr.
  - rewrite js_get_primitive_flag; try done. unfold flag_keys. set_solver.
  - exact Hc.
Qed.

Lemma wrap_unobservable n m a o st :
  heap st !! a = Some (CRaw o) →
  truthy (raw_get o RAW) = false → truthy (raw_get o IS_READONLY) = false →
  proxyMap m st !! a = None →
  truthy (raw_get o SKIP) = true ∨ o_ext o = false ∨ targetTypeMap (o_type o) = INVALID →
  wrap (S (S (S n))) m (VObj a) st = Ok (VObj a) st.
Proof.
  intros Ha Hraw Hro Hmap Hbad.
  assert (createReactiveObject (S (S n)) (VObj a) m st = Ok (VObj a) st) as Hc.
  { cbn [createReactiveObject]. unfold bind at 1.
    rewrite (js_get_flag _ _ _ _ _ _ Ha) by flag_key. rewrite Hraw. unfold bind at 1, ret at 1.
    rewrite Hmap. unfold bind at 1. rewrite (js_get_flag _ _ _ _ _ _ Ha) by flag_key.
    rewrite (underlying_raw _ _ _ _ Ha).
    destruct Hbad as [-> | [-> | ->]]; [done| |].
    - by rewrite orb_true_r.
    - by destruct (_ || _). }
  destruct m; try exact Hc.
  cbn [wrap]. unfold bind at 1. cbn [truthy].
  rewrite (js_get_flag _ _ _ _ _ _ Ha) by flag_key. by rewrite Hro.
Qed.

(** X3. What cannot be observed is returned as it is: each of the four
    constructors returns its argument, makes no proxy and changes nothing,
    when the argument is not an object, and when it is an ordinary object
    (not yet proxied in that mode) that carries [__v_skip], is not
    extensible, or is of a class other than Object, Array, Map, Set, WeakMap
    and WeakSet. *)
Theorem unobservable_values_are_returned_bare n m v st :
  isObject v = false
  ∨ (∃ a o, v = VObj a ∧ heap st !! a = Some (CRaw o)
            ∧ truthy (raw_get o RAW) = false ∧ truthy (raw_get o IS_READONLY) = false
            ∧ proxyMap m st !! a = None
            ∧ (truthy (raw_get o SKIP) = true ∨ o_ext o = false
               ∨ targetTypeMap (o_type o) = INVALID)) →
  wrap (3 + n) m v st = Ok v st.
Proof.
  intros [Hobj|(a & o & -> & Ha & Hraw & Hro & Hmap & Hbad)].
  - by apply wrap_primitive.
  - by eapply wrap_unobservable.
Qed.

Lemma unobservable_values_are_returned_bare_witness :
  wrap 3 MReactive (VObj 0%nat)
    (set_heap (insert 0%nat (CRaw (mkObj TObject false [] [(KStr "a", VNum 1)]))) init)
  = Ok (VObj 0%nat)
      (set_heap (insert 0%nat (CRaw (mkObj TObject false [] [(KStr "a", VNum 1)]))) init).
Proof.
  apply (unobservable_values_are_returned_bare 0 MReactive).
  right. eexists 0%nat, _. repeat split; try reflexivity. right. by left.
Defined.

Lemma assoc_get_set {A} (l : list (Key * A)) k v : assoc_get k (assoc_set k v l) = Some v.
Proof.
  induction l as [|[k' v'] l IH]; simpl.
  - by rewrite bool_decide_eq_true_2.
  - destruct (bool_decide (k = k')) eqn:Hk; simpl.
    + by rewrite bool_decide_eq_true_2.
    + by rewrite Hk.
Qed.

Lemma assoc_get_set_ne {A} (l : list (Key * A)) k k' v :
  k' ≠ k → assoc_get k' (assoc_set k v l) = assoc_get k' l.
Proof.
  intros Hk. induction l as [|[k0 v0] l IH]; simpl.
  - by rewrite bool_decide_eq_false_2.
  - destruct (bool_decide (k = k0)) eqn:Hk0; simpl.
    + apply bool_decide_eq_true in Hk0 as <-.
      by rewrite !bool_decide_eq_false_2.
    + destruct (bool_decide (k' = k0)); [done|apply IH].
Qed.

(** X4. [markRaw] opts an object out for good: after [markRaw(x)] on an
    ordinary object that is extensible and not yet proxied, [x] carries
    [__v_skip], and every constructor returns [x] itself and makes no
    proxy. *)
Theorem markRaw_opts_out n m a o st :
  heap st !! a = Some (CRaw o) → o_ext o = true →
  truthy (raw_get o RAW) = false → truthy (raw_get o IS_READONLY) = false →
  proxyMap m st !! a = None →
  ∃ o' st',
    markRaw (VObj a) st = Ok (VObj a) st'
    ∧ heap st' !! a = Some (CRaw o') ∧ raw_get o' SKIP = VBool true
    ∧ wrap (3 + n) m (VObj a) st' = Ok (VObj a) st'.
Proof.
  intros Ha Hext Hraw Hro Hmap.
  unfold markRaw. rewrite Ha, Hext. cbn [orb].
  eexists _, _. split; [reflexivity|].
  assert (∀ k, k ≠ SKIP → index_of_key k = None → k ≠ LENGTH →
            raw_get (with_props o (assoc_set SKIP (VBool true) (o_props o))) k = raw_get o k)
    as Hother.
  { intros k Hk Hi Hl. unfold raw_get, obj_isArray. simpl. rewrite (array_index_None _ Hi).
    rewrite (bool_decide_eq_false_2 _ Hl), assoc_get_set_ne by done. done. }
  assert (raw_get (with_props o (assoc_set SKIP (VBool true) (o_props o))) SKIP = VBool true)
    as Hskip.
  { unfold raw_get, obj_isArray. simpl. rewrite assoc_get_set.
    change (array_index SKIP) with (@None nat).
    change (bool_decide (SKIP = LENGTH)) with false. by destruct (bool_decide _). }
  split; [simpl; apply lookup_insert_eq|]. split; [exact Hskip|].
  eapply (wrap_unobservable n m a); [simpl; apply lookup_insert_eq| | | |].
  - rewrite Hother; done.
  - rewrite Hother; done.
  - by rewrite proxyMap_set_heap_map.
  - left. by rewrite Hskip.
Qed.

Lemma markRaw_opts_out_witness :
  ∃ o' st',
    markRaw (VObj 0%nat) one_object = Ok (VObj 0%nat) st'
    ∧ heap st' !! 0%nat = Some (CRaw o') ∧ raw_get o' SKIP = VBool true
    ∧ wrap 3 MReactive (VObj 0%nat) st' = Ok (VObj 0%nat) st'.
Proof.
  apply (markRaw_opts_out 0 MReactive 0%nat sample_object one_object); reflexivity.
Defined.

(** X5. Each mode keeps its own proxy of a target: the constructors of two
    different modes return two different proxies for the same wrappable
    object, and the first constructor still returns the first proxy
    afterwards. *)
Theorem each_mode_has_its_own_proxy n m1 m2 x o st :
  wrappable st x o → maps_wf st → m1 ≠ m2 →
  ∃ p1 st1 p2 st2,
    wrap (3 + n) m1 (VObj x) st = Ok (VObj p1) st1
    ∧ wrap (3 + n) m2 (VObj x) st1 = Ok (VObj p2) st2
    ∧ p1 ≠ p2
    ∧ wrap (3 + n) m1 (VObj x) st2 = Ok (VObj p1) st2.
Proof.
  intros Hw Hwf Hne.
  destruct (wrap_target n m1 x o st Hw Hwf)
    as (p1 & st1 & Hwrap1 & Hp1 & Hm1 & Hwf1 & Hheap1 & _).
  assert (wrappable st1 x o) as Hw1.
  { destruct Hw as (Hx & Hw). split; [by apply Hheap1|exact Hw]. }
  destruct (wrap_target n m2 x o st1 Hw1 Hwf1)
    as (p2 & st2 & Hwrap2 & Hp2 & Hm2 & Hwf2 & Hheap2 & _).
  assert (wrappable st2 x o) as Hw2.
  { destruct Hw1 as (Hx & Hw1). split; [by apply Hheap2|exact Hw1]. }
  exists p1, st1, p2, st2. split; [exact Hwrap1|]. split; [exact Hwrap2|].
  split.
  { intros ->. apply Hheap2 in Hp1. rewrite Hp1 in Hp2. congruence. }
  change (3 + n)%nat with (S (S (S n))) in *.
  rewrite (wrap_target_eq n m1 x o st2 Hw2).
  assert (proxyMap m1 st2 !! x = Some p1) as ->; [|done].
  rewrite (wrap_target_eq n m2 x o st1 Hw1) in Hwrap2.
  destruct (proxyMap m2 st1 !! x) as [p|].
  - by injection Hwrap2 as _ <-.
  - injection Hwrap2 as _ <-.
    rewrite proxyMap_set_lookup_ne, proxyMap_set_heap_map; [done|]. by intros [? _].
Qed.

Lemma each_mode_has_its_own_proxy_witness :
  ∃ p1 st1 p2 st2,
    wrap 3 MReactive (VObj 0%nat) one_object = Ok (VObj p1) st1
    ∧ wrap 3 MReadonly (VObj 0%nat) st1 = Ok (VObj p2) st2
    ∧ p1 ≠ p2
    ∧ wrap 3 MReactive (VObj 0%nat) st2 = Ok (VObj p1) st2.
Proof.
  apply (each_mode_has_its_own_proxy 0 MReactive MReadonly 0%nat sample_object one_object).
  - by repeat split.
  - intros [] t p; simpl; by rewrite lookup_empty.
  - done.
Defined.

(** ** Tracking control *)

(** X6. A pause, or a forced enable, followed by [resetTracking] leaves
    the tracking state as it was; and [resetTracking] with nothing to pop
    switches tracking on. *)
Theorem reset_undoes_pause_and_enable st :
  (pauseTracking;; resetTracking) st = Ok tt st
  ∧ (enableTracking;; resetTracking) st = Ok tt st
  ∧ (trackStack st = [] →
     resetTracking st = Ok tt (set_tracking true [] st)).
Proof.
  assert (∀ b, resetTracking_st (set_tracking b (trackStack st ++ [shouldTrack st]) st) = st)
    as H.
  { intros b. unfold resetTracking_st. simpl. rewrite last_snoc, removelast_last.
    by destruct st. }
  split; [|split].
  - unfold bind, pauseTracking, resetTracking, modify. by rewrite H.
  - unfold bind, enableTracking, resetTracking, modify. by rewrite H.
  - intros Hs. unfold resetTracking, modify, resetTracking_st. by rewrite Hs.
Qed.

(** ** Subscribing and unsubscribing *)

Lemma assoc_get_snoc {A} (k : Key) (v : A) l :
  assoc_get k l = None → assoc_get k (l ++ [(k, v)]) = Some v.
Proof.
  induction l as [|[k' v'] l IH]; simpl.
  - by rewrite bool_decide_eq_true_2.
  - destruct (bool_decide (k = k')); [done|exact IH].
Qed.

Lemma deps_dep_update di f st :
  deps (dep_update di f st) = match deps st !! di with
                              | Some d => <[di := f d]> (deps st)
                              | None => deps st
                              end.
Proof. done. Qed.

Lemma effects_effect_update e f st :
  effects (effect_update e f st) = match effects st !! e with
                                   | Some x => <[e := f x]> (effects st)
                                   | None => effects st
                                   end.
Proof. done. Qed.

(** What [trackEffects] does to a Dep that carries no marker of the
    current level and does not hold the active effect. *)
Lemma trackEffects_fresh di d e x st :
  deps st !! di = Some d → activeEffect st = Some e → effects st !! e = Some x →
  d_subs d = [] → d_w d = 0 → d_n d = 0 →
  ∃ st', trackEffects di st = Ok tt st'
    ∧ dep_subs di st' = [e]
    ∧ effect_deps e st' = e_deps x ++ [di]
    ∧ targetMap st' = targetMap st
    ∧ (∀ dj, dj ≠ di → deps st' !! dj = deps st !! dj)
    ∧ (∀ e', e' ≠ e → effects st' !! e' = effects st !! e').
Proof.
  intros Hd He Hx Hs Hw Hn. unfold trackEffects. rewrite Hd, He.
  assert (newTracked d (trackOpBit st) = false) as Hnt.
  { unfold newTracked. rewrite Hn. done. }
  assert (wasTracked d (trackOpBit st) = false) as Hwt.
  { unfold wasTracked. rewrite Hw. done. }
  rewrite Hnt, Hwt, Hs. cbn [negb].
  assert (bool_decide (e ∈ @nil nat) = false) as ->.
  { apply bool_decide_eq_false_2. apply not_elem_of_nil. }
  cbn [negb].
  destruct (effectTrackDepth st <=? maxMarkerBits)%nat; cbn iota beta;
    (eexists; split; [reflexivity|]);
    unfold dep_subs, effect_deps; simpl;
    rewrite ?Hd, ?Hx; simpl; rewrite ?lookup_insert_eq, ?Hx; simpl;
    rewrite ?lookup_insert_eq; simpl; rewrite ?Hs;
    (split; [done|]); (split; [done|]); (split; [done|]);
    (split; [intros dj Hne; by rewrite ?lookup_insert_ne by done
            |intros e' Hne; by rewrite ?lookup_insert_ne by done]).
Qed.

(** X7. The first read of a location subscribes the running effect: when
    tracking is on, [e] is the active effect and no Dep exists yet for
    [(t, key)], [track] makes one, enters it in the map of [t] under [key],
    puts [e] in it and it at the end of the deps of [e]; the Deps of other
    targets and keys, and the other effects, are untouched. *)
Theorem first_read_subscribes_the_active_effect t key e x st :
  shouldTrack st = true → activeEffect st = Some e → effects st !! e = Some x →
  assoc_get key (depsMap_of t st) = None →
  ∃ di st',
    track t key st = Ok tt st'
    ∧ deps st !! di = None
    ∧ depsMap_of t st' = depsMap_of t st ++ [(key, di)]
    ∧ dep_subs di st' = [e]
    ∧ effect_deps e st' = e_deps x ++ [di]
    ∧ (∀ t', t' ≠ t → targetMap st' !! t' = targetMap st !! t')
    ∧ (∀ dj, dj ≠ di → deps st' !! dj = deps st !! dj)
    ∧ (∀ e', e' ≠ e → effects st' !! e' = effects st !! e').
Proof.
  intros Hst He Hx Hk. unfold track, isTracking. rewrite Hst, He.
  rewrite bool_decide_eq_true_2 by eauto. cbn [andb negb].
  change (depsMap_of t (add_log (EvTrack t key) st)) with (depsMap_of t st).
  rewrite Hk. unfold bind at 1. unfold createDep at 1.
  unfold bind at 1. unfold modify at 1.
  set (di := fresh (deps (add_log (EvTrack t key) st))).
  match goal with |- context [trackEffects di ?s] => set (s1 := s) end.
  destruct (trackEffects_fresh di (mkDep [] 0 0) e x s1) as (st' & Ht & Hsubs & Hdeps & Htm & Hother & Heff);
    try done.
  { subst s1. simpl. apply lookup_insert_eq. }
  exists di, st'. split; [exact Ht|].
  split; [apply fresh_None|].
  split. { unfold depsMap_of. rewrite Htm. subst s1. simpl. by rewrite lookup_insert_eq. }
  split; [exact Hsubs|]. split; [exact Hdeps|].
  split. { intros t' Hne. rewrite Htm. subst s1. simpl. by rewrite lookup_insert_ne. }
  split; [|exact Heff].
  intros dj Hne. rewrite (Hother dj Hne). subst s1. simpl. by rewrite lookup_insert_ne.
Qed.

Lemma first_read_subscribes_the_active_effect_witness :
  ∃ di st',
    track 0%nat (KStr "b") lazy_reader_running = Ok tt st'
    ∧ deps lazy_reader_running !! di = None
    ∧ depsMap_of 0%nat st' = depsMap_of 0%nat lazy_reader_running ++ [(KStr "b", di)]
    ∧ dep_subs di st' = [0%nat]
    ∧ effect_deps 0%nat st' = e_deps lazy_reader_effect ++ [di]
    ∧ (∀ t', t' ≠ 0%nat → targetMap st' !! t' = targetMap lazy_reader_running !! t')
    ∧ (∀ dj, dj ≠ di → deps st' !! dj = deps lazy_reader_running !! dj)
    ∧ (∀ e', e' ≠ 0%nat → effects st' !! e' = effects lazy_reader_running !! e').
Proof.
  apply (first_read_subscribes_the_active_effect 0%nat (KStr "b") 0%nat lazy_reader_effect
           lazy_reader_running); reflexivity.
Defined.

(** Once [track] has returned for [(t, key)], a second [track] for it only
    adds its event to the trace, provided the marker bit is positive below
    the marker limit. *)
Lemma track_twice t key st st1 :
  isTracking st = true →
  ((effectTrackDepth st <= maxMarkerBits)%nat → 0 < trackOpBit st) →
  track t key st = Ok tt st1 →
  track t key st1 = Ok tt (add_log (EvTrack t key) st1).
Proof.
  intros Htr Hbit H1.
  assert (∀ di d e s, deps s !! di = Some d → activeEffect s = Some e →
            ((effectTrackDepth s <= maxMarkerBits)%nat → 0 < trackOpBit s) →
            ∀ s1, trackEffects di s = Ok tt s1 →
            isTracking s1 = isTracking s ∧ targetMap s1 = targetMap s
            ∧ ∀ l, trackEffects di (add_log l s1) = Ok tt (add_log l s1)) as Hte.
  { intros di d e s Hd He Hb s1 Hs1. unfold trackEffects in Hs1. rewrite Hd, He in Hs1.
    assert (∀ n bit, 0 < bit → (0 <? Z.land (Z.lor n bit) bit) = true) as Hland.
    { intros n bit Hpos.
      assert (Z.land (Z.lor n bit) bit = bit) as ->; [|by apply Z.ltb_lt].
      apply Z.bits_inj'. intros k Hk. rewrite Z.land_spec, Z.lor_spec.
      by destruct (Z.testbit bit k), (Z.testbit n k). }
    destruct (effectTrackDepth s <=? maxMarkerBits)%nat eqn:Hdepth.
    - apply Nat.leb_le in Hdepth. specialize (Hb Hdepth).
      destruct (newTracked d (trackOpBit s)) eqn:Hnt; cbn [negb] in Hs1.
      + injection Hs1 as <-. split; [done|]. split; [done|]. intros l.
        unfold trackEffects. simpl. rewrite Hd, He.
        apply Nat.leb_le in Hdepth. rewrite Hdepth, Hnt. done.
      + destruct (wasTracked d (trackOpBit s)) eqn:Hwt; cbn [negb] in Hs1;
          injection Hs1 as <-; (split; [done|]); (split; [done|]); intros l;
          unfold trackEffects; simpl; rewrite ?Hd; simpl;
          destruct (effects s !! e); simpl; rewrite ?lookup_insert_eq, He; simpl;
          apply Nat.leb_le in Hdepth; rewrite Hdepth;
          unfold newTracked; simpl; rewrite (Hland _ _ Hb); done.
    - destruct (bool_decide (e ∈ d_subs d)) eqn:Hin; cbn [negb] in Hs1;
        injection Hs1 as <-; (split; [done|]); (split; [done|]); intros l;
        unfold trackEffects; simpl; rewrite ?Hd; simpl.
      + by rewrite He, Hdepth, Hin.
      + destruct (effects s !! e); simpl; rewrite ?lookup_insert_eq, He, Hdepth; simpl;
          (rewrite bool_decide_eq_true_2; [done|]);
          unfold subs_add; rewrite Hin; set_solver. }
  unfold track in H1. rewrite Htr in H1. cbn [negb] in H1.
  assert (is_Some (activeEffect st)) as [e He].
  { unfold isTracking in Htr. apply andb_true_iff in Htr as [_ Htr].
    by apply bool_decide_eq_true in Htr. }
  change (depsMap_of t (add_log (EvTrack t key) st)) with (depsMap_of t st) in H1.
  destruct (assoc_get key (depsMap_of t st)) as [di|] eqn:Hk.
  - destruct (deps st !! di) as [d|] eqn:Hd.
    2: { unfold trackEffects in H1. simpl in H1. by rewrite Hd in H1. }
    destruct (Hte di d e (add_log (EvTrack t key) st) Hd He Hbit st1 H1) as (Htr1 & Htm1 & Hagain).
    unfold track. rewrite Htr1. change (isTracking (add_log (EvTrack t key) st)) with (isTracking st).
    rewrite Htr. cbn [negb]. unfold depsMap_of in *. simpl. rewrite Htm1. simpl. rewrite Hk.
    apply Hagain.
  - unfold bind at 1 in H1. unfold createDep at 1 in H1.
    unfold bind at 1 in H1. unfold modify at 1 in H1.
    set (di := fresh (deps (add_log (EvTrack t key) st))) in *.
    match type of H1 with trackEffects di ?s = _ => set (s0 := s) in * end.
    destruct (Hte di (mkDep (dedup_subs []) 0 0) e s0) with (s1 := st1) as (Htr1 & Htm1 & Hagain);
      try done.
    { subst s0. simpl. apply lookup_insert_eq. }
    unfold track. rewrite Htr1. change (isTracking s0) with (isTracking st).
    rewrite Htr. cbn [negb]. unfold depsMap_of at 1. simpl. rewrite Htm1.
    subst s0. simpl. rewrite lookup_insert_eq. simpl.
    rewrite (assoc_get_snoc key di _ Hk). apply Hagain.
Qed.

Lemma dep_subs_dep_update di dj f st :
  dep_subs dj (dep_update di f st)
  = if bool_decide (dj = di) then d_subs (default (mkDep [] 0 0) (f <$> deps st !! di))
    else dep_subs dj st.
Proof.
  unfold dep_subs. rewrite deps_dep_update.
  destruct (bool_decide (dj = di)) eqn:Hd.
  - apply bool_decide_eq_true in Hd as ->.
    destruct (deps st !! di) as [d|] eqn:H; simpl; [by rewrite lookup_insert_eq|by rewrite H].
  - apply bool_decide_eq_false in Hd.
    destruct (deps st !! di) as [d|] eqn:H; simpl; [by rewrite lookup_insert_ne|done].
Qed.

Lemma subs_delete_idemp e l : subs_delete e (subs_delete e l) = subs_delete e l.
Proof.
  unfold subs_delete. induction l as [|a l IH]; [done|].
  rewrite filter_cons. destruct (decide (a ≠ e)).
  - rewrite filter_cons. rewrite decide_True by done. by rewrite IH.
  - exact IH.
Qed.

(** The loop of [cleanupEffect] over a list of Deps. *)
Lemma cleanup_loop_subs e l dj st :
  dep_subs dj (foldl (fun s di => dep_update di
                 (fun d => mkDep (subs_delete e (d_subs d)) (d_w d) (d_n d)) s) st l)
  = if bool_decide (dj ∈ l) then subs_delete e (dep_subs dj st) else dep_subs dj st.
Proof.
  revert st. induction l as [|di l IH]; intros st; simpl.
  - by rewrite ?bool_decide_eq_false_2 by apply not_elem_of_nil.
  - rewrite IH, dep_subs_dep_update.
    destruct (decide (dj = di)) as [->|Hne].
    + rewrite (bool_decide_eq_true_2 (di = di)) by done.
      rewrite (bool_decide_eq_true_2 (di ∈ di :: l)) by apply list_elem_of_here.
      unfold dep_subs. destruct (deps st !! di) as [d|]; simpl;
        destruct (bool_decide (di ∈ l)); rewrite ?subs_delete_idemp; done.
    + rewrite (bool_decide_eq_false_2 (dj = di)) by done.
      destruct (bool_decide (dj ∈ l)) eqn:Hin.
      * apply bool_decide_eq_true in Hin.
        by rewrite (bool_decide_eq_true_2 (dj ∈ di :: l)) by (by apply list_elem_of_further).
      * apply bool_decide_eq_false in Hin.
        by rewrite (bool_decide_eq_false_2 (dj ∈ di :: l)) by (by apply not_elem_of_cons).
Qed.

Lemma cleanup_loop_other e l dj st :
  dj ∉ l →
  deps (foldl (fun s di => dep_update di
                 (fun d => mkDep (subs_delete e (d_subs d)) (d_w d) (d_n d)) s) st l) !! dj
  = deps st !! dj.
Proof.
  revert st. induction l as [|di l IH]; intros st Hnot; simpl; [done|].
  rewrite IH by set_solver. rewrite deps_dep_update.
  destruct (deps st !! di); [|done]. apply lookup_insert_ne. set_solver.
Qed.

Lemma cleanup_loop_effects e l st :
  effects (foldl (fun s di => dep_update di
                 (fun d => mkDep (subs_delete e (d_subs d)) (d_w d) (d_n d)) s) st l)
  = effects st.
Proof. revert st. induction l as [|di l IH]; intros st; simpl; [done|]. by rewrite IH. Qed.

Lemma elem_of_subs_delete e e' l : e' ∈ subs_delete e l ↔ e' ∈ l ∧ e' ≠ e.
Proof. unfold subs_delete. rewrite list_elem_of_filter. tauto. Qed.

(** X8. [cleanupEffect] takes the effect out of each of its Deps and
    empties its list: afterwards the effect has no deps, none of the Deps it
    had holds it, every other subscriber of every Dep is still there, and
    the Deps it did not have are untouched. *)
Theorem cleanupEffect_unsubscribes e st :
  effect_deps e (cleanupEffect e st) = []
  ∧ (∀ di, di ∈ effect_deps e st → e ∉ dep_subs di (cleanupEffect e st))
  ∧ (∀ di e', e' ≠ e → e' ∈ dep_subs di (cleanupEffect e st) ↔ e' ∈ dep_subs di st)
  ∧ (∀ di, di ∉ effect_deps e st → deps (cleanupEffect e st) !! di = deps st !! di)
  ∧ (∀ e', e' ≠ e → effects (cleanupEffect e st) !! e' = effects st !! e').
Proof.
  unfold cleanupEffect.
  set (F := foldl _ st (effect_deps e st)).
  assert (∀ dj, dep_subs dj (effect_update e (with_deps []) F) = dep_subs dj F) as Hsubs by done.
  split; [|split; [|split; [|split]]].
  - unfold effect_deps. rewrite effects_effect_update.
    destruct (effects F !! e) as [x|] eqn:Hx; [by rewrite lookup_insert_eq|by rewrite Hx].
  - intros di Hin. rewrite Hsubs. subst F. rewrite cleanup_loop_subs.
    rewrite bool_decide_eq_true_2 by done. rewrite elem_of_subs_delete. tauto.
  - intros di e' Hne. rewrite Hsubs. subst F. rewrite cleanup_loop_subs.
    destruct (bool_decide _); [|done]. rewrite elem_of_subs_delete. tauto.
  - intros di Hnot. subst F. by apply cleanup_loop_other.
  - intros e' Hne. rewrite effects_effect_update.
    subst F. rewrite cleanup_loop_effects.
    destruct (effects st !! e); [by rewrite lookup_insert_ne|done].
Qed.

(** X9. [stop] is idempotent: stopping an active effect (without an
    [onStop] hook) unsubscribes it, leaves it inactive with no deps, and a
    second [stop] changes nothing. *)
Theorem stop_is_idempotent rec e x st :
  effects st !! e = Some x → e_active x = true → e_onStop x = None →
  ∃ st',
    stop rec e st = Ok tt st'
    ∧ effects st' !! e = Some (with_active false (with_deps [] x))
    ∧ (∀ di, e ∉ dep_subs di st' ∨ di ∉ e_deps x)
    ∧ stop rec e st' = Ok tt st'.
Proof.
  intros Hx Hact Hstop. unfold stop at 1. rewrite Hx, Hact, Hstop.
  unfold bind, modify, ret. eexists. split; [reflexivity|].
  assert (effects (cleanupEffect e st) !! e = Some (with_deps [] x)) as Hc.
  { unfold cleanupEffect. rewrite effects_effect_update, cleanup_loop_effects, Hx.
    apply lookup_insert_eq. }
  assert (effects (effect_update e (with_active false) (cleanupEffect e st)) !! e
          = Some (with_active false (with_deps [] x))) as He.
  { rewrite effects_effect_update, Hc. apply lookup_insert_eq. }
  split; [exact He|]. split.
  - intros di. destruct (decide (di ∈ e_deps x)) as [Hin|]; [left|by right].
    change (dep_subs di (effect_update e (with_active false) (cleanupEffect e st)))
      with (dep_subs di (foldl (fun s di => dep_update di
              (fun d => mkDep (subs_delete e (d_subs d)) (d_w d) (d_n d)) s)
              st (effect_deps e st))).
    rewrite cleanup_loop_subs.
    rewrite bool_decide_eq_true_2 by (unfold effect_deps; by rewrite Hx).
    rewrite elem_of_subs_delete. tauto.
  - unfold stop. by rewrite He.
Qed.

Lemma stop_is_idempotent_witness :
  ∃ st',
    stop (exec 0) 0%nat array_readers = Ok tt st'
    ∧ effects st' !! 0%nat
      = Some (with_active false (with_deps []
          (mkEffect (Get (VObj 1%nat) (KStr "3") (fun _ => Done VUndef)) None true [0%nat]
             false None)))
    ∧ (∀ di, 0%nat ∉ dep_subs di st' ∨ di ∉ [0%nat])
    ∧ stop (exec 0) 0%nat st' = Ok tt st'.
Proof.
  apply (stop_is_idempotent (exec 0) 0%nat
           (mkEffect (Get (VObj 1%nat) (KStr "3") (fun _ => Done VUndef)) None true [0%nat]
              false None) array_readers); vm_compute; reflexivity.
Defined.

(** ** The getter *)

(** The getter on a key that is none of the three markers it answers
    itself, on a proxy of an ordinary object, where [target[key]] is
    [res]. *)
Lemma createGetter_own_key n p t m o key res recv st :
  heap st !! p = Some (CProxy t m false) → heap st !! t = Some (CRaw o) →
  raw_read o key = Some res →
  key ≠ IS_REACTIVE → key ≠ IS_READONLY → key ≠ RAW →
  (negb (mode_isReadonly m) && obj_isArray o && arrayInstrumentations_hasOwn key) = false →
  js_get (S (S n)) (VObj p) key recv st
  = (if (if isSymbol key then builtInSymbols_has key else isNonTrackableKeys key)
     then ret res
     else
       (if negb (mode_isReadonly m) then track t key else ret tt);;
       if mode_shallow m then ret res
       else
         let* isref := (if truthy res then js_get (S n) res IS_REF res else ret VUndef) in
         if bool_decide (isref = VBool true) then
           if negb (obj_isArray o) || negb (isIntegerKey key)
           then js_get (S n) res VALUE res
           else ret res
         else if isObject res then
           wrap (S n) (if mode_isReadonly m then MReadonly else MReactive) res
         else ret res) st.
Proof.
  intros Hp Ht Hread H1 H2 H3 Hinstr.
  cbn [js_get]. rewrite Hp. unfold createGetter.
  rewrite (bool_decide_eq_false_2 _ H1), (bool_decide_eq_false_2 _ H2),
    (bool_decide_eq_false_2 _ H3).
  cbn [andb]. rewrite (underlying_raw _ _ _ _ Ht), Hinstr.
  unfold bind at 1. rewrite Ht, Hread. done.
Qed.

Lemma bind_cong {A B} (c : M A) (k k' : A -> M B) st :
  (∀ a st1, c st = Ok a st1 → k a st1 = k' a st1) → bind c k st = bind c k' st.
Proof. intros H. unfold bind. destruct (c st); [by apply H|done|done]. Qed.

Lemma IS_REF_flag : IS_REF ∈ flag_keys.
Proof. unfold flag_keys. do 4 apply list_elem_of_further. apply list_elem_of_here. Qed.

Lemma track_not_tracking t key st : isTracking st = false → track t key st = Ok tt st.
Proof. intros H. unfold track. by rewrite H. Qed.

(** X10. Nothing is subscribed through a readonly proxy, or while
    tracking is off (paused, or outside any effect): on a proxy of an
    ordinary object, [key in p] and [ownKeys(p)] then leave the state as it
    is, and [key in p] answers as [Reflect.has] on the target, for its own
    keys and those of its prototype chain; so does the read of a key that is
    the target's own or nowhere on the chain and whose value is not an
    object, which returns the value of the target. *)
Theorem untracked_access_changes_nothing n p t m o key st :
  heap st !! p = Some (CProxy t m false) → heap st !! t = Some (CRaw o) →
  mode_isReadonly m = true ∨ isTracking st = false →
  (∀ b, raw_has o key = Some b → js_has (2 + n) (VObj p) key st = Ok b st)
  ∧ js_ownKeys (2 + n) (VObj p) st = Ok tt st
  ∧ (∀ v, raw_read o key = Some v →
     key ≠ IS_REACTIVE → key ≠ IS_READONLY → key ≠ RAW →
     (negb (mode_isReadonly m) && obj_isArray o && arrayInstrumentations_hasOwn key) = false →
     isObject v = false →
     js_get (2 + n) (VObj p) key (VObj p) st = Ok v st).
Proof.
  intros Hp Ht Hoff.
  assert (∀ k, (if negb (mode_isReadonly m) then track t k else ret tt) st = Ok tt st) as Htrack.
  { intros k. destruct (mode_isReadonly m) eqn:Hro; [done|]. cbn [negb].
    destruct Hoff as [?|Hoff]; [done|]. by apply track_not_tracking. }
  split; [|split].
  - intros b Hb. cbn [js_has plus]. rewrite Hp. destruct (mode_isReadonly m) eqn:Hro.
    + cbn [js_has]. by rewrite Ht, Hb.
    + unfold has. rewrite Ht, Hb. unfold bind.
      specialize (Htrack key). cbn [negb] in Htrack.
      destruct (negb (isSymbol key) || negb (builtInSymbols_has key)); [by rewrite Htrack|done].
  - cbn [js_ownKeys plus]. rewrite Hp. destruct (mode_isReadonly m) eqn:Hro.
    + cbn [js_ownKeys]. by rewrite Ht.
    + unfold ownKeys. apply (Htrack _).
  - intros v Hread H1 H2 H3 Hinstr Hobj.
    change (2 + n)%nat with (S (S n)).
    rewrite (createGetter_own_key n p t m o key v (VObj p) st Hp Ht Hread H1 H2 H3 Hinstr).
    destruct (if isSymbol key then _ else _); [done|].
    unfold bind at 1. rewrite Htrack.
    destruct (mode_shallow m); [done|].
    unfold bind at 1.
    assert ((if truthy v then js_get (S n) v IS_REF v else ret VUndef) st = Ok VUndef st) as ->.
    { destruct (truthy v) eqn:Htr; [|done].
      apply js_get_primitive_flag; try done. apply IS_REF_flag. }
    rewrite bool_decide_eq_false_2 by done. by rewrite Hobj.
Qed.

(** On the readonly proxy of [{a: 1}]: the key ["a"], which the object has. *)
Lemma untracked_access_changes_nothing_witness :
  (∀ b, raw_has sample_object (KStr "a") = Some b →
        js_has 2 (VObj 1%nat) (KStr "a") readonly_view = Ok b readonly_view)
  ∧ js_ownKeys 2 (VObj 1%nat) readonly_view = Ok tt readonly_view
  ∧ (∀ v, raw_read sample_object (KStr "a") = Some v →
     KStr "a" ≠ IS_REACTIVE → KStr "a" ≠ IS_READONLY → KStr "a" ≠ RAW →
     (negb (mode_isReadonly MReadonly) && obj_isArray sample_object
      && arrayInstrumentations_hasOwn (KStr "a")) = false →
     isObject v = false →
     js_get 2 (VObj 1%nat) (KStr "a") (VObj 1%nat) readonly_view = Ok v readonly_view).
Proof.
  apply (untracked_access_changes_nothing 0 1%nat 0%nat MReadonly sample_object (KStr "a")
           readonly_view); [reflexivity|reflexivity|by left].
Defined.

Lemma track_heap t key st st' : track t key st = Ok tt st' → heap st' = heap st.
Proof.
  unfold track. destruct (negb (isTracking st)); [by intros [= <-]|].
  assert (∀ di s s', trackEffects di s = Ok tt s' → heap s' = heap s) as Hte.
  { intros di s s'. unfold trackEffects.
    destruct (deps s !! di) as [d|]; [|done].
    destruct (activeEffect s) as [e|]; [|done].
    destruct (effectTrackDepth s <=? maxMarkerBits)%nat;
      [destruct (negb (newTracked d (trackOpBit s))); [destruct (negb (wasTracked d (trackOpBit s)))|]
      |destruct (negb (bool_decide (e ∈ d_subs d)))]; by intros [= <-]. }
  destruct (assoc_get key _).
  - intros H. by rewrite (Hte _ _ _ H).
  - unfold bind, createDep, modify. intros H. by rewrite (Hte _ _ _ H).
Qed.

(** The tracking step of the getter keeps the heap. *)
Lemma getter_track_heap (ro : bool) t key st st' :
  (if negb ro then track t key else ret tt) st = Ok tt st' → heap st' = heap st.
Proof. destruct ro; cbn [negb]; [by intros [= <-]|apply track_heap]. Qed.

(** X11. Proxies are made lazily and deeply: the read, through a deep
    proxy, of a key that holds an ordinary object is the tracking of the
    key (unless the proxy is readonly) followed by [reactive] of that
    object, or [readonly] of it through a readonly proxy; through a shallow
    proxy the object itself is returned. *)
Theorem nested_objects_are_wrapped_on_read n p t m o key c oc st :
  heap st !! p = Some (CProxy t m false) → heap st !! t = Some (CRaw o) →
  key ≠ IS_REACTIVE → key ≠ IS_READONLY → key ≠ RAW →
  (negb (mode_isReadonly m) && obj_isArray o && arrayInstrumentations_hasOwn key) = false →
  (if isSymbol key then builtInSymbols_has key else isNonTrackableKeys key) = false →
  raw_get o key = VObj c → heap st !! c = Some (CRaw oc) →
  raw_get oc IS_REF ≠ VBool true →
  js_get (3 + n) (VObj p) key (VObj p) st
  = ((if negb (mode_isReadonly m) then track t key else ret tt);;
     if mode_shallow m then ret (VObj c)
     else wrap (2 + n) (if mode_isReadonly m then MReadonly else MReactive) (VObj c)) st.
Proof.
  intros Hp Ht H1 H2 H3 Hinstr Htrackable Hres Hc Hnoref.
  change (3 + n)%nat with (S (S (S n))). change (2 + n)%nat with (S (S n)).
  assert (raw_read o key = Some (VObj c)) as Hread.
  { rewrite raw_read_own, Hres; [done|]. apply raw_get_own. by rewrite Hres. }
  rewrite (createGetter_own_key (S n) p t m o key (VObj c) (VObj p) st Hp Ht Hread H1 H2 H3 Hinstr).
  rewrite Htrackable. apply bind_cong. intros [] st1 Htrack.
  destruct (mode_shallow m); [done|].
  apply getter_track_heap in Htrack.
  unfold bind at 1. cbn [truthy].
  rewrite (js_get_flag (S n) c oc IS_REF (VObj c) st1) by (by rewrite Htrack || flag_key).
  rewrite bool_decide_eq_false_2 by done. done.
Qed.

Lemma nested_objects_are_wrapped_on_read_witness :
  js_get 3 (VObj 2%nat) (KStr "a") (VObj 2%nat) deep_holder
  = ((if negb (mode_isReadonly MReactive) then track 1%nat (KStr "a") else ret tt);;
     if mode_shallow MReactive then ret (VObj 0%nat)
     else wrap 2 (if mode_isReadonly MReactive then MReadonly else MReactive) (VObj 0%nat))
      deep_holder.
Proof.
  apply (nested_objects_are_wrapped_on_read 0 2%nat 1%nat MReactive
           (obj [(KStr "a", VObj 0%nat)]) (KStr "a") 0%nat (obj []) deep_holder);
    try (vm_compute; reflexivity); done.
Defined.

(** X12. A Ref held by a property is read through, except in an array:
    through a deep proxy of an object that is not an array, the read of a
    key that holds a Ref tracks the key, then tracks the Ref and returns
    what the Ref holds; through a deep proxy of an array and an integer
    key, and through any shallow proxy, the Ref itself is returned. *)
Theorem refs_are_read_through_except_in_arrays n p t m o key r inner d st :
  heap st !! p = Some (CProxy t m false) → heap st !! t = Some (CRaw o) →
  key ≠ IS_REACTIVE → key ≠ IS_READONLY → key ≠ RAW →
  (negb (mode_isReadonly m) && obj_isArray o && arrayInstrumentations_hasOwn key) = false →
  (if isSymbol key then builtInSymbols_has key else isNonTrackableKeys key) = false →
  raw_get o key = VObj r → heap st !! r = Some (CRef inner d) →
  js_get (3 + n) (VObj p) key (VObj p) st
  = ((if negb (mode_isReadonly m) then track t key else ret tt);;
     if mode_shallow m || (obj_isArray o && isIntegerKey key) then ret (VObj r)
     else trackRefValue r;; ret inner) st.
Proof.
  intros Hp Ht H1 H2 H3 Hinstr Htrackable Hres Hr.
  change (3 + n)%nat with (S (S (S n))).
  assert (raw_read o key = Some (VObj r)) as Hread.
  { rewrite raw_read_own, Hres; [done|]. apply raw_get_own. by rewrite Hres. }
  rewrite (createGetter_own_key (S n) p t m o key (VObj r) (VObj p) st Hp Ht Hread H1 H2 H3 Hinstr).
  rewrite Htrackable. apply bind_cong. intros [] st1 Htrack.
  destruct (mode_shallow m); [done|]. cbn [orb].
  apply getter_track_heap in Htrack.
  assert (heap st1 !! r = Some (CRef inner d)) as Hr1 by (by rewrite Htrack).
  unfold bind at 1. cbn [truthy].
  assert (js_get (S (S n)) (VObj r) IS_REF (VObj r) st1 = Ok (VBool true) st1) as ->.
  { cbn [js_get]. rewrite Hr1. done. }
  rewrite bool_decide_eq_true_2 by done.
  destruct (obj_isArray o), (isIntegerKey key); cbn [negb orb andb]; try done;
    cbn [js_get]; rewrite Hr1; done.
Qed.

Lemma refs_are_read_through_except_in_arrays_witness :
  js_get 3 (VObj 3%nat) (KStr "r") (VObj 3%nat) ref_holder
  = ((if negb (mode_isReadonly MReactive) then track 1%nat (KStr "r") else ret tt);;
     if mode_shallow MReactive || (obj_isArray (obj [(KStr "r", VObj 0%nat)])
                                   && isIntegerKey (KStr "r"))
     then ret (VObj 0%nat)
     else trackRefValue 0%nat;; ret (VNum 1)) ref_holder.
Proof.
  apply (refs_are_read_through_except_in_arrays 0 3%nat 1%nat MReactive
           (obj [(KStr "r", VObj 0%nat)]) (KStr "r") 0%nat (VNum 1) (Some 1%nat) ref_holder);
    try (vm_compute; reflexivity); done.
Defined.

(** ** Writing and deleting through a mutable proxy *)

Lemma length_resize_elems n l : length (resize_elems n l) = n.
Proof.
  unfold resize_elems. rewrite length_app, length_take, length_replicate. lia.
Qed.

Lemma raw_assign_type o key v o' ok :
  raw_assign o key v = SetDone o' ok → o_type o' = o_type o.
Proof.
  unfold raw_assign.
  repeat (case_match; try done); by intros [= <- _].
Qed.

(** [Reflect.set] is the assignment, except on the ["__proto__"] that the
    object inherits, where a value that is not an object is ignored. *)
Lemma raw_set_cases o key v o' ok :
  raw_set o key v = SetDone o' ok →
  raw_assign o key v = SetDone o' ok
  ∨ (raw_hasOwn o key = false ∧ key = KStr "__proto__" ∧ o' = o ∧ ok = true).
Proof.
  unfold raw_set. destruct (raw_hasOwn o key) eqn:Hown; [by left|].
  destruct (bool_decide (key = KStr "__proto__")) eqn:Hk.
  - apply bool_decide_eq_true in Hk. destruct v; try done; intros [= <- <-]; by right.
  - destruct (proto_has o key); [by left|].
    destruct (obj_isArray o && negb (isSymbol key)); [by left|done].
Qed.

Lemma raw_set_isArray o key v o' ok :
  raw_set o key v = SetDone o' ok → o_type o' = o_type o.
Proof.
  intros [H|(_ & _ & -> & _)]%raw_set_cases; [|done]. by apply (raw_assign_type _ _ _ _ _ H).
Qed.

(** The ["__proto__"] of the prototype chain is not read off the object. *)
Lemma raw_read_proto o v :
  raw_read o (KStr "__proto__") = Some v → raw_hasOwn o (KStr "__proto__") = true.
Proof.
  unfold raw_read. destruct (raw_hasOwn o (KStr "__proto__")); [done|]. cbn [orb].
  assert (proto_has o (KStr "__proto__") ≠ Some false) as Hne.
  { unfold proto_has. rewrite bool_decide_eq_false_2 by (unfold flag_keys; not_in_list).
    rewrite bool_decide_eq_true_2; [done|]. unfold object_prototype_keys.
    do 7 apply list_elem_of_further. apply list_elem_of_here. }
  by rewrite bool_decide_eq_false_2.
Qed.

(** A key that is read off the object (its own, or nowhere on the chain) is
    written by assignment. *)
Lemma raw_set_assign o key old v o' ok :
  raw_read o key = Some old → raw_set o key v = SetDone o' ok →
  raw_assign o key v = SetDone o' ok.
Proof.
  intros Hread [H|(Hown & -> & _)]%raw_set_cases; [done|].
  apply raw_read_proto in Hread. congruence.
Qed.

(** What was assigned is what the object has. *)
Lemma raw_get_raw_assign o key v o' :
  raw_assign o key v = SetDone o' true → raw_get o' key = v ∧ raw_hasOwn o' key = true.
Proof.
  intros Hset. pose proof (raw_assign_type _ _ _ _ _ Hset) as Hty.
  unfold raw_get, raw_hasOwn, obj_isArray. rewrite Hty.
  unfold raw_assign, obj_isArray in Hset.
  destruct (bool_decide (o_type o = TArray)).
  - destruct (array_index key) as [i|] eqn:Hi.
    + assert (∀ l, (i < length l)%nat → <[i := Some v]> l !! i = Some (Some v)) as Hins.
      { intros l Hlt. by apply list_lookup_insert_eq. }
      destruct (o_elems o !! i) as [[w|]|] eqn:Hl.
      * injection Hset as <-. simpl. rewrite Hins; [done|]. by eapply lookup_lt_Some.
      * destruct (o_ext o); [|done]. injection Hset as <-. simpl.
        pose proof (lookup_lt_Some _ _ _ Hl) as Hlt.
        rewrite (proj2 (Nat.ltb_lt _ _) Hlt). by rewrite Hins.
      * destruct (o_ext o); [|done]. injection Hset as <-. simpl.
        apply lookup_ge_None in Hl. rewrite (proj2 (Nat.ltb_ge _ _) Hl).
        rewrite Hins; [done|]. rewrite length_resize_elems. lia.
    + destruct (bool_decide (key = LENGTH)).
      * destruct v as [| | |n| | | |]; try done.
        destruct ((0 <=? n) && (n <? 2 ^ 32)) eqn:Hn; [|done].
        injection Hset as <-. simpl. rewrite length_resize_elems.
        apply andb_true_iff in Hn as [Hn _]. apply Z.leb_le in Hn.
        by rewrite Z2Nat.id.
      * destruct (assoc_get key (o_props o)); [|destruct (o_ext o); [|done]];
          injection Hset as <-; simpl; by rewrite assoc_get_set.
  - destruct (assoc_get key (o_props o)); [|destruct (o_ext o); [|done]];
      injection Hset as <-; simpl; by rewrite assoc_get_set.
Qed.

(** A write leaves the keys that are neither indices nor ["length"] alone. *)
Lemma raw_get_raw_set_ne o key v o' ok k :
  raw_set o key v = SetDone o' ok → k ≠ key → index_of_key k = None → k ≠ LENGTH →
  raw_get o' k = raw_get o k.
Proof.
  intros [Hset|(_ & _ & -> & _)]%raw_set_cases Hne Hi Hl; [|done].
  pose proof (raw_assign_type _ _ _ _ _ Hset) as Hty.
  unfold raw_get, obj_isArray.
  rewrite Hty, (array_index_None _ Hi), (bool_decide_eq_false_2 _ Hl).
  assert (assoc_get k (o_props o') = assoc_get k (o_props o)) as ->; [|done].
  unfold raw_assign in Hset.
  repeat (case_match; try done); injection Hset as <- _; simpl;
    try done; by apply assoc_get_set_ne.
Qed.

Lemma raw_read_inv o key v : raw_read o key = Some v → v = raw_get o key.
Proof. unfold raw_read. destruct (_ || _); [by intros [= <-]|done]. Qed.

Lemma toRaw_primitive n v st : isObject v = false → toRaw (S (S n)) v st = Ok v st.
Proof.
  intros Hobj. cbn [toRaw]. unfold bind. destruct (truthy v) eqn:Htr; [|unfold ret; by rewrite Htr].
  rewrite js_get_primitive_flag; try done.
  unfold flag_keys. do 3 apply list_elem_of_further. apply list_elem_of_here.
Qed.

Lemma isRef_primitive n v st : isObject v = false → isRef (S n) v st = Ok false st.
Proof.
  intros Hobj. unfold isRef. destruct (truthy v) eqn:Htr; [|done].
  unfold bind. rewrite js_get_primitive_flag; try done. apply IS_REF_flag.
Qed.

Lemma trigger_no_depsMap rec n t type key v st :
  targetMap st !! t = None →
  trigger rec n t type key v st = Ok tt (add_log (EvTrigger t type key) st).
Proof. intros H. unfold trigger, bind, modify. simpl. by rewrite H. Qed.

(** The setter over an old value that is not an object: it stores the new
    value, unwrapped by [toRaw] when the proxy is deep, and then issues the
    trigger of an addition or of a change. *)
Lemma createSetter_store rec n p t m o o' ok key val v' old st :
  heap st !! p = Some (CProxy t m false) → proxyMap m st !! t = Some p →
  heap st !! t = Some (CRaw o) → truthy (raw_get o RAW) = false →
  key ≠ RAW →
  (if mode_shallow m then v' = val
   else isReadonly (3 + n) val st = Ok false st ∧ toRaw (3 + n) val st = Ok v' st) →
  raw_read o key = Some old → isObject old = false →
  raw_set o key v' = SetDone o' ok →
  createSetter rec (3 + n) (mode_shallow m) t key val (VObj p) st
  = ((if negb (hadKey_of o key) then trigger rec (3 + n) t ADD (Some key) v'
      else if hasChanged v' old then trigger rec (3 + n) t SET (Some key) v'
      else ret tt);;
     ret ok) (set_heap (insert t (CRaw o')) st).
Proof.
  intros Hp Hm Ht Hraw Hkey Hval Hread Hold Hset.
  pose proof (raw_read_inv _ _ _ Hread) as ->.
  change (3 + n)%nat with (S (S (S n))) in *.
  unfold createSetter. unfold bind at 1. rewrite (js_get_raw _ _ _ _ _ _ _ Ht Hread).
  assert (∀ P : value * value -> M bool,
            (let* early :=
               (if negb (mode_shallow m) && negb false then
                  let* val := toRaw (S (S (S n))) val in
                  let* oldValue := toRaw (S (S (S n))) (raw_get o key) in
                  let* viaRef :=
                    (fun st =>
                       if isArray (S (S (S n))) t st then Ok false st
                       else (let* oldIsRef := isRef (S (S (S n))) oldValue in
                             if oldIsRef : bool
                             then (let* newIsRef := isRef (S (S (S n))) val in ret (negb newIsRef))
                             else ret false) st) in
                  if viaRef : bool then
                    match oldValue with
                    | VObj r => ref_set rec (S (S (S n))) r val;; ret (Some true, val, oldValue)
                    | _ => abort_with Unmodelled
                    end
                  else ret (None, val, oldValue)
                else ret (None, val, raw_get o key)) in
             match early with
             | (Some b, _, _) => ret b
             | (None, val, oldValue) => P (val, oldValue)
             end) st = P (v', raw_get o key) st) as Hearly.
  { intros P. unfold bind at 1. destruct (mode_shallow m); cbn [negb andb].
    { by subst v'. }
    destruct Hval as [_ Hraw'].
    unfold bind at 1. rewrite Hraw'.
    unfold bind at 1. rewrite toRaw_primitive by done.
    unfold bind at 1. destruct (isArray _ t st); [done|].
    unfold bind at 1. by rewrite isRef_primitive. }
  assert ((if mode_shallow m then ret true else isReadonly (S (S (S n))) val) st
          = Ok (mode_shallow m) st) as Hro.
  { destruct (mode_shallow m); [done|]. apply Hval. }
  unfold bind at 1. rewrite Hro.
  assert (negb (mode_shallow m) && negb (mode_shallow m) = negb (mode_shallow m) && negb false)
    as -> by (by destruct (mode_shallow m)).
  rewrite (Hearly (fun '(val, oldValue) =>
    let* hadKey := (fun st => match heap st !! t with
                              | Some (CRaw o) => Ok (hadKey_of o key) st
                              | _ => Abort Unmodelled end) in
    let* result := Reflect_set t key val in
    let* rawReceiver := toRaw (S (S (S n))) (VObj p) in
    (if bool_decide (VObj t = rawReceiver) then
       if negb hadKey then trigger rec (S (S (S n))) t ADD (Some key) val
       else if hasChanged val oldValue then trigger rec (S (S (S n))) t SET (Some key) val
       else ret tt
     else ret tt);;
    ret result)).
  unfold bind at 1. rewrite Ht.
  unfold bind at 1. unfold Reflect_set. rewrite Ht, Hset.
  set (st0 := set_heap (insert t (CRaw o')) st).
  assert (p ≠ t) as Hpt by (intros ->; congruence).
  assert (toRaw (S (S (S n))) (VObj p) st0 = Ok (VObj t) st0) as Hrecv.
  { apply (toRaw_wraps st0 1 (VObj p) t n).
    eapply wraps_proxy.
    - subst st0. simpl. rewrite lookup_insert_ne by done. exact Hp.
    - subst st0. rewrite proxyMap_set_heap_map. exact Hm.
    - eapply wraps_raw; [subst st0; simpl; apply lookup_insert_eq|].
      rewrite (raw_get_raw_set_ne _ _ _ _ _ RAW Hset); done. }
  unfold bind at 1. rewrite Hrecv.
  by rewrite bool_decide_eq_true_2.
Qed.

(** ... for a target that no effect has read. *)
Lemma createSetter_plain rec n p t m o o' ok key val v' old st :
  heap st !! p = Some (CProxy t m false) → proxyMap m st !! t = Some p →
  heap st !! t = Some (CRaw o) → truthy (raw_get o RAW) = false →
  key ≠ RAW →
  (if mode_shallow m then v' = val
   else isReadonly (3 + n) val st = Ok false st ∧ toRaw (3 + n) val st = Ok v' st) →
  raw_read o key = Some old → isObject old = false →
  raw_set o key v' = SetDone o' ok →
  targetMap st !! t = None →
  ∃ st1,
    createSetter rec (3 + n) (mode_shallow m) t key val (VObj p) st = Ok ok st1
    ∧ heap st1 = <[t := CRaw o']> (heap st)
    ∧ targetMap st1 = targetMap st ∧ deps st1 = deps st
    ∧ ∀ m', proxyMap m' st1 = proxyMap m' st.
Proof.
  intros Hp Hm Ht Hraw Hkey Hval Hread Hold Hset Htm.
  rewrite (createSetter_store rec n p t m o o' ok key val v' old st) by done.
  assert (targetMap (set_heap (insert t (CRaw o')) st) !! t = None) as Htm0 by done.
  destruct (negb (hadKey_of o key)).
  - unfold bind. rewrite (trigger_no_depsMap _ _ _ _ _ _ _ Htm0).
    eexists. split; [reflexivity|]. by repeat split.
  - destruct (hasChanged v' old).
    + unfold bind. rewrite (trigger_no_depsMap _ _ _ _ _ _ _ Htm0).
      eexists. split; [reflexivity|]. by repeat split.
    + eexists. split; [reflexivity|]. by repeat split.
Qed.

(** X13. A write is the store followed by the trigger of its kind:
    through a mutable proxy of an ordinary object, setting a key that is
    read off the target (its own, or nowhere on its prototype chain) to a
    value that is not an object, over a value [old] that is not an object,
    stores the value in the target and then issues the trigger of an ADD
    when the target did not have the key (for an array: when the index is
    not below the length), of a SET when it had it with another value, and
    none when the value is the same; deleting a key that the target has
    removes it and issues the trigger of a DELETE. *)
Theorem writes_store_then_trigger rec n p t m o key st :
  heap st !! p = Some (CProxy t m false) → mode_isReadonly m = false →
  proxyMap m st !! t = Some p →
  heap st !! t = Some (CRaw o) → truthy (raw_get o RAW) = false →
  (∀ v old o' ok,
     key ≠ RAW → raw_read o key = Some old →
     isObject v = false → isObject old = false →
     raw_set o key v = SetDone o' ok →
     js_set rec (3 + n) (VObj p) key v st
     = ((if negb (hadKey_of o key) then trigger rec (3 + n) t ADD (Some key) v
         else if hasChanged v old then trigger rec (3 + n) t SET (Some key) v
         else ret tt);;
        ret ok) (set_heap (insert t (CRaw o')) st))
  ∧ (raw_hasOwn o key = true → ¬ (obj_isArray o = true ∧ key = LENGTH) →
     js_delete rec n (VObj p) key st
     = (trigger rec n t DELETE (Some key) VUndef;; ret true)
         (set_heap (insert t (CRaw (raw_delete o key).1)) st)).
Proof.
  intros Hp Hro Hm Ht Hraw. split.
  - intros v old o' ok Hkey Hread Hv Hold Hset.
    unfold js_set. rewrite Hp, Hro.
    apply (createSetter_store rec n p t m o o' ok key v v old st); try done.
    destruct (mode_shallow m); [done|].
    split; [by apply isReadonly_primitive|by apply toRaw_primitive].
  - intros Hhas Hlen.
    unfold js_delete. rewrite Hp, Hro. unfold deleteProperty. rewrite Ht, Hhas.
    assert ((raw_delete o key).2 = true) as Hres.
    { unfold raw_delete. destruct (obj_isArray o) eqn:Harr; [|done].
      destruct (array_index key) as [i|]; [by destruct (i <? _)%nat|].
      destruct (bool_decide (key = LENGTH)) eqn:Hk; [|done].
      apply bool_decide_eq_true in Hk. by destruct Hlen. }
    destruct (raw_delete o key) as [o' r]. simpl in Hres. subst r. done.
Qed.

(** Setting and deleting [a] through the reactive proxy of [{a: 1}] that
    two effects have read. *)
Lemma writes_store_then_trigger_witness :
  (∀ v old o' ok,
     KStr "a" ≠ RAW → raw_read (obj [(KStr "a", VNum 1)]) (KStr "a") = Some old →
     isObject v = false → isObject old = false →
     raw_set (obj [(KStr "a", VNum 1)]) (KStr "a") v = SetDone o' ok →
     js_set (exec 20) 3 (VObj 1%nat) (KStr "a") v throwing_reader
     = ((if negb (hadKey_of (obj [(KStr "a", VNum 1)]) (KStr "a"))
         then trigger (exec 20) 3 0%nat ADD (Some (KStr "a")) v
         else if hasChanged v old
              then trigger (exec 20) 3 0%nat SET (Some (KStr "a")) v
              else ret tt);;
        ret ok) (set_heap (insert 0%nat (CRaw o')) throwing_reader))
  ∧ (raw_hasOwn (obj [(KStr "a", VNum 1)]) (KStr "a") = true →
     ¬ (obj_isArray (obj [(KStr "a", VNum 1)]) = true ∧ KStr "a" = LENGTH) →
     js_delete (exec 20) 0 (VObj 1%nat) (KStr "a") throwing_reader
     = (trigger (exec 20) 0 0%nat DELETE (Some (KStr "a")) VUndef;; ret true)
         (set_heap (insert 0%nat
            (CRaw (raw_delete (obj [(KStr "a", VNum 1)]) (KStr "a")).1)) throwing_reader)).
Proof.
  apply (writes_store_then_trigger (exec 20) 0 1%nat 0%nat MReactive
           (obj [(KStr "a", VNum 1)]) (KStr "a") throwing_reader);
    vm_compute; reflexivity.
Defined.

(** X14. What is written through a mutable proxy is what is read back:
    for a target that no effect has read yet, when setting a key (other
    than the three markers the getter answers itself) that is read off the
    target (its own, or nowhere on its prototype chain) to a value that is
    not an object, over a value that is not an object, succeeds on the
    target, it returns true and stores the value in the target, and the next
    read of the key through the proxy returns it. *)
Theorem set_then_get_round_trip rec n p t m o o' key v old st :
  heap st !! p = Some (CProxy t m false) → mode_isReadonly m = false →
  proxyMap m st !! t = Some p →
  heap st !! t = Some (CRaw o) → truthy (raw_get o RAW) = false →
  key ≠ IS_REACTIVE → key ≠ IS_READONLY → key ≠ RAW →
  (obj_isArray o && arrayInstrumentations_hasOwn key) = false →
  raw_read o key = Some old →
  isObject v = false → isObject old = false →
  raw_set o key v = SetDone o' true →
  targetMap st !! t = None → deps_wf st →
  ∃ st1 st2,
    js_set rec (3 + n) (VObj p) key v st = Ok true st1
    ∧ heap st1 !! t = Some (CRaw o')
    ∧ js_get (3 + n) (VObj p) key (VObj p) st1 = Ok v st2.
Proof.
  intros Hp Hro Hm Ht Hraw H1 H2 H3 Hinstr Hread Hv Hold Hset Htm Hwf.
  destruct (createSetter_plain rec n p t m o o' true key v v old st)
    as (st1 & Hs & Hheap & Htm1 & Hdeps1 & _); try done.
  { destruct (mode_shallow m); [done|].
    split; [by apply isReadonly_primitive|by apply toRaw_primitive]. }
  assert (p ≠ t) as Hpt by (intros ->; congruence).
  assert (heap st1 !! t = Some (CRaw o')) as Ht1 by (rewrite Hheap; apply lookup_insert_eq).
  assert (heap st1 !! p = Some (CProxy t m false)) as Hp1.
  { rewrite Hheap, lookup_insert_ne by done. exact Hp. }
  assert (deps_wf st1) as Hwf1.
  { intros t' depsMap k di. rewrite Htm1, Hdeps1. apply Hwf. }
  assert (obj_isArray o' = obj_isArray o) as Harr.
  { unfold obj_isArray. by rewrite (raw_set_isArray _ _ _ _ _ Hset). }
  assert (raw_read o' key = Some v) as Hread1.
  { destruct (raw_get_raw_assign o key v o' (raw_set_assign _ _ _ _ _ _ Hread Hset))
      as [Hget Hown].
    by rewrite (raw_read_own _ _ Hown), Hget. }
  assert (∃ st2, (if negb (mode_isReadonly m) then track t key else ret tt) st1 = Ok tt st2)
    as (st2 & Htrack).
  { rewrite Hro. cbn [negb]. destruct (track_total t key st1 Hwf1) as (st2 & Htr & _).
    by exists st2. }
  exists st1. exists (if (if isSymbol key then builtInSymbols_has key
                          else isNonTrackableKeys key) then st1 else st2).
  split. { unfold js_set. by rewrite Hp, Hro. }
  split; [exact Ht1|].
  change (3 + n)%nat with (S (S (S n))).
  rewrite (createGetter_own_key (S n) p t m o' key v (VObj p) st1 Hp1 Ht1 Hread1 H1 H2 H3).
  2: { rewrite Harr, Hro. exact Hinstr. }
  destruct (if isSymbol key then _ else _); [done|].
  unfold bind at 1. rewrite Htrack.
  destruct (mode_shallow m); [done|].
  unfold bind at 1.
  assert ((if truthy v then js_get (S (S n)) v IS_REF v else ret VUndef) st2 = Ok VUndef st2)
    as ->.
  { destruct (truthy v) eqn:Htr; [|done].
    apply js_get_primitive_flag; try done. apply IS_REF_flag. }
  rewrite bool_decide_eq_false_2 by done. by rewrite Hv.
Qed.

(** Setting the new key [b] through the reactive proxy of [{a: 1}]. *)
Lemma set_then_get_round_trip_witness :
  ∃ st1 st2,
    js_set (exec 0) 3 (VObj 1%nat) (KStr "b") (VStr "x") reactive_view = Ok true st1
    ∧ heap st1 !! 0%nat
      = Some (CRaw (mkObj TObject true [] [(KStr "a", VNum 1); (KStr "b", VStr "x")]))
    ∧ js_get 3 (VObj 1%nat) (KStr "b") (VObj 1%nat) st1 = Ok (VStr "x") st2.
Proof.
  apply (set_then_get_round_trip (exec 0) 0 1%nat 0%nat MReactive sample_object
           (mkObj TObject true [] [(KStr "a", VNum 1); (KStr "b", VStr "x")])
           (KStr "b") (VStr "x") VUndef reactive_view); try (vm_compute; reflexivity); done.
Defined.

Lemma assoc_del_absent {A} (k : Key) (l : list (Key * A)) :
  assoc_get k l = None → assoc_del k l = l.
Proof.
  induction l as [|[k' v'] l IH]; simpl; [done|].
  destruct (bool_decide (k = k')); [done|]. intros H. by rewrite IH.
Qed.

Lemma assoc_get_not_in {A} (k : Key) (l : list (Key * A)) :
  k ∉ l.*1 → assoc_get k l = None.
Proof.
  induction l as [|[k' v'] l IH]; simpl; [done|].
  intros Hnot. apply not_elem_of_cons in Hnot as [Hne Hnot].
  rewrite bool_decide_eq_false_2 by done. by apply IH.
Qed.

Lemma assoc_get_del {A} (k : Key) (l : list (Key * A)) :
  NoDup l.*1 → assoc_get k (assoc_del k l) = None.
Proof.
  induction l as [|[k' v'] l IH]; simpl; [done|].
  intros Hnd. apply NoDup_cons in Hnd as [Hnot Hnd].
  destruct (bool_decide (k = k')) eqn:Hk.
  - apply bool_decide_eq_true in Hk as ->. by apply assoc_get_not_in.
  - simpl. rewrite Hk. by apply IH.
Qed.

Lemma with_elems_same o : with_elems o (o_elems o) = o.
Proof. by destruct o. Qed.
Lemma with_props_same o : with_props o (o_props o) = o.
Proof. by destruct o. Qed.

Lemma raw_delete_absent o key : raw_hasOwn o key = false → raw_delete o key = (o, true).
Proof.
  unfold raw_hasOwn, raw_delete. destruct (obj_isArray o).
  - destruct (array_index key) as [i|].
    + destruct (i <? length (o_elems o))%nat eqn:Hlt; [|done].
      apply Nat.ltb_lt in Hlt. destruct (lookup_lt_is_Some_2 _ _ Hlt) as [[v|] Hv];
        rewrite Hv; [done|]. intros _.
      by rewrite list_insert_id, with_elems_same.
    + destruct (bool_decide (key = LENGTH)); [done|]. cbn [orb].
      destruct (assoc_get key (o_props o)) eqn:Hk; [done|]. intros _.
      by rewrite assoc_del_absent, with_props_same.
  - destruct (assoc_get key (o_props o)) eqn:Hk; [done|]. intros _.
    by rewrite assoc_del_absent, with_props_same.
Qed.

Lemma raw_delete_type o key : o_type (raw_delete o key).1 = o_type o.
Proof. unfold raw_delete. repeat case_match; done. Qed.

(** The prototype chain of an object goes with its class. *)
Lemma proto_has_type o o' key : o_type o' = o_type o → proto_has o' key = proto_has o key.
Proof. intros H. unfold proto_has. by rewrite H. Qed.

Lemma set_heap_insert_id a c st : heap st !! a = Some c → set_heap (insert a c) st = st.
Proof. intros H. destruct st. unfold set_heap. simpl in *. by rewrite insert_id. Qed.

(** X15. Deleting what is not there does nothing: through a mutable
    proxy, [delete] of a key that the target does not have returns true,
    and [delete] of the ["length"] of an array returns false; either way
    the state is unchanged, so no trigger is issued, whatever subscribes to
    the target. *)
Theorem deleting_an_absent_key_changes_nothing rec n p t m o key st :
  heap st !! p = Some (CProxy t m false) → mode_isReadonly m = false →
  heap st !! t = Some (CRaw o) →
  (raw_hasOwn o key = false → js_delete rec n (VObj p) key st = Ok true st)
  ∧ (obj_isArray o = true → js_delete rec n (VObj p) LENGTH st = Ok false st).
Proof.
  intros Hp Hro Ht. split.
  - intros Habsent. unfold js_delete. rewrite Hp, Hro. unfold deleteProperty.
    rewrite Ht, Habsent, (raw_delete_absent _ _ Habsent). cbn [andb].
    unfold bind, store_raw, modify, ret. by rewrite (set_heap_insert_id _ _ _ Ht).
  - intros Harr. unfold js_delete. rewrite Hp, Hro. unfold deleteProperty.
    rewrite Ht. unfold raw_delete. rewrite Harr.
    change (array_index LENGTH) with (@None nat).
    rewrite bool_decide_eq_true_2 by done. cbn [andb].
    unfold bind, store_raw, modify, ret. by rewrite (set_heap_insert_id _ _ _ Ht).
Qed.

Lemma deleting_an_absent_key_changes_nothing_witness :
  (raw_hasOwn (arr [VNum 1; VNum 2; VNum 3; VNum 4]) (KStr "7") = false →
   js_delete (exec 0) 0 (VObj 1%nat) (KStr "7") array_readers = Ok true array_readers)
  ∧ (obj_isArray (arr [VNum 1; VNum 2; VNum 3; VNum 4]) = true →
     js_delete (exec 0) 0 (VObj 1%nat) LENGTH array_readers = Ok false array_readers).
Proof.
  apply (deleting_an_absent_key_changes_nothing (exec 0) 0 1%nat 0%nat MReactive
           (arr [VNum 1; VNum 2; VNum 3; VNum 4]) (KStr "7") array_readers);
    vm_compute; reflexivity.
Defined.

Lemma raw_hasOwn_raw_delete o key :
  NoDup (o_props o).*1 → ¬ (obj_isArray o = true ∧ key = LENGTH) →
  raw_hasOwn (raw_delete o key).1 key = false ∧ (raw_delete o key).2 = true.
Proof.
  intros Hnd Hlen.
  assert (∀ l, raw_hasOwn (with_elems o l) key
               = if obj_isArray o then
                   match array_index key with
                   | Some i => match l !! i with Some (Some _) => true | _ => false end
                   | None => bool_decide (key = LENGTH)
                             || match assoc_get key (o_props o) with
                                | Some _ => true | None => false end
                   end
                 else match assoc_get key (o_props o) with
                      | Some _ => true | None => false end) as Helems by done.
  assert (∀ l, raw_hasOwn (with_props o l) key
               = if obj_isArray o then
                   match array_index key with
                   | Some i => match o_elems o !! i with Some (Some _) => true | _ => false end
                   | None => bool_decide (key = LENGTH)
                             || match assoc_get key l with
                                | Some _ => true | None => false end
                   end
                 else match assoc_get key l with
                      | Some _ => true | None => false end) as Hprops by done.
  unfold raw_delete.
  destruct (obj_isArray o) eqn:Harr.
  - destruct (array_index key) as [i|] eqn:Hi.
    + destruct (i <? length (o_elems o))%nat eqn:Hlt; cbn [fst snd].
      * rewrite Helems. apply Nat.ltb_lt in Hlt.
        by rewrite list_lookup_insert_eq.
      * unfold raw_hasOwn. rewrite Harr, Hi. apply Nat.ltb_ge in Hlt.
        by rewrite lookup_ge_None_2.
    + destruct (bool_decide (key = LENGTH)) eqn:Hk.
      { apply bool_decide_eq_true in Hk. by destruct Hlen. }
      cbn [fst snd]. rewrite Hprops. cbn [orb]. by rewrite assoc_get_del.
  - cbn [fst snd]. rewrite Hprops. by rewrite assoc_get_del.
Qed.

(** X16. What is deleted is gone from the target: for a target (whose
    keys are distinct) that no effect has read yet, [delete] through a
    mutable proxy of a key of the target, other than the ["length"] of an
    array, returns true and leaves the target without the key; [key in
    proxy] afterwards answers for the prototype chain alone: false for a
    key that no prototype has, true for one that is inherited. *)
Theorem deleted_key_is_left_to_the_prototype rec n p t m o key b st :
  heap st !! p = Some (CProxy t m false) → mode_isReadonly m = false →
  heap st !! t = Some (CRaw o) → NoDup (o_props o).*1 →
  raw_hasOwn o key = true → ¬ (obj_isArray o = true ∧ key = LENGTH) →
  proto_has o key = Some b →
  targetMap st !! t = None → deps_wf st →
  ∃ st1 st2 o1,
    js_delete rec n (VObj p) key st = Ok true st1
    ∧ heap st1 !! t = Some (CRaw o1) ∧ raw_hasOwn o1 key = false
    ∧ js_has (1 + n) (VObj p) key st1 = Ok b st2.
Proof.
  intros Hp Hro Ht Hnd Hhas Hlen Hproto Htm Hwf.
  destruct (raw_hasOwn_raw_delete o key Hnd Hlen) as [Hgone Hres].
  assert (p ≠ t) as Hpt by (intros ->; congruence).
  set (st0 := set_heap (insert t (CRaw (raw_delete o key).1)) st).
  set (st1 := add_log (EvTrigger t DELETE (Some key)) st0).
  assert (js_delete rec n (VObj p) key st = Ok true st1) as Hdel.
  { unfold js_delete. rewrite Hp, Hro. unfold deleteProperty. rewrite Ht, Hhas.
    destruct (raw_delete o key) as [o' r]. simpl in Hres. subst r. cbn [andb].
    unfold bind at 1. unfold store_raw at 1, modify at 1.
    unfold bind at 1. by rewrite trigger_no_depsMap. }
  assert (deps_wf st1) as Hwf1 by (intros t' depsMap k di; apply Hwf).
  assert (∃ st2, (if negb (isSymbol key) || negb (builtInSymbols_has key)
                  then track t key else ret tt) st1 = Ok tt st2) as (st2 & Htrack).
  { destruct (_ || _); [|by exists st1].
    destruct (track_total t key st1 Hwf1) as (st2 & Htr & _). by exists st2. }
  assert (heap st1 !! t = Some (CRaw (raw_delete o key).1)) as Ht1.
  { subst st1 st0. simpl. apply lookup_insert_eq. }
  exists st1, st2, (raw_delete o key).1.
  split; [exact Hdel|]. split; [exact Ht1|]. split; [exact Hgone|].
  cbn [js_has plus].
  assert (heap st1 !! p = Some (CProxy t m false)) as ->.
  { subst st1 st0. simpl. by rewrite lookup_insert_ne. }
  rewrite Hro. unfold has. rewrite Ht1. unfold raw_has.
  rewrite Hgone, (proto_has_type o _ key (raw_delete_type o key)), Hproto.
  unfold bind. by rewrite Htrack.
Qed.

(** Deleting [a] through the reactive proxy of [{a: 1}]: no prototype has
    ["a"]. *)
Lemma deleted_key_is_left_to_the_prototype_witness :
  ∃ st1 st2 o1,
    js_delete (exec 0) 0 (VObj 1%nat) (KStr "a") reactive_view = Ok true st1
    ∧ heap st1 !! 0%nat = Some (CRaw o1) ∧ raw_hasOwn o1 (KStr "a") = false
    ∧ js_has 1 (VObj 1%nat) (KStr "a") st1 = Ok false st2.
Proof.
  apply (deleted_key_is_left_to_the_prototype (exec 0) 0 1%nat 0%nat MReactive sample_object
           (KStr "a") false reactive_view); try (vm_compute; reflexivity).
  - apply NoDup_singleton.
  - by intros [? _].
  - intros t depsMap key di. simpl. by rewrite lookup_empty.
Defined.

(** X17. A deep proxy stores raw values, a shallow proxy stores what it is
    given: for a target (an extensible object, not an array) that no effect
    has read yet, setting a key that is read off the target (its own, or
    nowhere on its prototype chain) and holds no object to the mutable proxy
    [q] of an object [u] stores [u] itself through a deep proxy, and [q]
    through a shallow one. *)
Theorem deep_set_stores_the_raw_value rec n p t m o key old q u m2 ou st :
  heap st !! p = Some (CProxy t m false) → mode_isReadonly m = false →
  proxyMap m st !! t = Some p →
  heap st !! t = Some (CRaw o) → truthy (raw_get o RAW) = false →
  obj_isArray o = false → o_ext o = true →
  key ≠ RAW → raw_read o key = Some old → isObject old = false →
  heap st !! q = Some (CProxy u m2 false) → mode_isReadonly m2 = false →
  proxyMap m2 st !! u = Some q →
  heap st !! u = Some (CRaw ou) → truthy (raw_get ou RAW) = false →
  targetMap st !! t = None →
  ∃ st1 o',
    js_set rec (3 + n) (VObj p) key (VObj q) st = Ok true st1
    ∧ heap st1 !! t = Some (CRaw o')
    ∧ raw_get o' key = VObj (if mode_shallow m then q else u).
Proof.
  intros Hp Hro Hm Ht Hraw Harr Hext Hkey Hread Hold Hq Hro2 Hm2 Hu Hrawu Htm.
  set (v' := VObj (if mode_shallow m then q else u)).
  assert (∃ o', raw_assign o key v' = SetDone o' true) as [o' Hassign].
  { unfold raw_assign. rewrite Harr, Hext. destruct (assoc_get key (o_props o)); eauto. }
  assert (raw_set o key v' = SetDone o' true) as Hset.
  { unfold raw_set. destruct (raw_hasOwn o key) eqn:Hown; [done|].
    rewrite bool_decide_eq_false_2.
    2: { intros ->. apply raw_read_proto in Hread. congruence. }
    unfold raw_read in Hread. rewrite Hown in Hread. cbn [orb] in Hread.
    destruct (bool_decide (proto_has o key = Some false)) eqn:Hp0; [|done].
    apply bool_decide_eq_true in Hp0. by rewrite Hp0. }
  destruct (createSetter_plain rec n p t m o o' true key (VObj q) v' old st)
    as (st1 & Hs & Hheap & _); try done.
  { subst v'. destruct (mode_shallow m); [done|]. split.
    - change (3 + n)%nat with (S (S (S n))).
      by rewrite (isReadonly_proxy _ _ _ _ _ _ Hq), Hro2.
    - apply (toRaw_wraps st 1 (VObj q) u n).
      eapply wraps_proxy; [exact Hq|exact Hm2|]. by eapply wraps_raw. }
  exists st1, o'. split. { unfold js_set. by rewrite Hp, Hro. }
  split. { rewrite Hheap. apply lookup_insert_eq. }
  apply (raw_get_raw_assign _ _ _ _ Hassign).
Qed.

(** Setting the new key [b] of [x] to the reactive proxy of [u], through
    the reactive proxy of [x]. *)
Lemma deep_set_stores_the_raw_value_witness :
  ∃ st1 o',
    js_set (exec 0) 3 (VObj 2%nat) (KStr "b") (VObj 3%nat) two_views = Ok true st1
    ∧ heap st1 !! 1%nat = Some (CRaw o')
    ∧ raw_get o' (KStr "b") = VObj (if mode_shallow MReactive then 3%nat else 0%nat).
Proof.
  apply (deep_set_stores_the_raw_value (exec 0) 0 2%nat 1%nat MReactive
           (obj [(KStr "a", VNum 1)]) (KStr "b") VUndef 3%nat 0%nat MReactive (obj [])
           two_views); try (vm_compute; reflexivity); done.
Defined.

(** ** Which Deps an operation fires *)

Lemma isArray_raw n t o st :
  heap st !! t = Some (CRaw o) → isArray (S n) t st = obj_isArray o.
Proof. intros H. unfold isArray. by rewrite (underlying_raw _ _ _ _ H). Qed.

(** X18. Listing the keys of an object subscribes to additions and
    deletions, not to changes of value: for a target that is neither an
    array nor a Map, when the Dep of the iteration key exists and [key] has
    no Dep, the triggers of an ADD and of a DELETE of [key] run the
    subscribers of the iteration Dep, and the trigger of a SET of [key] runs
    nothing. *)
Theorem key_iteration_reruns_on_add_and_delete rec n t o depsMap key di v st :
  heap st !! t = Some (CRaw o) → obj_isArray o = false → o_type o ≠ TMap →
  targetMap st !! t = Some depsMap →
  assoc_get key depsMap = None → assoc_get ITERATE_KEY depsMap = Some di →
  trigger rec (S n) t ADD (Some key) v st
  = triggerEffects rec (dedup_subs (dep_subs di st)) (add_log (EvTrigger t ADD (Some key)) st)
  ∧ trigger rec (S n) t DELETE (Some key) v st
    = triggerEffects rec (dedup_subs (dep_subs di st))
        (add_log (EvTrigger t DELETE (Some key)) st)
  ∧ trigger rec (S n) t SET (Some key) v st
    = Ok tt (add_log (EvTrigger t SET (Some key)) st).
Proof.
  intros Ht Harr Hmap Htm Hkey Hiter.
  assert (∀ ty, isArray (S n) t (add_log (EvTrigger t ty (Some key)) st) = false) as HisArr.
  { intros ty. by rewrite (isArray_raw n t o). }
  assert (∀ ty, underlying (S n) (add_log (EvTrigger t ty (Some key)) st) t = Some o) as Hund.
  { intros ty. by apply underlying_raw. }
  repeat split; unfold trigger; unfold bind at 1; unfold modify at 1;
    cbn [targetMap add_log]; rewrite Htm, HisArr, Hund;
    rewrite (bool_decide_eq_false_2 (o_type o = TMap)) by done;
    rewrite andb_false_r; unfold bind, ret; cbn [bool_decide decide_rel negb app];
    rewrite ?Hkey, ?Hiter; simpl; by rewrite ?app_nil_r.
Qed.

Lemma key_iteration_reruns_on_add_and_delete_witness :
  trigger (exec 20) 1 0%nat ADD (Some (KStr "b")) (VNum 2) key_lister
  = triggerEffects (exec 20) (dedup_subs (dep_subs 0%nat key_lister))
      (add_log (EvTrigger 0%nat ADD (Some (KStr "b"))) key_lister)
  ∧ trigger (exec 20) 1 0%nat DELETE (Some (KStr "b")) (VNum 2) key_lister
    = triggerEffects (exec 20) (dedup_subs (dep_subs 0%nat key_lister))
        (add_log (EvTrigger 0%nat DELETE (Some (KStr "b"))) key_lister)
  ∧ trigger (exec 20) 1 0%nat SET (Some (KStr "b")) (VNum 2) key_lister
    = Ok tt (add_log (EvTrigger 0%nat SET (Some (KStr "b"))) key_lister).
Proof.
  apply (key_iteration_reruns_on_add_and_delete (exec 20) 0 0%nat (obj [(KStr "a", VNum 1)])
           [(ITERATE_KEY, 0%nat)] (KStr "b") 0%nat (VNum 2) key_lister);
    try (vm_compute; reflexivity); done.
Defined.

(** X19. Reading the length of an array subscribes to appends: for an
    array target, when the Dep of ["length"] exists and the integer key
    [key] has no Dep, the trigger of an ADD of [key] runs the subscribers of
    the Dep of ["length"], and the triggers of a SET and of a DELETE of
    [key] run nothing. *)
Theorem array_length_readers_rerun_on_append rec n t o depsMap key di v st :
  heap st !! t = Some (CRaw o) → obj_isArray o = true → isIntegerKey key = true →
  targetMap st !! t = Some depsMap →
  assoc_get key depsMap = None → assoc_get LENGTH depsMap = Some di →
  trigger rec (S n) t ADD (Some key) v st
  = triggerEffects rec (dedup_subs (dep_subs di st)) (add_log (EvTrigger t ADD (Some key)) st)
  ∧ trigger rec (S n) t SET (Some key) v st
    = Ok tt (add_log (EvTrigger t SET (Some key)) st)
  ∧ trigger rec (S n) t DELETE (Some key) v st
    = Ok tt (add_log (EvTrigger t DELETE (Some key)) st).
Proof.
  intros Ht Harr Hint Htm Hkey Hlen.
  assert (key ≠ LENGTH) as Hne by (intros ->; done).
  assert (∀ ty, isArray (S n) t (add_log (EvTrigger t ty (Some key)) st) = true) as HisArr.
  { intros ty. by rewrite (isArray_raw n t o). }
  assert (∀ ty, underlying (S n) (add_log (EvTrigger t ty (Some key)) st) t = Some o) as Hund.
  { intros ty. by apply underlying_raw. }
  assert (o_type o ≠ TMap) as Hmap.
  { unfold obj_isArray in Harr. apply bool_decide_eq_true in Harr. by rewrite Harr. }
  repeat split; unfold trigger; unfold bind at 1; unfold modify at 1;
    cbn [targetMap add_log]; rewrite Htm, HisArr, Hund;
    rewrite (bool_decide_eq_false_2 (o_type o = TMap)) by done;
    rewrite (bool_decide_eq_false_2 (Some key = Some LENGTH)) by congruence;
    unfold bind, ret; cbn [bool_decide decide_rel negb app andb];
    rewrite ?Hkey, ?Hlen, ?Hint; simpl; by rewrite ?app_nil_r.
Qed.

Lemma array_length_readers_rerun_on_append_witness :
  trigger (exec 20) 1 0%nat ADD (Some (KStr "3")) (VNum 4) symbol_reader
  = triggerEffects (exec 20) (dedup_subs (dep_subs 0%nat symbol_reader))
      (add_log (EvTrigger 0%nat ADD (Some (KStr "3"))) symbol_reader)
  ∧ trigger (exec 20) 1 0%nat SET (Some (KStr "3")) (VNum 4) symbol_reader
    = Ok tt (add_log (EvTrigger 0%nat SET (Some (KStr "3"))) symbol_reader)
  ∧ trigger (exec 20) 1 0%nat DELETE (Some (KStr "3")) (VNum 4) symbol_reader
    = Ok tt (add_log (EvTrigger 0%nat DELETE (Some (KStr "3"))) symbol_reader).
Proof.
  apply (array_length_readers_rerun_on_append (exec 20) 0 0%nat (arr [VNum 1; VNum 2; VNum 3])
           [(LENGTH, 0%nat); (KSym (SymUser 0), 1%nat)] (KStr "3") 0%nat (VNum 4)
           symbol_reader);
    vm_compute; reflexivity.
Defined.

(** ** [run] restores its frame *)

Lemma frame_ok_eq st st' : frame st' = frame st → frame_ok st → frame_ok st'.
Proof. unfold frame, frame_ok. intros [= -> -> -> ->]. done. Qed.

Lemma frame_post_bind {A B} (c : M A) (k : A -> M B) st :
  frame_ok st → frame_post st (c st) →
  (∀ a st1, c st = Ok a st1 → frame_ok st1 → frame_post st1 (k a st1)) →
  frame_post st (bind c k st).
Proof.
  unfold bind. intros Hok. destruct (c st) as [a st1|x st1|w]; simpl; intros H1 H2; [|done|done].
  specialize (H2 a st1 eq_refl (frame_ok_eq _ _ H1 Hok)).
  destruct (k a st1); simpl in *; [| |done]; congruence.
Qed.

Lemma kf_bind {A B} (c : M A) (k : A -> M B) :
  keeps_frame c → (∀ a, keeps_frame (k a)) → keeps_frame (bind c k).
Proof.
  intros Hc Hk st Hok. apply frame_post_bind; [done|by apply Hc|].
  intros a st1 _ Hok1. by apply Hk.
Qed.

Lemma kf_at {A} (c : M A) st : keeps_frame c → frame_ok st → frame_post st (c st).
Proof. intros H. apply H. Qed.

Lemma kf_ret {A} (a : A) : keeps_frame (ret a).
Proof. by intros st _. Qed.

Lemma kf_throw {A} x : keeps_frame (@throw A x).
Proof. by intros st _. Qed.

Lemma kf_abort {A} w : keeps_frame (@abort_with A w).
Proof. by intros st _. Qed.

Lemma kf_modify f : quiet f → keeps_frame (modify f).
Proof. intros H st _. apply H. Qed.

Lemma quiet_set_heap f : quiet (set_heap f).
Proof. done. Qed.
Lemma quiet_set_deps f : quiet (set_deps f).
Proof. done. Qed.
Lemma quiet_set_effects f : quiet (set_effects f).
Proof. done. Qed.
Lemma quiet_set_targetMap f : quiet (set_targetMap f).
Proof. done. Qed.
Lemma quiet_set_tracking b l : quiet (set_tracking b l).
Proof. done. Qed.
Lemma quiet_proxyMap_set m t p : quiet (proxyMap_set m t p).
Proof. done. Qed.
Lemma quiet_dep_update di f : quiet (dep_update di f).
Proof. done. Qed.
Lemma quiet_effect_update e f : quiet (effect_update e f).
Proof. done. Qed.
Lemma quiet_add_log ev : quiet (add_log ev).
Proof. done. Qed.

Lemma quiet_foldl {A} (f : state -> A -> state) (l : list A) :
  (∀ a, quiet (fun st => f st a)) → quiet (fun st => foldl f st l).
Proof.
  intros H. induction l as [|a l IH]; simpl; [done|].
  intros st. rewrite (IH (f st a)). apply (H a st).
Qed.

Lemma quiet_initDepMarkers e : quiet (initDepMarkers e).
Proof.
  intros st. unfold initDepMarkers.
  by apply (quiet_foldl (fun s di => dep_update di _ s)).
Qed.

Lemma quiet_cleanupEffect e : quiet (cleanupEffect e).
Proof.
  intros st. unfold cleanupEffect. rewrite quiet_effect_update.
  by apply (quiet_foldl (fun s di => dep_update di _ s)).
Qed.

Lemma finalize_walk_quiet e l st : frame (finalize_walk e l st).2 = frame st.
Proof.
  revert st. induction l as [|di l IH]; intros st; simpl; [done|].
  destruct (deps st !! di) as [d|]; [|apply IH].
  destruct (wasTracked d (trackOpBit st) && negb (newTracked d (trackOpBit st))).
  - by rewrite IH.
  - match goal with |- context [finalize_walk e l ?s] =>
      specialize (IH s); destruct (finalize_walk e l s) as [kept st'] end.
    simpl in *. by rewrite IH.
Qed.

Lemma quiet_finalizeDepMarkers e : quiet (finalizeDepMarkers e).
Proof.
  intros st. unfold finalizeDepMarkers.
  pose proof (finalize_walk_quiet e (effect_deps e st) st) as H.
  destruct (finalize_walk e (effect_deps e st) st) as [kept st']. simpl in *.
  by rewrite quiet_effect_update.
Qed.

Lemma quiet_resetTracking_st : quiet resetTracking_st.
Proof. intros st. unfold resetTracking_st. by destruct (last (trackStack st)). Qed.

Create HintDb frame discriminated.
#[local] Hint Resolve kf_ret kf_throw kf_abort kf_modify : frame.
#[local] Hint Resolve quiet_set_heap quiet_set_deps quiet_set_effects quiet_set_targetMap
  quiet_set_tracking quiet_proxyMap_set quiet_dep_update quiet_effect_update quiet_add_log
  quiet_initDepMarkers quiet_cleanupEffect quiet_finalizeDepMarkers
  quiet_resetTracking_st : frame.

Lemma kf_pauseTracking : keeps_frame pauseTracking.
Proof. apply kf_modify. done. Qed.

Lemma kf_enableTracking : keeps_frame enableTracking.
Proof. apply kf_modify. done. Qed.

Lemma kf_resetTracking : keeps_frame resetTracking.
Proof. apply kf_modify, quiet_resetTracking_st. Qed.

Lemma kf_createDep es : keeps_frame (createDep es).
Proof. by intros st _. Qed.

Lemma kf_alloc c : keeps_frame (alloc c).
Proof. by intros st _. Qed.

Lemma kf_trackEffects di : keeps_frame (trackEffects di).
Proof.
  intros st _. unfold trackEffects.
  destruct (deps st !! di) as [d|]; [|exact I].
  destruct (activeEffect st) as [e|] eqn:He; [|exact I].
  destruct (effectTrackDepth st <=? maxMarkerBits)%nat;
    [destruct (negb (newTracked d (trackOpBit st))); [destruct (negb (wasTracked d (trackOpBit st)))|]
    |destruct (negb (bool_decide (e ∈ d_subs d)))]; simpl; unfold frame; simpl; by rewrite ?He.
Qed.

#[local] Hint Resolve kf_pauseTracking kf_enableTracking kf_resetTracking kf_createDep
  kf_alloc kf_trackEffects : frame.

Lemma frame_post_from {A} st st0 (r : result A) :
  frame st0 = frame st → frame_post st0 r → frame_post st r.
Proof. intros H. destruct r; simpl; [| |done]; congruence. Qed.

Lemma kf_track t key : keeps_frame (track t key).
Proof.
  intros st Hok. unfold track.
  destruct (negb (isTracking st)); [done|].
  apply (frame_post_from _ (add_log (EvTrack t key) st)); [done|].
  destruct (assoc_get key _).
  - by apply kf_trackEffects.
  - apply kf_bind; [auto with frame| |done].
    intros di. apply kf_bind; auto with frame.
Qed.

Lemma kf_trackRefValue a : keeps_frame (trackRefValue a).
Proof.
  intros st Hok. unfold trackRefValue.
  destruct (negb (isTracking st)); [done|].
  destruct (heap st !! a) as [[| |inner [di|]]|]; try exact I; [by apply kf_trackEffects|].
  apply kf_bind; [auto with frame| |done].
  intros di. apply kf_bind; auto with frame.
Qed.

#[local] Hint Resolve kf_track kf_trackRefValue : frame.

Lemma kf_createGetter n get wrap isReadonly shallow target key receiver :
  (∀ o k r, keeps_frame (get o k r)) → (∀ m v, keeps_frame (wrap m v)) →
  keeps_frame (createGetter n get wrap isReadonly shallow target key receiver).
Proof.
  intros Hg Hw st Hok. unfold createGetter.
  repeat (destruct (bool_decide _ && bool_decide _) || destruct (bool_decide _));
    try done.
  destruct (underlying n st target) as [u|]; [|exact I].
  destruct (negb _ && _ && _); [done|].
  apply kf_at; [|done]. apply kf_bind; [apply Hg|]. intros res.
  destruct (if isSymbol key then _ else _); [apply kf_ret|].
  apply kf_bind. { destruct (negb _); auto with frame. }
  intros _. destruct shallow; [apply kf_ret|].
  apply kf_bind. { destruct (truthy res); [apply Hg|apply kf_ret]. }
  intros isref. destruct (bool_decide (isref = _)).
  - destruct (_ || _); [apply Hg|apply kf_ret].
  - destruct (isObject res); [apply Hw|apply kf_ret].
Qed.

Lemma kf_collection_get m target key receiver :
  keeps_frame (collection_get m target key receiver).
Proof.
  intros st _. unfold collection_get.
  repeat (destruct (bool_decide _ && bool_decide _) || destruct (bool_decide _));
    try done.
Qed.

Lemma kf_ref_get a inner key : keeps_frame (ref_get a inner key).
Proof.
  unfold ref_get. destruct (bool_decide (key = VALUE)).
  { apply kf_bind; auto with frame. }
  repeat (destruct (bool_decide _)); auto with frame.
Qed.

Lemma kf_js_get_all n :
  (∀ o key recv, keeps_frame (js_get n o key recv))
  ∧ (∀ target m, keeps_frame (createReactiveObject n target m))
  ∧ (∀ m target, keeps_frame (wrap n m target)).
Proof.
  induction n as [|n (IHg & IHc & IHw)].
  { repeat split; intros; intros st _; exact I. }
  repeat split.
  - intros o key recv st Hok. simpl.
    destruct o as [| | | | | |a|];
      try solve [destruct (bool_decide _); done | done ].
    destruct (heap st !! a) as [[ob|t m coll|inner d]|]; try exact I.
    + by destruct (raw_read ob key).
    + destruct coll; [by apply kf_collection_get|].
      apply kf_createGetter; [apply IHg|apply IHw|done].
    + by apply kf_ref_get.
  - intros target m. simpl. destruct target as [| | | | | |a|]; try apply kf_ret.
    apply kf_bind; [apply IHg|]. intros raw.
    apply kf_bind.
    { destruct (truthy raw); [|apply kf_ret].
      destruct (mode_isReadonly m); [|apply kf_ret].
      apply kf_bind; [apply IHg|]. intros; apply kf_ret. }
    intros [|]; [apply kf_ret|].
    intros st Hok. destruct (proxyMap m st !! a); [done|].
    apply kf_at; [|done]. apply kf_bind; [apply IHg|]. intros skip st' Hok'.
    destruct (underlying n st' a) as [u|]; [|exact I].
    destruct (if _ || _ then _ else _); done.
  - intros m target. simpl. destruct m; try apply IHc.
    apply kf_bind. { destruct (truthy target); [apply IHg|apply kf_ret]. }
    intros ro. destruct (truthy ro); [apply kf_ret|apply IHc].
Qed.

Lemma kf_js_get n o key recv : keeps_frame (js_get n o key recv).
Proof. apply kf_js_get_all. Qed.

Lemma kf_createReactiveObject n target m : keeps_frame (createReactiveObject n target m).
Proof. apply kf_js_get_all. Qed.

Lemma kf_wrap n m target : keeps_frame (wrap n m target).
Proof. apply kf_js_get_all. Qed.

#[local] Hint Resolve kf_js_get kf_createReactiveObject kf_wrap : frame.

Lemma kf_isReadonly n v : keeps_frame (isReadonly n v).
Proof.
  unfold isReadonly. destruct (truthy v); [|apply kf_ret].
  apply kf_bind; auto with frame.
Qed.

Lemma kf_isRef n v : keeps_frame (isRef n v).
Proof.
  unfold isRef. destruct (truthy v); [|apply kf_ret].
  apply kf_bind; auto with frame.
Qed.

Lemma kf_toRaw n v : keeps_frame (toRaw n v).
Proof.
  revert v. induction n as [|n IH]; intros v; simpl; [apply kf_abort|].
  apply kf_bind. { destruct (truthy v); auto with frame. }
  intros raw. destruct (truthy raw); auto with frame.
Qed.

#[local] Hint Resolve kf_isReadonly kf_isRef kf_toRaw : frame.

Lemma run_enter_frame e st :
  ∃ st1, run_enter e st = Ok tt st1
         ∧ frame st1 = (e :: effectStack st, Some e, S (effectTrackDepth st),
                        shl1 (S (effectTrackDepth st))).
Proof.
  unfold run_enter, bind, modify, enableTracking. eexists. split; [reflexivity|].
  destruct (_ <=? _)%nat.
  - match goal with |- context [initDepMarkers e ?s] =>
      by rewrite (quiet_initDepMarkers e s) end.
  - match goal with |- context [cleanupEffect e ?s] =>
      by rewrite (quiet_cleanupEffect e s) end.
Qed.

Lemma run_finally_frame e st :
  frame (run_finally e st)
  = (tail (effectStack st), head (tail (effectStack st)), pred (effectTrackDepth st),
     shl1 (pred (effectTrackDepth st))).
Proof.
  unfold run_finally. cbn zeta.
  set (st0 := if (effectTrackDepth st <=? maxMarkerBits)%nat
              then finalizeDepMarkers e st else st).
  assert (frame st0 = frame st) as H0.
  { subst st0. destruct (_ <=? _)%nat; [apply quiet_finalizeDepMarkers|done]. }
  unfold frame in H0. injection H0 as Hs Ha Hd Hb.
  match goal with |- context [resetTracking_st ?s] =>
    pose proof (quiet_resetTracking_st s) as Hq; set (s1 := resetTracking_st s) in * end.
  unfold frame in Hq. simpl in Hq. injection Hq as Hs1 _ Hd1 Hb1.
  unfold frame. simpl. by rewrite Hs1, Hd1, Hb1, Hs, Hd.
Qed.

Section EngineKeepsFrame.

Variable rec : prog -> M value.
Hypothesis Hrec : ∀ p, keeps_frame (rec p).

Lemma kf_run e : keeps_frame (run rec e).
Proof.
  intros st Hok. unfold run. destruct (effects st !! e) as [x|]; [|exact I].
  destruct (negb (e_active x)).
  { apply kf_at; [|done]. apply kf_bind; [by apply kf_modify|auto]. }
  destruct (bool_decide (e ∈ effectStack st)); [done|].
  unfold try_finally.
  destruct (run_enter_frame e st) as (st1 & Hen & Hf1).
  unfold bind at 1. rewrite Hen. unfold bind at 1, modify at 1.
  destruct Hok as (Hact & Hdepth & Hbit).
  assert (frame_ok (add_log (EvFn e true) st1)) as Hok1.
  { unfold frame in Hf1. injection Hf1 as Hs Ha Hd Hb.
    unfold frame_ok. simpl. rewrite Hs, Ha, Hd, Hb. simpl. by rewrite Hdepth. }
  pose proof (Hrec (e_fn x) (add_log (EvFn e true) st1) Hok1) as H.
  destruct (rec (e_fn x) (add_log (EvFn e true) st1)) as [v st2|ex st2|w];
    [| |exact I]; simpl in H |- *.
  all: rewrite run_finally_frame.
  all: change (frame (add_log (EvFn e true) st1)) with (frame st1) in H.
  all: rewrite Hf1 in H; unfold frame in H; injection H as -> _ -> _.
  all: unfold frame; simpl; by rewrite Hact, Hbit.
Qed.

Lemma kf_stop e : keeps_frame (stop rec e).
Proof.
  intros st Hok. unfold stop. destruct (effects st !! e) as [x|]; [|exact I].
  destruct (e_active x); [|done].
  apply kf_at; [|done]. apply kf_bind; [auto with frame|]. intros _.
  apply kf_bind; [|auto with frame].
  destruct (e_onStop x); [|apply kf_ret].
  apply kf_bind; auto with frame.
Qed.

Lemma kf_effect fn opts : keeps_frame (effect rec fn opts).
Proof.
  intros st Hok. unfold effect.
  destruct (match fn with FnUser body => _ | FnRunner r => _ end) as [f|]; [|exact I].
  apply kf_at; [|done]. apply kf_bind; [auto with frame|]. intros _.
  apply kf_bind; [|auto with frame].
  destruct (match opts with Some o => _ | None => _ end); [|apply kf_ret].
  apply kf_bind; [apply kf_run|auto with frame].
Qed.

Lemma kf_triggerEffect e : keeps_frame (triggerEffect rec e).
Proof.
  intros st Hok. unfold triggerEffect. destruct (effects st !! e) as [x|]; [|exact I].
  destruct (_ || _); [|done].
  destruct (e_scheduler x).
  - apply kf_at; [|done]. apply kf_bind; [by apply kf_modify|]. intros _.
    apply kf_bind; auto with frame.
  - apply kf_at; [|done]. apply kf_bind; [apply kf_run|auto with frame].
Qed.

Lemma kf_triggerEffects batch : keeps_frame (triggerEffects rec batch).
Proof.
  induction batch as [|e rest IH]; simpl; [apply kf_ret|].
  apply kf_bind; [apply kf_triggerEffect|auto].
Qed.

Lemma kf_key_ge k nv : keeps_frame (key_ge k nv).
Proof.
  unfold key_ge. destruct k; [|apply kf_throw].
  destruct nv; auto with frame.
  destruct (StringToNumber s) as [x|]; auto with frame.
  destruct (num_ge x z); auto with frame.
Qed.

Lemma kf_length_deps depsMap nv : keeps_frame (length_deps depsMap nv).
Proof.
  induction depsMap as [|[key dep] rest IH]; simpl; [apply kf_ret|].
  apply kf_bind. { destruct (bool_decide _); [apply kf_ret|apply kf_key_ge]. }
  intros hit. apply kf_bind; [apply IH|]. intros; apply kf_ret.
Qed.

Lemma kf_trigger n target type key newValue :
  keeps_frame (trigger rec n target type key newValue).
Proof.
  unfold trigger. apply kf_bind; [by apply kf_modify|]. intros _ st Hok.
  destruct (targetMap st !! target) as [depsMap|]; [|done].
  apply kf_at; [|done]. apply kf_bind.
  { destruct (bool_decide (type = CLEAR)); [apply kf_ret|].
    destruct (_ && _); [apply kf_length_deps|apply kf_ret]. }
  intros deps st' Hok'. destruct deps as [|[di|] [|d' deps]]; try by apply kf_triggerEffects.
  done.
Qed.

Lemma kf_ref_set n a nv : keeps_frame (ref_set rec n a nv).
Proof.
  intros st Hok. unfold ref_set.
  destruct (heap st !! a) as [[| |inner d]|]; try exact I.
  destruct (hasChanged nv inner); [|done].
  apply kf_at; [|done]. apply kf_bind.
  { destruct (isObject nv); [apply kf_wrap|apply kf_ret]. }
  intros w. apply kf_bind; [auto with frame|]. intros _.
  destruct d; [|apply kf_ret]. intros st' Hok'. by apply kf_triggerEffects.
Qed.

Lemma kf_ref n v : keeps_frame (ref n v).
Proof.
  unfold ref. apply kf_bind.
  { destruct (isObject v); [apply kf_wrap|apply kf_ret]. }
  intros w. apply kf_bind; auto with frame.
Qed.

Lemma kf_store_raw t o : keeps_frame (store_raw t o).
Proof. apply kf_modify. done. Qed.

Lemma kf_Reflect_set t key v : keeps_frame (Reflect_set t key v).
Proof.
  intros st _. unfold Reflect_set.
  destruct (heap st !! t) as [[o| |]|]; try exact I.
  destruct (raw_set o key v); done.
Qed.

Lemma kf_createSetter n shallow target key val receiver :
  keeps_frame (createSetter rec n shallow target key val receiver).
Proof.
  unfold createSetter. apply kf_bind; [auto with frame|]. intros oldValue.
  apply kf_bind. { destruct shallow; auto with frame. }
  intros ro. apply kf_bind.
  { destruct (negb shallow && negb ro); [|apply kf_ret].
    apply kf_bind; [auto with frame|]. intros val'.
    apply kf_bind; [auto with frame|]. intros old'.
    apply kf_bind.
    { intros st Hok. destruct (isArray n target st); [done|].
      apply kf_at; [|done]. apply kf_bind; [auto with frame|].
      intros [|]; [|apply kf_ret]. apply kf_bind; auto with frame. }
    intros [|]; [|apply kf_ret].
    destruct old'; auto with frame.
    apply kf_bind; [apply kf_ref_set|auto with frame]. }
  intros [[[b|] val'] old']; [apply kf_ret|].
  apply kf_bind.
  { intros st _. destruct (heap st !! target) as [[o| |]|]; try exact I. done. }
  intros hadKey. apply kf_bind; [apply kf_Reflect_set|]. intros result.
  apply kf_bind; [auto with frame|]. intros rawReceiver.
  apply kf_bind; [|auto with frame].
  destruct (bool_decide _); [|apply kf_ret].
  destruct (negb hadKey); [apply kf_trigger|].
  destruct (hasChanged val' old'); [apply kf_trigger|apply kf_ret].
Qed.

Lemma kf_deleteProperty n target key : keeps_frame (deleteProperty rec n target key).
Proof.
  intros st Hok. unfold deleteProperty.
  destruct (heap st !! target) as [[o| |]|]; try exact I.
  destruct (raw_delete o key) as [o' result].
  apply kf_at; [|done]. apply kf_bind; [apply kf_store_raw|]. intros _.
  apply kf_bind; [|auto with frame].
  destruct (_ && _); [apply kf_trigger|apply kf_ret].
Qed.

Lemma kf_has target key : keeps_frame (has target key).
Proof.
  intros st Hok. unfold has.
  destruct (heap st !! target) as [[o| |]|]; try exact I.
  destruct (raw_has o key) as [result|]; [|exact I].
  apply kf_at; [|done]. apply kf_bind; [|auto with frame].
  destruct (_ || _); auto with frame.
Qed.

Lemma kf_ownKeys n target : keeps_frame (ownKeys n target).
Proof. intros st Hok. unfold ownKeys. by apply kf_track. Qed.

Lemma kf_js_set n o key v : keeps_frame (js_set rec n o key v).
Proof.
  unfold js_set. destruct o as [| | | | | |a|]; try apply kf_abort.
  intros st Hok. destruct (heap st !! a) as [[ob|t m coll|inner d]|]; try exact I.
  - by apply kf_Reflect_set.
  - destruct coll; [exact I|]. destruct (mode_isReadonly m); [done|].
    by apply kf_createSetter.
  - destruct (bool_decide _); [|exact I].
    apply kf_at; [|done]. apply kf_bind; [apply kf_ref_set|auto with frame].
Qed.

Lemma kf_js_delete n o key : keeps_frame (js_delete rec n o key).
Proof.
  unfold js_delete. destruct o as [| | | | | |a|]; try apply kf_abort.
  intros st Hok. destruct (heap st !! a) as [[ob|t m coll|inner d]|]; try exact I.
  - by destruct (raw_delete ob key).
  - destruct coll; [exact I|]. destruct (mode_isReadonly m); [|by apply kf_deleteProperty].
    unfold delete_reported. destruct (underlying n st t) as [u|]; [|exact I].
    by destruct (_ && _).
Qed.

Lemma kf_js_has n o key : keeps_frame (js_has n o key).
Proof.
  revert o. induction n as [|n IH]; intros o; simpl; [apply kf_abort|].
  destruct o as [| | | | | |a|]; try apply kf_abort.
  intros st Hok. destruct (heap st !! a) as [[ob|t m [|]|inner d]|]; try exact I.
  - by destruct (raw_has ob key).
  - destruct (mode_isReadonly m); [by apply IH|by apply kf_has].
Qed.

Lemma kf_js_ownKeys n o : keeps_frame (js_ownKeys n o).
Proof.
  revert o. induction n as [|n IH]; intros o; simpl; [apply kf_abort|].
  destruct o as [| | | | | |a|]; try apply kf_abort.
  intros st Hok. destruct (heap st !! a) as [[ob|t m [|]|inner d]|]; try exact I.
  - done.
  - destruct (mode_isReadonly m); [by apply IH|by apply kf_ownKeys].
Qed.

Lemma kf_step n p : keeps_frame (step rec n p).
Proof.
  destruct p; simpl; auto with frame;
    (apply kf_bind; [|intros; apply Hrec]).
  - apply kf_alloc.
  - apply kf_ref.
  - apply kf_js_get.
  - apply kf_js_set.
  - apply kf_js_delete.
  - apply kf_js_has.
  - apply kf_js_ownKeys.
  - apply kf_wrap.
  - apply kf_toRaw.
  - apply kf_effect.
  - apply kf_run.
  - apply kf_stop.
  - apply kf_pauseTracking.
  - apply kf_enableTracking.
  - apply kf_resetTracking.
Qed.

End EngineKeepsFrame.

Lemma kf_exec fuel p : keeps_frame (exec fuel p).
Proof.
  revert p. induction fuel as [|f IH]; intros p; simpl; [apply kf_abort|].
  by apply kf_step.
Qed.

Lemma shl1_pos d : (d <= maxMarkerBits)%nat → 0 < shl1 d.
Proof.
  unfold maxMarkerBits, shl1. intros Hd.
  rewrite Z.mod_small by lia.
  assert (2 ^ Z.of_nat d < 2 ^ 31) as Hlt by (apply Z.pow_lt_mono_r; lia).
  apply Z.ltb_lt in Hlt. rewrite Hlt. apply Z.pow_pos_nonneg; lia.
Qed.

(** X20. [run] restores its bookkeeping, also when the function of the
    effect throws: started in a state where the active effect is the top of
    the stack, the depth is the height of the stack and the marker bit is
    [1 << depth], a call of a runner returns or throws in a state with the
    same stack, active effect, depth and marker bit, whatever the user code
    it runs does. *)
Theorem run_restores_its_bookkeeping fuel e st :
  frame_ok st →
  match run (exec fuel) e st with
  | Ok _ st' | Exn _ st' => frame st' = frame st ∧ frame_ok st'
  | Abort _ => True
  end.
Proof.
  intros Hok. pose proof (kf_run (exec fuel) (kf_exec fuel) e st Hok) as H.
  destruct (run (exec fuel) e st); simpl in H; [| |done];
    (split; [done|by eapply frame_ok_eq]).
Qed.

Lemma run_restores_its_bookkeeping_witness :
  match run (exec 20) 0%nat throwing_reader_written with
  | Ok _ st' | Exn _ st' => frame st' = frame throwing_reader_written ∧ frame_ok st'
  | Abort _ => True
  end.
Proof.
  apply (run_restores_its_bookkeeping 20 0%nat throwing_reader_written).
  repeat split; reflexivity.
Defined.

(** X21. A write leaves the writer in charge: started in a state with a
    consistent frame, a set or a delete through a proxy, with every effect
    and scheduler its trigger runs, returns or throws in a state with the
    same stack, active effect, depth and marker bit. *)
Theorem writes_keep_the_frame fuel n o key v st :
  frame_ok st →
  match js_set (exec fuel) n o key v st with
  | Ok _ st' | Exn _ st' => frame st' = frame st
  | Abort _ => True
  end
  ∧ match js_delete (exec fuel) n o key st with
    | Ok _ st' | Exn _ st' => frame st' = frame st
    | Abort _ => True
    end.
Proof.
  intros Hok. split.
  - apply (kf_js_set (exec fuel) (kf_exec fuel) n o key v st Hok).
  - apply (kf_js_delete (exec fuel) (kf_exec fuel) n o key st Hok).
Qed.

Lemma writes_keep_the_frame_witness :
  match js_set (exec 20) 10 (VObj 1%nat) (KStr "a") (VNum 2) throwing_reader with
  | Ok _ st' | Exn _ st' => frame st' = frame throwing_reader
  | Abort _ => True
  end
  ∧ match js_delete (exec 20) 10 (VObj 1%nat) (KStr "a") throwing_reader with
    | Ok _ st' | Exn _ st' => frame st' = frame throwing_reader
    | Abort _ => True
    end.
Proof.
  apply (writes_keep_the_frame 20 10 (VObj 1%nat) (KStr "a") (VNum 2) throwing_reader).
  repeat split; reflexivity.
Defined.

(** X22. Reading a location again in the same run subscribes nothing more:
    in a state with a consistent frame, once [track] has returned for
    [(t, key)], a second [track] for it only adds its event to the trace. *)
Theorem repeated_read_subscribes_once t key st st1 :
  frame_ok st → isTracking st = true →
  track t key st = Ok tt st1 →
  track t key st1 = Ok tt (add_log (EvTrack t key) st1).
Proof.
  intros (_ & _ & Hbit) Htr H1. apply (track_twice t key st st1 Htr); [|exact H1].
  intros Hd. rewrite Hbit. by apply shl1_pos.
Qed.

Lemma repeated_read_subscribes_once_witness :
  ∃ st1, track 0%nat (KStr "b") lazy_reader_running = Ok tt st1
         ∧ track 0%nat (KStr "b") st1 = Ok tt (add_log (EvTrack 0%nat (KStr "b")) st1).
Proof.
  eexists. split; [vm_compute; reflexivity|].
  apply (repeated_read_subscribes_once 0%nat (KStr "b") lazy_reader_running).
  - repeat split; reflexivity.
  - reflexivity.
  - vm_compute; reflexivity.
Defined.

(** ** The batch of a change of length *)

(** When [triggerEffects] calls an effect and the call returns, the trace
    has grown, and for an effect that is not on the stack it has grown by the
    entry of its function or by the call of its scheduler. *)
Lemma triggerEffect_calls fuel e st st1 :
  frame_ok st → triggerEffect (exec fuel) e st = Ok tt st1 →
  ∃ evs, log st1 = evs ++ log st
         ∧ (e ∉ effectStack st → (∃ b, EvFn e b ∈ evs) ∨ EvScheduler e ∈ evs).
Proof.
  intros Hok Hcall.
  pose proof (pres_triggerEffect (exec fuel) (pres_exec fuel) e st) as Hpres.
  rewrite Hcall in Hpres. destruct Hpres as [_ (evs & Hlog & _)].
  exists evs. split; [exact Hlog|]. intros Hstk.
  assert (bool_decide (Some e = activeEffect st) = false) as Hact.
  { apply bool_decide_eq_false. destruct Hok as (Hhead & _). rewrite Hhead.
    destruct (effectStack st) as [|e0 stk]; [done|]. intros [= ->].
    apply Hstk, list_elem_of_here. }
  unfold triggerEffect in Hcall. destruct (effects st !! e) as [x|] eqn:He; [|done].
  rewrite Hact in Hcall. cbn [negb orb] in Hcall.
  assert (∀ ev p r, (modify (add_log ev);; exec fuel p) st = r →
            match r with
            | Ok _ s | Exn _ s => ∃ evs', log s = evs' ++ ev :: log st
            | Abort _ => True
            end) as Hlogged.
  { intros ev p r <-. unfold bind, modify.
    pose proof (pres_exec fuel p (add_log ev st)) as H.
    destruct (exec fuel p (add_log ev st)); [| |done];
      destruct H as [_ (evs' & Hl & _)]; by exists evs'. }
  assert (∀ ev, (∃ evs', log st1 = evs' ++ ev :: log st) → ev ∈ evs) as Hin.
  { intros ev (evs' & Hl). rewrite Hlog in Hl.
    change (evs' ++ ev :: log st) with (evs' ++ [ev] ++ log st) in Hl.
    rewrite app_assoc in Hl. apply app_inv_tail in Hl. rewrite Hl.
    apply elem_of_app. right. apply list_elem_of_here. }
  destruct (e_scheduler x) as [sch|].
  - right. apply Hin.
    specialize (Hlogged (EvScheduler e) sch _ eq_refl).
    unfold bind in Hcall, Hlogged. unfold bind.
    destruct (modify (add_log (EvScheduler e)) st) as [[] s0|?|?] eqn:Hm; [|done|done].
    destruct (exec fuel sch s0) as [v s|?|?]; [|done|done].
    injection Hcall as <-. exact Hlogged.
  - left. unfold bind in Hcall.
    destruct (run (exec fuel) e st) as [v s|?|?] eqn:Hrun; [|done|done].
    injection Hcall as <-.
    destruct (e_active x) eqn:Hactive.
    + exists true. apply Hin.
      destruct (run_enters_once fuel e x st He Hactive Hstk) as [_ Hev].
      rewrite Hrun in Hev. destruct Hev as (evs' & Hl & _). by exists evs'.
    + exists false. apply Hin.
      unfold run in Hrun. rewrite He, Hactive in Hrun. cbn [negb] in Hrun.
      by apply (Hlogged (EvFn e false) (e_fn x) _ Hrun).
Qed.

(** So a batch that returns has called each of its effects that is not on
    the stack. *)
Lemma triggerEffects_calls fuel batch st st1 :
  frame_ok st → triggerEffects (exec fuel) batch st = Ok tt st1 →
  ∃ evs, log st1 = evs ++ log st
         ∧ ∀ e, e ∈ batch → e ∉ effectStack st →
                (∃ b, EvFn e b ∈ evs) ∨ EvScheduler e ∈ evs.
Proof.
  revert st. induction batch as [|e0 rest IH]; intros st Hok Hrun.
  - injection Hrun as <-. exists []. split; [done|]. intros e He. by apply elem_of_nil in He.
  - cbn [triggerEffects] in Hrun. unfold bind in Hrun.
    destruct (triggerEffect (exec fuel) e0 st) as [[] s0|?|?] eqn:H0; [|done|done].
    pose proof (kf_triggerEffect (exec fuel) (kf_exec fuel) e0 st Hok) as Hframe.
    rewrite H0 in Hframe. simpl in Hframe.
    assert (effectStack s0 = effectStack st) as Hstk by (by injection Hframe).
    destruct (triggerEffect_calls fuel e0 st s0 Hok H0) as (evs0 & Hl0 & Hc0).
    destruct (IH s0 (frame_ok_eq _ _ Hframe Hok) Hrun) as (evs1 & Hl1 & Hc1).
    exists (evs1 ++ evs0). split; [by rewrite Hl1, Hl0, app_assoc|].
    intros e He Hnot. apply elem_of_cons in He as [->|He].
    + destruct (Hc0 Hnot) as [[b Hb]|Hs].
      * left. exists b. apply elem_of_app. by right.
      * right. apply elem_of_app. by right.
    + rewrite <- Hstk in Hnot. destruct (Hc1 e He Hnot) as [[b Hb]|Hs].
      * left. exists b. apply elem_of_app. by left.
      * right. apply elem_of_app. by left.
Qed.

(** C8, as amended. On a reactive array whose tracked keys are ASCII
    strings, [trigger] with key ["length"] and a new length [n] hands to
    [triggerEffects] the subscribers of exactly the Deps whose key passes
    [key === 'length' || key >= n], where a string key is compared as a
    number: the Dep of ["length"] and the Deps of the keys that, as
    numbers, are at least [n].  The Dep of an integer index [i] is among
    them if and only if [n <= i], so an effect that read an index removed by
    the shrink is in the batch; and when the trigger, issued in a state
    whose frame is consistent (the active effect is the top of the stack of
    running effects), returns, every effect of the batch that is not on the
    stack has been run again (its function entered) or has had its scheduler
    called. *)
Theorem length_trigger_fires fuel k target o depsMap n st :
  heap st !! target = Some (CRaw o) → obj_isArray o = true →
  targetMap st !! target = Some depsMap →
  Forall (fun kd => ascii_key kd.1 = true) depsMap →
  0 <= n < 2 ^ 32 →
  let fired := filter (fun kd => length_fires n kd.1 = true) depsMap in
  let st' := add_log (EvTrigger target SET (Some LENGTH)) st in
  let batch := batch_of (map snd fired) st' in
  trigger (exec fuel) (S k) target SET (Some LENGTH) (VNum n) st
    = triggerEffects (exec fuel) batch st'
  ∧ (∀ key di, (key, di) ∈ fired ↔ (key, di) ∈ depsMap ∧ length_fires n key = true)
  ∧ (∀ key di i, (key, di) ∈ depsMap → index_of_key key = Some i →
       ((key, di) ∈ fired ↔ n <= Z.of_nat i))
  ∧ (∀ key di i e, (key, di) ∈ depsMap → index_of_key key = Some i → n <= Z.of_nat i →
       e ∈ dep_subs di st → e ∈ batch)
  ∧ (frame_ok st →
     match trigger (exec fuel) (S k) target SET (Some LENGTH) (VNum n) st with
     | Ok _ st2 =>
         ∃ evs, log st2 = evs ++ log st'
                ∧ ∀ e, e ∈ batch → e ∉ effectStack st →
                       (∃ b, EvFn e b ∈ evs) ∨ EvScheduler e ∈ evs
     | Exn _ _ | Abort _ => True
     end).
Proof.
  intros Ht Harr Htm Hascii Hn fired st' batch.
  assert (Forall (fun kd => modelled_key n kd.1) depsMap) as Hkeys.
  { eapply Forall_impl; [exact Hascii|]. intros kd Hk. by apply ascii_key_modelled. }
  assert (∀ key di, (key, di) ∈ fired ↔ (key, di) ∈ depsMap ∧ length_fires n key = true) as Hfired.
  { intros key di. unfold fired. rewrite list_elem_of_filter. simpl. tauto. }
  assert (∀ key di i, (key, di) ∈ depsMap → index_of_key key = Some i →
            ((key, di) ∈ fired ↔ n <= Z.of_nat i)) as Hindex.
  { intros key di i Hin Hi. rewrite Hfired, (index_key_fires n key i Hi).
    rewrite Z.leb_le. tauto. }
  assert (trigger (exec fuel) (S k) target SET (Some LENGTH) (VNum n) st
          = triggerEffects (exec fuel) batch st') as Heq.
  { unfold trigger. unfold bind at 1, modify at 1. fold st'.
    assert (targetMap st' !! target = Some depsMap) as -> by done.
    assert (isArray (S k) target st' = true) as ->.
    { unfold isArray. by rewrite (underlying_raw _ _ _ st' Ht). }
    change (bool_decide (SET = CLEAR)) with false.
    rewrite bool_decide_eq_true_2 by done. cbn [andb].
    unfold bind at 1. rewrite (length_deps_filter n depsMap st' Hkeys). fold fired.
    unfold batch, batch_of. destruct fired as [|[k1 d1] [|[k2 d2] rest]]; try done.
    simpl. do 2 f_equal. rewrite !map_map. done. }
  split; [exact Heq|]. split; [exact Hfired|]. split; [exact Hindex|]. split.
  - intros key di i e Hin Hi Hle He.
    apply (elem_of_batch_of e di); [|done].
    apply list_elem_of_fmap. exists (key, di). split; [done|]. by apply (Hindex key di i).
  - intros Hok. rewrite Heq.
    destruct (triggerEffects (exec fuel) batch st') as [[] st2|?|?] eqn:Hrun; [|done|done].
    apply (triggerEffects_calls fuel batch st' st2); [|exact Hrun].
    by apply (frame_ok_eq st' st).
Qed.

(** Setting the length of the array of [array_readers] to 2. *)
Lemma length_trigger_fires_witness :
  let fired := filter (fun kd => length_fires 2 kd.1 = true) array_readers_depsMap in
  let st' := add_log (EvTrigger 0%nat SET (Some LENGTH)) array_readers in
  let batch := batch_of (map snd fired) st' in
  trigger (exec 20) 1 0%nat SET (Some LENGTH) (VNum 2) array_readers
    = triggerEffects (exec 20) batch st'
  ∧ (∀ key di, (key, di) ∈ fired ↔ (key, di) ∈ array_readers_depsMap ∧ length_fires 2 key = true)
  ∧ (∀ key di i, (key, di) ∈ array_readers_depsMap → index_of_key key = Some i →
       ((key, di) ∈ fired ↔ 2 <= Z.of_nat i))
  ∧ (∀ key di i e, (key, di) ∈ array_readers_depsMap → index_of_key key = Some i →
       2 <= Z.of_nat i → e ∈ dep_subs di array_readers → e ∈ batch)
  ∧ (frame_ok array_readers →
     match trigger (exec 20) 1 0%nat SET (Some LENGTH) (VNum 2) array_readers with
     | Ok _ st2 =>
         ∃ evs, log st2 = evs ++ log st'
                ∧ ∀ e, e ∈ batch → e ∉ effectStack array_readers →
                       (∃ b, EvFn e b ∈ evs) ∨ EvScheduler e ∈ evs
     | Exn _ _ | Abort _ => True
     end).
Proof.
  apply (length_trigger_fires 20 0 0%nat
           (arr [VNum 1; VNum 2; VNum 3; VNum 4]) array_readers_depsMap 2 array_readers).
  - vm_compute; reflexivity.
  - reflexivity.
  - vm_compute; reflexivity.
  - repeat (apply List.Forall_cons; [vm_compute; reflexivity|]). apply List.Forall_nil.
  - split; [lia|reflexivity].
Defined.

(** ** Well-formed states are kept *)

Lemma grows_refl st : grows st st.
Proof. split; [|done]. intros a c H. by exists c. Qed.

Lemma grows_trans st1 st2 st3 : grows st1 st2 → grows st2 st3 → grows st1 st3.
Proof.
  intros [Hh1 Hd1] [Hh2 Hd2]. split; [|by auto].
  intros a c H. destruct (Hh1 _ _ H) as (c' & H' & Hk).
  destruct (Hh2 _ _ H') as (c'' & H'' & Hk'). exists c''. split; [done|congruence].
Qed.

Lemma same_shape_refl st : same_shape st st.
Proof. done. Qed.

Lemma same_shape_trans st1 st2 st3 :
  same_shape st1 st2 → same_shape st2 st3 → same_shape st1 st3.
Proof.
  intros (H1 & H2 & H3 & H4) (H1' & H2' & H3' & H4').
  split; [congruence|]. split; [intros m; by rewrite H2', H2|].
  split; [congruence|]. intros di. by rewrite H4', H4.
Qed.

Lemma same_shape_wf st st' :
  same_shape st st' → well_formed st → well_formed st' ∧ grows st st'.
Proof.
  intros (Hh & Hm & Htm & Hd) (W1 & W3 & W4). split.
  - split; [|split].
    + intros m t p. rewrite Hm, Hh. apply W1.
    + intros t depsMap key di. rewrite Htm. intros H1 H2. apply Hd. by eapply W3.
    + intros a inner di. rewrite Hh. intros H. apply Hd. by eapply W4.
  - split.
    + intros a c H. exists c. by rewrite Hh.
    + intros di H. by apply Hd.
Qed.

Lemma wf_post_bind {A B} (c : M A) (k : A -> M B) st :
  wf_post st (c st) →
  (∀ a st1, c st = Ok a st1 → well_formed st1 → grows st st1 → wf_post st1 (k a st1)) →
  wf_post st (bind c k st).
Proof.
  unfold bind. destruct (c st) as [a st1|x st1|w]; simpl; intros H1 H2; [|done|done].
  destruct H1 as [Hw Hg]. specialize (H2 a st1 eq_refl Hw Hg).
  destruct (k a st1); simpl in *; [| |done];
    (split; [apply H2|eapply grows_trans; [exact Hg|apply H2]]).
Qed.

Lemma kw_at {A} (c : M A) st : keeps_wf c → well_formed st → wf_post st (c st).
Proof. intros H. apply H. Qed.

Lemma kw_bind {A B} (c : M A) (k : A -> M B) :
  keeps_wf c → (∀ a, keeps_wf (k a)) → keeps_wf (bind c k).
Proof.
  intros Hc Hk st Hok. apply wf_post_bind; [by apply Hc|].
  intros a st1 _ Hok1 _. by apply Hk.
Qed.

Lemma wf_post_here {A} (a : A) st : well_formed st → wf_post st (Ok a st).
Proof. intros H. split; [done|apply grows_refl]. Qed.

Lemma wf_post_here_exn {A} x st : well_formed st → wf_post st (@Exn A x st).
Proof. intros H. split; [done|apply grows_refl]. Qed.

Lemma kw_ret {A} (a : A) : keeps_wf (ret a).
Proof. intros st H. by apply wf_post_here. Qed.

Lemma kw_throw {A} x : keeps_wf (@throw A x).
Proof. intros st H. by apply wf_post_here_exn. Qed.

Lemma kw_abort {A} w : keeps_wf (@abort_with A w).
Proof. by intros st _. Qed.

Lemma kw_modify f : steady f → keeps_wf (modify f).
Proof. intros H st Hw. by apply same_shape_wf. Qed.

Lemma steady_set_effects f : steady (set_effects f).
Proof. intros st. split; [done|]. split; [by intros []|]. by split. Qed.
Lemma steady_set_tracking b l : steady (set_tracking b l).
Proof. intros st. split; [done|]. split; [by intros []|]. by split. Qed.
Lemma steady_set_stack s a d b : steady (set_stack s a d b).
Proof. intros st. split; [done|]. split; [by intros []|]. by split. Qed.
Lemma steady_add_log ev : steady (add_log ev).
Proof. intros st. split; [done|]. split; [by intros []|]. by split. Qed.
Lemma steady_effect_update e f : steady (effect_update e f).
Proof. intros st. split; [done|]. split; [by intros []|]. by split. Qed.

Lemma steady_dep_update di f : steady (dep_update di f).
Proof.
  intros st. split; [done|]. split; [by intros []|]. split; [done|].
  intros dj. rewrite deps_dep_update.
  destruct (deps st !! di) as [d|] eqn:Hd; [|done].
  destruct (decide (dj = di)) as [->|Hne].
  - rewrite lookup_insert_eq, Hd. split; eauto.
  - by rewrite lookup_insert_ne.
Qed.

Lemma steady_compose f g : steady f → steady g → steady (fun st => g (f st)).
Proof. intros Hf Hg st. eapply same_shape_trans; [apply Hf|apply Hg]. Qed.

Lemma steady_foldl {A} (f : state -> A -> state) (l : list A) :
  (∀ a, steady (fun st => f st a)) → steady (fun st => foldl f st l).
Proof.
  intros H. induction l as [|a l IH]; simpl; [intros st; apply same_shape_refl|].
  intros st. eapply same_shape_trans; [apply (H a st)|apply IH].
Qed.

Lemma steady_initDepMarkers e : steady (initDepMarkers e).
Proof.
  intros st. unfold initDepMarkers.
  apply (steady_foldl (fun s di => dep_update di _ s)).
  intros di s. apply steady_dep_update.
Qed.

Lemma steady_cleanupEffect e : steady (cleanupEffect e).
Proof.
  intros st. unfold cleanupEffect.
  eapply same_shape_trans; [|apply steady_effect_update].
  apply (steady_foldl (fun s di => dep_update di _ s)).
  intros di s. apply steady_dep_update.
Qed.

Lemma finalize_walk_steady e l st : same_shape st (finalize_walk e l st).2.
Proof.
  revert st. induction l as [|di l IH]; intros st; simpl; [apply same_shape_refl|].
  destruct (deps st !! di) as [d|]; [|apply IH].
  destruct (wasTracked d (trackOpBit st) && negb (newTracked d (trackOpBit st))).
  - eapply same_shape_trans; [apply steady_dep_update|apply IH].
  - match goal with |- context [finalize_walk e l ?s] =>
      pose proof (IH s) as IH'; destruct (finalize_walk e l s) as [kept st'] end.
    simpl in *. eapply same_shape_trans; [apply steady_dep_update|exact IH'].
Qed.

Lemma steady_finalizeDepMarkers e : steady (finalizeDepMarkers e).
Proof.
  intros st. unfold finalizeDepMarkers.
  pose proof (finalize_walk_steady e (effect_deps e st) st) as H.
  destruct (finalize_walk e (effect_deps e st) st) as [kept st']. simpl in *.
  eapply same_shape_trans; [exact H|apply steady_effect_update].
Qed.

Lemma steady_resetTracking_st : steady resetTracking_st.
Proof.
  intros st. unfold resetTracking_st.
  destruct (last (trackStack st)); apply steady_set_tracking.
Qed.

Lemma steady_run_finally e : steady (run_finally e).
Proof.
  intros st. unfold run_finally. cbn zeta.
  set (st0 := if (effectTrackDepth st <=? maxMarkerBits)%nat
              then finalizeDepMarkers e st else st).
  assert (same_shape st st0) as H0.
  { subst st0. destruct (_ <=? _)%nat; [apply steady_finalizeDepMarkers|apply same_shape_refl]. }
  eapply same_shape_trans; [exact H0|].
  eapply same_shape_trans; [apply steady_set_stack|].
  eapply same_shape_trans; [apply steady_resetTracking_st|].
  apply steady_set_stack.
Qed.

Create HintDb wf discriminated.
#[local] Hint Resolve kw_ret kw_throw kw_abort kw_modify : wf.
#[local] Hint Resolve steady_set_effects steady_set_tracking steady_set_stack steady_add_log
  steady_effect_update steady_dep_update steady_initDepMarkers steady_cleanupEffect
  steady_finalizeDepMarkers steady_resetTracking_st steady_run_finally : wf.

Lemma kw_pauseTracking : keeps_wf pauseTracking.
Proof. apply kw_modify. intros st. apply steady_set_tracking. Qed.

Lemma kw_enableTracking : keeps_wf enableTracking.
Proof. apply kw_modify. intros st. apply steady_set_tracking. Qed.

Lemma kw_resetTracking : keeps_wf resetTracking.
Proof. apply kw_modify, steady_resetTracking_st. Qed.

(** *** New cells and new Deps *)

Lemma well_formed_fresh_not_used st :
  well_formed st →
  ∀ m t p, proxyMap m st !! t = Some p → t ≠ fresh (heap st) ∧ p ≠ fresh (heap st).
Proof.
  intros (W1 & _) m t p H. destruct (W1 _ _ _ H) as ([c Hc] & coll & Hp & _).
  pose proof (fresh_None (heap st)) as Hf.
  split; intros ->; congruence.
Qed.

(** Allocating a cell whose Dep, if it is a Ref that has one, is in the
    store. *)
Lemma alloc_wf c st :
  well_formed st →
  (∀ inner di, c = CRef inner (Some di) → is_Some (deps st !! di)) →
  wf_post st (alloc c st).
Proof.
  intros Hw Hd. pose proof (well_formed_fresh_not_used st Hw) as Hfresh.
  destruct Hw as (W1 & W3 & W4).
  pose proof (fresh_None (heap st)) as Hf.
  unfold alloc. simpl. split; [split; [|split]|split].
  - intros m t p. rewrite proxyMap_set_heap_map. intros H.
    destruct (Hfresh _ _ _ H) as [Ht Hp]. destruct (W1 _ _ _ H) as (Hs & coll & Hpc & Hcoll).
    simpl. rewrite !lookup_insert_ne by done. eauto.
  - exact W3.
  - intros a inner di. simpl.
    destruct (decide (a = fresh (heap st))) as [->|Hne].
    + rewrite lookup_insert_eq. intros [= ->]. by eapply Hd.
    + rewrite lookup_insert_ne by done. apply W4.
  - intros a c0 H. exists c0. simpl. rewrite lookup_insert_ne; [done|].
    intros Heq. rewrite <- Heq in H. congruence.
  - done.
Qed.

(** Replacing a cell that is not a proxy by one of the same class. *)
Lemma update_wf a c c' st :
  well_formed st → heap st !! a = Some c →
  kind_of c' = kind_of c → (∀ t m coll, c ≠ CProxy t m coll) →
  (∀ inner di, c' = CRef inner (Some di) → is_Some (deps st !! di)) →
  well_formed (set_heap (insert a c') st) ∧ grows st (set_heap (insert a c') st).
Proof.
  intros (W1 & W3 & W4) Ha Hk Hc Hd.
  split; [split; [|split]|split].
  - intros m t p. rewrite proxyMap_set_heap_map. intros H.
    destruct (W1 _ _ _ H) as (Hs & coll & Hpc & Hcoll). simpl.
    assert (p ≠ a) as Hpa.
    { intros ->. rewrite Ha in Hpc. injection Hpc as ->. by destruct (Hc t m coll). }
    rewrite (lookup_insert_ne _ _ p) by done.
    split.
    { destruct (decide (t = a)) as [->|]; [rewrite lookup_insert_eq; eauto|].
      by rewrite lookup_insert_ne. }
    exists coll. split; [done|]. intros o.
    destruct (decide (t = a)) as [->|Hne].
    + rewrite lookup_insert_eq. intros [= ->].
      destruct c as [o0| |]; try done. simpl in Hk. injection Hk as Hk.
      rewrite (Hcoll o0 Ha). unfold is_collection. by rewrite Hk.
    + rewrite lookup_insert_ne by done. apply Hcoll.
  - exact W3.
  - intros b inner di. simpl.
    destruct (decide (b = a)) as [->|Hne].
    + rewrite lookup_insert_eq. intros [= ->]. by eapply Hd.
    + rewrite lookup_insert_ne by done. apply W4.
  - intros b c0 H. simpl. destruct (decide (b = a)) as [->|Hne].
    + rewrite lookup_insert_eq. exists c'. split; [done|]. congruence.
    + rewrite lookup_insert_ne by done. by exists c0.
  - done.
Qed.

Lemma createDep_wf es st : well_formed st → wf_post st (createDep es st).
Proof.
  intros (W1 & W3 & W4). unfold createDep. simpl.
  pose proof (fresh_None (deps st)) as Hf.
  assert (∀ di, is_Some (deps st !! di) →
                is_Some (<[fresh (deps st) := mkDep (dedup_subs es) 0 0]> (deps st) !! di)) as Hmono.
  { intros di H. rewrite lookup_insert_ne; [done|]. intros <-. rewrite Hf in H. by destruct H. }
  split; [split; [|split]|split]; try done.
  - intros t depsMap key di H1 H2. apply Hmono. by eapply W3.
  - intros a inner di H. apply Hmono. by eapply W4.
  - intros a c H. by exists c.
Qed.

Lemma kw_createDep es : keeps_wf (createDep es).
Proof. intros st. apply createDep_wf. Qed.

Lemma trackEffects_same_shape di st :
  match trackEffects di st with
  | Ok _ st' | Exn _ st' => same_shape st st'
  | Abort _ => True
  end.
Proof.
  unfold trackEffects.
  destruct (deps st !! di) as [d|]; [|exact I].
  destruct (activeEffect st) as [e|]; [|exact I].
  destruct (effectTrackDepth st <=? maxMarkerBits)%nat;
    [destruct (negb (newTracked d (trackOpBit st))); [destruct (negb (wasTracked d (trackOpBit st)))|]
    |destruct (negb (bool_decide (e ∈ d_subs d)))]; simpl;
    first [ apply same_shape_refl
          | apply (steady_compose _ _ (steady_compose _ _ (steady_dep_update _ _)
                                         (steady_dep_update _ _)) (steady_effect_update _ _))
          | apply (steady_compose _ _ (steady_dep_update _ _) (steady_effect_update _ _))
          | apply steady_dep_update ].
Qed.

Lemma kw_trackEffects di : keeps_wf (trackEffects di).
Proof.
  intros st Hw. pose proof (trackEffects_same_shape di st) as H.
  destruct (trackEffects di st); simpl; [| |done]; by apply same_shape_wf.
Qed.

#[local] Hint Resolve kw_pauseTracking kw_enableTracking kw_resetTracking kw_createDep
  kw_trackEffects : wf.

Lemma wf_post_from {A} st st0 (r : result A) :
  same_shape st st0 → well_formed st → wf_post st0 r → wf_post st r.
Proof.
  intros Hs Hw. destruct (same_shape_wf _ _ Hs Hw) as [_ Hg].
  destruct r; simpl; [| |done]; intros [Hw' Hg']; (split; [done|by eapply grows_trans]).
Qed.

Lemma assoc_get_snoc_inv {A} (k k' : Key) (v v' : A) l :
  assoc_get k' (l ++ [(k, v)]) = Some v' → assoc_get k' l = Some v' ∨ v' = v.
Proof.
  induction l as [|[k0 v0] l IH]; simpl.
  - destruct (bool_decide (k' = k)); [|done]. intros [= <-]. by right.
  - destruct (bool_decide (k' = k0)); [by left|exact IH].
Qed.

Lemma kw_track t key : keeps_wf (track t key).
Proof.
  intros st Hw. unfold track.
  destruct (negb (isTracking st)); [by apply wf_post_here|].
  set (st0 := add_log (EvTrack t key) st).
  assert (same_shape st st0) as Hs0 by apply steady_add_log.
  apply (wf_post_from _ st0); [done|done|].
  destruct (same_shape_wf _ _ Hs0 Hw) as [Hw0 _].
  destruct (assoc_get key (depsMap_of t st0)) as [di|] eqn:Hk; [by apply kw_trackEffects|].
  apply wf_post_bind; [by apply createDep_wf|].
  intros di st1 Hc Hw1 Hg1.
  unfold createDep in Hc. injection Hc as <- <-.
  apply wf_post_bind; [|intros; by apply kw_trackEffects].
  unfold modify. simpl.
  destruct Hw0 as (W1 & W3 & W4). destruct Hw1 as (V1 & V3 & V4).
  set (di := fresh (deps st)).
  split; [split; [|split]|split]; try done.
  - intros t' depsMap k dj. simpl.
    destruct (decide (t' = t)) as [->|Hne].
    + rewrite lookup_insert_eq. intros [= <-] Hget.
      apply assoc_get_snoc_inv in Hget as [Hget| ->].
      * unfold depsMap_of in Hget. simpl in Hget.
        destruct (targetMap st !! t) as [dm|] eqn:Htm; [|done].
        apply (V3 t dm k dj); [done|exact Hget].
      * subst di. rewrite lookup_insert_eq. eauto.
    + rewrite lookup_insert_ne by done. apply V3.
  - intros a c H. by exists c.
Qed.

Lemma kw_trackRefValue a : keeps_wf (trackRefValue a).
Proof.
  intros st Hw. unfold trackRefValue.
  destruct (negb (isTracking st)); [by apply wf_post_here|].
  destruct (heap st !! a) as [[| |inner [di|]]|] eqn:Ha; try exact I; [by apply kw_trackEffects|].
  apply wf_post_bind; [by apply createDep_wf|].
  intros di st1 Hc Hw1 Hg1.
  apply wf_post_bind; [|intros; by apply kw_trackEffects].
  unfold createDep in Hc. injection Hc as <- <-.
  unfold modify.
  apply (update_wf a (CRef inner None) (CRef inner (Some (fresh (deps st))))); try done.
  intros inner' di' [= _ <-]. simpl. rewrite lookup_insert_eq. eauto.
Qed.

#[local] Hint Resolve kw_track kw_trackRefValue : wf.

Lemma kw_createGetter n get wrap isReadonly shallow target key receiver :
  (∀ o k r, keeps_wf (get o k r)) → (∀ m v, keeps_wf (wrap m v)) →
  keeps_wf (createGetter n get wrap isReadonly shallow target key receiver).
Proof.
  intros Hg Hw st Hok. unfold createGetter.
  repeat (destruct (bool_decide _ && bool_decide _) || destruct (bool_decide _));
    try by apply wf_post_here.
  destruct (underlying n st target) as [u|]; [|exact I].
  destruct (negb _ && _ && _); [by apply wf_post_here|].
  apply kw_at; [|done]. apply kw_bind; [apply Hg|]. intros res.
  destruct (if isSymbol key then _ else _); [apply kw_ret|].
  apply kw_bind. { destruct (negb _); auto with wf. }
  intros _. destruct shallow; [apply kw_ret|].
  apply kw_bind. { destruct (truthy res); [apply Hg|apply kw_ret]. }
  intros isref. destruct (bool_decide (isref = _)).
  - destruct (_ || _); [apply Hg|apply kw_ret].
  - destruct (isObject res); [apply Hw|apply kw_ret].
Qed.

Lemma kw_collection_get m target key receiver :
  keeps_wf (collection_get m target key receiver).
Proof.
  intros st Hok. unfold collection_get.
  repeat (destruct (bool_decide _ && bool_decide _) || destruct (bool_decide _));
    try by apply wf_post_here.
  exact I.
Qed.

Lemma kw_ref_get a inner key : keeps_wf (ref_get a inner key).
Proof.
  unfold ref_get. destruct (bool_decide (key = VALUE)).
  { apply kw_bind; auto with wf. }
  repeat (destruct (bool_decide _)); auto with wf.
Qed.

Lemma underlying_is_Some n st a u : underlying n st a = Some u → is_Some (heap st !! a).
Proof. destruct n; [done|]. simpl. destruct (heap st !! a); [eauto|done]. Qed.

Lemma underlying_raw_inv n st a u o :
  underlying n st a = Some u → heap st !! a = Some (CRaw o) → u = o.
Proof. destruct n; [done|]. simpl. intros H Ha. rewrite Ha in H. congruence. Qed.

(** Making a proxy of [a] and entering it in the map of its mode. *)
Lemma proxy_creation_wf n m a u st :
  well_formed st → underlying n st a = Some u →
  wf_post st ((let* p := alloc (CProxy a m (is_collection u)) in
               modify (proxyMap_set m a p);; ret (VObj p)) st).
Proof.
  intros Hw Hu.
  apply wf_post_bind; [by apply alloc_wf|].
  intros p st1 Ha Hw1 Hg1. unfold alloc in Ha. injection Ha as <- <-.
  apply wf_post_bind; [|intros; by apply kw_ret].
  unfold modify. simpl.
  destruct Hw1 as (V1 & V3 & V4).
  pose proof (fresh_None (heap st)) as Hf.
  destruct (underlying_is_Some _ _ _ _ Hu) as [c Hc].
  assert (a ≠ fresh (heap st)) as Hap by (intros Heq; rewrite <- Heq in Hf; congruence).
  split; [split; [|split]|split]; try done.
  - intros m' t p'.
    destruct (decide (m' = m ∧ t = a)) as [[-> ->]|Hne].
    + rewrite proxyMap_set_lookup. intros [= <-].
      rewrite proxyMap_set_heap. simpl.
      rewrite !(lookup_insert_ne _ _ a) by done. split; [eauto|].
      exists (is_collection u). split; [apply lookup_insert_eq|].
      intros o Ho. by rewrite (underlying_raw_inv _ _ _ _ _ Hu Ho).
    + rewrite proxyMap_set_lookup_ne by done. rewrite proxyMap_set_heap. apply V1.
  - intros b c0 H. by exists c0.
Qed.

Lemma kw_js_get_all n :
  (∀ o key recv, keeps_wf (js_get n o key recv))
  ∧ (∀ target m, keeps_wf (createReactiveObject n target m))
  ∧ (∀ m target, keeps_wf (wrap n m target)).
Proof.
  induction n as [|n (IHg & IHc & IHw)].
  { repeat split; intros; intros st _; exact I. }
  repeat split.
  - intros o key recv st Hok. simpl.
    destruct o as [| | | | | |a|];
      try solve [destruct (bool_decide _); [by apply wf_post_here|done]
                | by apply wf_post_here_exn ].
    destruct (heap st !! a) as [[ob|t m coll|inner d]|]; try exact I.
    + destruct (raw_read ob key); [by apply wf_post_here|exact I].
    + destruct coll; [by apply kw_collection_get|].
      apply kw_createGetter; [apply IHg|apply IHw|done].
    + by apply kw_ref_get.
  - intros target m. simpl. destruct target as [| | | | | |a|]; try apply kw_ret.
    apply kw_bind; [apply IHg|]. intros raw.
    apply kw_bind.
    { destruct (truthy raw); [|apply kw_ret].
      destruct (mode_isReadonly m); [|apply kw_ret].
      apply kw_bind; [apply IHg|]. intros; apply kw_ret. }
    intros [|]; [apply kw_ret|].
    intros st Hok. destruct (proxyMap m st !! a); [by apply wf_post_here|].
    apply kw_at; [|done]. apply kw_bind; [apply IHg|]. intros skip st' Hok'.
    destruct (underlying n st' a) as [u|] eqn:Hu; [|exact I].
    destruct (truthy skip || negb (o_ext u)); [by apply wf_post_here|].
    pose proof (proxy_creation_wf n m a u st' Hok' Hu) as Hp.
    unfold is_collection in Hp.
    destruct (targetTypeMap (o_type u)); [by apply wf_post_here|exact Hp|exact Hp].
  - intros m target. simpl. destruct m; try apply IHc.
    apply kw_bind. { destruct (truthy target); [apply IHg|apply kw_ret]. }
    intros ro. destruct (truthy ro); [apply kw_ret|apply IHc].
Qed.

Lemma kw_js_get n o key recv : keeps_wf (js_get n o key recv).
Proof. apply kw_js_get_all. Qed.

Lemma kw_createReactiveObject n target m : keeps_wf (createReactiveObject n target m).
Proof. apply kw_js_get_all. Qed.

Lemma kw_wrap n m target : keeps_wf (wrap n m target).
Proof. apply kw_js_get_all. Qed.

#[local] Hint Resolve kw_js_get kw_createReactiveObject kw_wrap : wf.

Lemma kw_isReadonly n v : keeps_wf (isReadonly n v).
Proof.
  unfold isReadonly. destruct (truthy v); [|apply kw_ret].
  apply kw_bind; auto with wf.
Qed.

Lemma kw_isRef n v : keeps_wf (isRef n v).
Proof.
  unfold isRef. destruct (truthy v); [|apply kw_ret].
  apply kw_bind; auto with wf.
Qed.

Lemma kw_toRaw n v : keeps_wf (toRaw n v).
Proof.
  revert v. induction n as [|n IH]; intros v; simpl; [apply kw_abort|].
  apply kw_bind. { destruct (truthy v); auto with wf. }
  intros raw. destruct (truthy raw); auto with wf.
Qed.

#[local] Hint Resolve kw_isReadonly kw_isRef kw_toRaw : wf.

Lemma kw_alloc_raw o : keeps_wf (alloc (CRaw o)).
Proof. intros st Hw. by apply alloc_wf. Qed.

Lemma kw_Reflect_set t key v : keeps_wf (Reflect_set t key v).
Proof.
  intros st Hw. unfold Reflect_set.
  destruct (heap st !! t) as [[o| |]|] eqn:Ht; try exact I.
  destruct (raw_set o key v) as [o' ok| |] eqn:Hset; try exact I;
    [|by apply wf_post_here_exn].
  apply (update_wf t (CRaw o) (CRaw o')); try done.
  simpl. by rewrite (raw_set_isArray _ _ _ _ _ Hset).
Qed.

Section EngineKeepsWf.

Variable rec : prog -> M value.
Hypothesis Hrec : ∀ p, keeps_wf (rec p).

Lemma kw_run e : keeps_wf (run rec e).
Proof.
  intros st Hok. unfold run. destruct (effects st !! e) as [x|]; [|exact I].
  destruct (negb (e_active x)).
  { apply kw_at; [|done]. apply kw_bind; [apply kw_modify, steady_add_log|auto]. }
  destruct (bool_decide (e ∈ effectStack st)); [by apply wf_post_here|].
  unfold try_finally.
  assert (keeps_wf (run_enter e;; modify (add_log (EvFn e true));; rec (e_fn x))) as Hbody.
  { apply kw_bind.
    - unfold run_enter. apply kw_bind; [apply kw_modify; intros s; apply steady_set_stack|].
      intros _. apply kw_bind; [apply kw_enableTracking|]. intros _.
      apply kw_bind; [apply kw_modify; intros s; apply steady_set_stack|]. intros _.
      apply kw_modify. intros s.
      destruct (_ <=? _)%nat; [apply steady_initDepMarkers|apply steady_cleanupEffect].
    - intros _. apply kw_bind; [apply kw_modify, steady_add_log|auto]. }
  specialize (Hbody st Hok).
  destruct ((run_enter e;; modify (add_log (EvFn e true));; rec (e_fn x)) st)
    as [v st2|ex st2|w]; [| |exact I]; simpl in Hbody |- *;
    destruct Hbody as [Hw2 Hg2];
    destruct (same_shape_wf _ _ (steady_run_finally e st2) Hw2) as [Hw3 Hg3];
    (split; [done|by eapply grows_trans]).
Qed.

Lemma kw_stop e : keeps_wf (stop rec e).
Proof.
  intros st Hok. unfold stop. destruct (effects st !! e) as [x|]; [|exact I].
  destruct (e_active x); [|by apply wf_post_here].
  apply kw_at; [|done]. apply kw_bind; [auto with wf|]. intros _.
  apply kw_bind; [|auto with wf].
  destruct (e_onStop x); [|apply kw_ret].
  apply kw_bind; auto with wf.
Qed.

Lemma kw_effect fn opts : keeps_wf (effect rec fn opts).
Proof.
  intros st Hok. unfold effect.
  destruct (match fn with FnUser body => _ | FnRunner r => _ end) as [f|]; [|exact I].
  apply kw_at; [|done]. apply kw_bind; [auto with wf|]. intros _.
  apply kw_bind; [|auto with wf].
  destruct (match opts with Some o => _ | None => _ end); [|apply kw_ret].
  apply kw_bind; [apply kw_run|auto with wf].
Qed.

Lemma kw_triggerEffect e : keeps_wf (triggerEffect rec e).
Proof.
  intros st Hok. unfold triggerEffect. destruct (effects st !! e) as [x|]; [|exact I].
  destruct (_ || _); [|by apply wf_post_here].
  destruct (e_scheduler x).
  - apply kw_at; [|done]. apply kw_bind; [apply kw_modify, steady_add_log|]. intros _.
    apply kw_bind; auto with wf.
  - apply kw_at; [|done]. apply kw_bind; [apply kw_run|auto with wf].
Qed.

Lemma kw_triggerEffects batch : keeps_wf (triggerEffects rec batch).
Proof.
  induction batch as [|e rest IH]; simpl; [apply kw_ret|].
  apply kw_bind; [apply kw_triggerEffect|auto].
Qed.

Lemma kw_key_ge k nv : keeps_wf (key_ge k nv).
Proof.
  unfold key_ge. destruct k; [|apply kw_throw].
  destruct nv; auto with wf.
  destruct (StringToNumber s) as [x|]; auto with wf.
  destruct (num_ge x z); auto with wf.
Qed.

Lemma kw_length_deps depsMap nv : keeps_wf (length_deps depsMap nv).
Proof.
  induction depsMap as [|[key dep] rest IH]; simpl; [apply kw_ret|].
  apply kw_bind. { destruct (bool_decide _); [apply kw_ret|apply kw_key_ge]. }
  intros hit. apply kw_bind; [apply IH|]. intros; apply kw_ret.
Qed.

Lemma kw_trigger n target type key newValue :
  keeps_wf (trigger rec n target type key newValue).
Proof.
  unfold trigger. apply kw_bind; [apply kw_modify, steady_add_log|]. intros _ st Hok.
  destruct (targetMap st !! target) as [depsMap|]; [|by apply wf_post_here].
  apply kw_at; [|done]. apply kw_bind.
  { destruct (bool_decide (type = CLEAR)); [apply kw_ret|].
    destruct (_ && _); [apply kw_length_deps|apply kw_ret]. }
  intros deps st' Hok'. destruct deps as [|[di|] [|d' deps]]; try by apply kw_triggerEffects.
  by apply wf_post_here.
Qed.

Lemma kw_ref_set n a nv : keeps_wf (ref_set rec n a nv).
Proof.
  intros st Hok. unfold ref_set.
  destruct (heap st !! a) as [[| |inner d]|] eqn:Ha; try exact I.
  destruct (hasChanged nv inner); [|by apply wf_post_here].
  apply wf_post_bind.
  { destruct (isObject nv); [by apply kw_wrap|by apply kw_ret]. }
  intros w st1 _ Hw1 Hg1.
  apply wf_post_bind.
  - unfold modify.
    destruct (proj1 Hg1 _ _ Ha) as (c' & Hc' & Hk).
    apply (update_wf a c' (CRef w d)); try done.
    + intros t m coll ->. done.
    + intros inner' di [= _ ->]. apply (proj2 Hg1).
      destruct Hok as (_ & _ & W4). by eapply W4.
  - intros _ st2 _ Hw2 _.
    destruct d; [|by apply kw_ret]. by apply kw_triggerEffects.
Qed.

Lemma kw_ref n v : keeps_wf (ref n v).
Proof.
  unfold ref. apply kw_bind.
  { destruct (isObject v); [apply kw_wrap|apply kw_ret]. }
  intros w. apply kw_bind; [|auto with wf].
  intros st Hw. by apply alloc_wf.
Qed.

Lemma kw_createSetter n shallow target key val receiver :
  keeps_wf (createSetter rec n shallow target key val receiver).
Proof.
  unfold createSetter. apply kw_bind; [auto with wf|]. intros oldValue.
  apply kw_bind. { destruct shallow; auto with wf. }
  intros ro. apply kw_bind.
  { destruct (negb shallow && negb ro); [|apply kw_ret].
    apply kw_bind; [auto with wf|]. intros val'.
    apply kw_bind; [auto with wf|]. intros old'.
    apply kw_bind.
    { intros st Hok. destruct (isArray n target st); [by apply wf_post_here|].
      apply kw_at; [|done]. apply kw_bind; [auto with wf|].
      intros [|]; [|apply kw_ret]. apply kw_bind; auto with wf. }
    intros [|]; [|apply kw_ret].
    destruct old'; auto with wf.
    apply kw_bind; [apply kw_ref_set|auto with wf]. }
  intros [[[b|] val'] old']; [apply kw_ret|].
  apply kw_bind.
  { intros st Hok. destruct (heap st !! target) as [[o| |]|]; try exact I.
    by apply wf_post_here. }
  intros hadKey. apply kw_bind; [apply kw_Reflect_set|]. intros result.
  apply kw_bind; [auto with wf|]. intros rawReceiver.
  apply kw_bind; [|auto with wf].
  destruct (bool_decide _); [|apply kw_ret].
  destruct (negb hadKey); [apply kw_trigger|].
  destruct (hasChanged val' old'); [apply kw_trigger|apply kw_ret].
Qed.

Lemma kw_deleteProperty n target key : keeps_wf (deleteProperty rec n target key).
Proof.
  intros st Hok. unfold deleteProperty.
  destruct (heap st !! target) as [[o| |]|] eqn:Ht; try exact I.
  pose proof (raw_delete_type o key) as Hty.
  destruct (raw_delete o key) as [o' result]. simpl in Hty.
  apply wf_post_bind.
  { unfold store_raw, modify. apply (update_wf target (CRaw o) (CRaw o')); try done.
    simpl. by rewrite Hty. }
  intros _ st1 _ Hw1 _. apply kw_at; [|done].
  apply kw_bind; [|auto with wf].
  destruct (_ && _); [apply kw_trigger|apply kw_ret].
Qed.

Lemma kw_has target key : keeps_wf (has target key).
Proof.
  intros st Hok. unfold has.
  destruct (heap st !! target) as [[o| |]|]; try exact I.
  destruct (raw_has o key) as [result|]; [|exact I].
  apply kw_at; [|done]. apply kw_bind; [|auto with wf].
  destruct (_ || _); auto with wf.
Qed.

Lemma kw_ownKeys n target : keeps_wf (ownKeys n target).
Proof. intros st Hok. unfold ownKeys. by apply kw_track. Qed.

Lemma kw_js_set n o key v : keeps_wf (js_set rec n o key v).
Proof.
  unfold js_set. destruct o as [| | | | | |a|]; try apply kw_abort.
  intros st Hok. destruct (heap st !! a) as [[ob|t m coll|inner d]|]; try exact I.
  - by apply kw_Reflect_set.
  - destruct coll; [exact I|]. destruct (mode_isReadonly m); [by apply wf_post_here|].
    by apply kw_createSetter.
  - destruct (bool_decide _); [|exact I].
    apply kw_at; [|done]. apply kw_bind; [apply kw_ref_set|auto with wf].
Qed.

Lemma kw_js_delete n o key : keeps_wf (js_delete rec n o key).
Proof.
  unfold js_delete. destruct o as [| | | | | |a|]; try apply kw_abort.
  intros st Hok. destruct (heap st !! a) as [[ob|t m coll|inner d]|] eqn:Ha; try exact I.
  - pose proof (raw_delete_type ob key) as Hty.
    destruct (raw_delete ob key) as [o' result]. simpl in Hty.
    apply (update_wf a (CRaw ob) (CRaw o')); try done. simpl. by rewrite Hty.
  - destruct coll; [exact I|]. destruct (mode_isReadonly m); [|by apply kw_deleteProperty].
    unfold delete_reported. destruct (underlying n st t) as [u|]; [|exact I].
    destruct (_ && _); [by apply wf_post_here_exn|by apply wf_post_here].
Qed.

Lemma kw_js_has n o key : keeps_wf (js_has n o key).
Proof.
  revert o. induction n as [|n IH]; intros o; simpl; [apply kw_abort|].
  destruct o as [| | | | | |a|]; try apply kw_abort.
  intros st Hok. destruct (heap st !! a) as [[ob|t m [|]|inner d]|]; try exact I.
  - destruct (raw_has ob key); [by apply wf_post_here|exact I].
  - destruct (mode_isReadonly m); [by apply IH|by apply kw_has].
Qed.

Lemma kw_js_ownKeys n o : keeps_wf (js_ownKeys n o).
Proof.
  revert o. induction n as [|n IH]; intros o; simpl; [apply kw_abort|].
  destruct o as [| | | | | |a|]; try apply kw_abort.
  intros st Hok. destruct (heap st !! a) as [[ob|t m [|]|inner d]|]; try exact I.
  - by apply wf_post_here.
  - destruct (mode_isReadonly m); [by apply IH|by apply kw_ownKeys].
Qed.

Lemma kw_step n p : keeps_wf (step rec n p).
Proof.
  destruct p; simpl; auto with wf;
    (apply kw_bind; [|intros; apply Hrec]).
  - apply kw_alloc_raw.
  - apply kw_ref.
  - apply kw_js_get.
  - apply kw_js_set.
  - apply kw_js_delete.
  - apply kw_js_has.
  - apply kw_js_ownKeys.
  - apply kw_wrap.
  - apply kw_toRaw.
  - apply kw_effect.
  - apply kw_run.
  - apply kw_stop.
  - apply kw_pauseTracking.
  - apply kw_enableTracking.
  - apply kw_resetTracking.
Qed.

End EngineKeepsWf.

Lemma kw_exec fuel p : keeps_wf (exec fuel p).
Proof.
  revert p. induction fuel as [|f IH]; intros p; simpl; [apply kw_abort|].
  by apply kw_step.
Qed.

Lemma well_formed_maps_wf st : well_formed st → maps_wf st ∧ deps_wf st.
Proof.
  intros (W1 & W3 & _). split; [|done].
  intros m t p H. destruct (W1 _ _ _ H) as (_ & coll & Hp & Hc). eauto.
Qed.

(** X23. The engine keeps its states well formed, whatever user code does:
    started in a well-formed state (the initial state is one), a piece of
    user code returns or throws in a well-formed state, in which every cell
    that was in the heap is still there with its class (a proxy is still
    the proxy of the same target in the same mode, an object has kept its
    class, a Ref is a Ref) and every Dep is still in the store.  So every
    entry of a proxy map is a proxy of its key in the mode of the map, and
    every Dep that [targetMap] names exists. *)
Theorem user_code_keeps_states_well_formed fuel p st :
  well_formed st →
  match exec fuel p st with
  | Ok _ st' | Exn _ st' => well_formed st' ∧ grows st st' ∧ maps_wf st' ∧ deps_wf st'
  | Abort _ => True
  end.
Proof.
  intros Hw. pose proof (kw_exec fuel p st Hw) as H.
  destruct (exec fuel p st); simpl in H; [| |done];
    destruct H as [Hw' Hg]; destruct (well_formed_maps_wf _ Hw') as [Hm Hd]; done.
Qed.

Lemma user_code_keeps_states_well_formed_witness :
  match exec 20 stop_then_read_script init with
  | Ok _ st' | Exn _ st' => well_formed st' ∧ grows init st' ∧ maps_wf st' ∧ deps_wf st'
  | Abort _ => True
  end.
Proof.
  apply (user_code_keeps_states_well_formed 20 stop_then_read_script init).
  split; [|split].
  - intros [] t p; simpl; by rewrite lookup_empty.
  - intros t depsMap key di. simpl. by rewrite lookup_empty.
  - intros a inner di. simpl. by rewrite lookup_empty.
Defined.
